(** * jacobian-saes: the toy Jacobian notebook, the MLP with activation
      gradients, the HPC argument helper, the sync script and the artifact
      download script, embedded as Rocq functions.

    Tensors are lists (a vector), lists of rows (a matrix) and lists of
    matrices (a 3-d tensor), row-major as in torch.  Their entries range
    over a type of scalars with the operations the notebooks use; the
    integers give an instance that computes, the reals the instance on
    which derivatives are stated. *)

From Stdlib Require Import String Ascii DecimalString DecimalZ.
From Stdlib Require Import List Bool Arith ZArith Lia.
From Stdlib Require Import Reals Lra Ring Permutation Sorted.
Import ListNotations.

Set Implicit Arguments.

(* ================================================================== *)
(** ** Scalars *)
(* ================================================================== *)

Class Scalar (T : Type) : Type := {
  zero : T;
  one : T;
  add : T -> T -> T;
  mul : T -> T -> T;
  sub : T -> T -> T;
  opp : T -> T;
  ltb : T -> T -> bool
}.

#[export] Instance ZScalar : Scalar Z := {
  zero := 0%Z; one := 1%Z;
  add := Z.add; mul := Z.mul; sub := Z.sub; opp := Z.opp;
  ltb := Z.ltb
}.

Definition Rltb (x y : R) : bool := if Rlt_dec x y then true else false.

#[export] Instance RScalar : Scalar R := {
  zero := 0%R; one := 1%R;
  add := Rplus; mul := Rmult; sub := Rminus; opp := Ropp;
  ltb := Rltb
}.

Declare Scope scalar_scope.
Delimit Scope scalar_scope with scalar.
Notation "x + y" := (add x y) : scalar_scope.
Notation "x * y" := (mul x y) : scalar_scope.
Notation "x - y" := (sub x y) : scalar_scope.
Notation "0" := zero : scalar_scope.
Notation "1" := one : scalar_scope.

(* ================================================================== *)
(** ** Tensor operations (torch, einops) *)
(* ================================================================== *)

Module Tensor.

(** A vector is a list of scalars, a matrix a list of rows. *)
Abbreviation vec T := (list T) (only parsing).
Abbreviation mat T := (list (list T)) (only parsing).

Section Ops.
Context {T : Type} {ST : Scalar T}.

#[local] Abbreviation vec := (vec T).
#[local] Abbreviation mat := (mat T).

Definition zipWith {A B C : Type} (f : A -> B -> C) (x : list A) (y : list B) : list C :=
  map (fun p => f (fst p) (snd p)) (combine x y).

(** [t.sum()] *)
Definition sum (v : vec) : T := fold_right add zero v.

(** [sum_{i < n} f i] *)
Definition bigsum (n : nat) (f : nat -> T) : T := sum (map f (seq 0 n)).

(** elementwise [x * y] and [x + y] *)
Definition vmul (x y : vec) : vec := zipWith mul x y.
Definition vadd (x y : vec) : vec := zipWith add x y.

Definition dot (x y : vec) : T := sum (vmul x y).

Definition zeros (n : nat) : vec := repeat zero n.
Definition ones_like (x : vec) : vec := map (fun _ => one) x.

(** Number of columns of a matrix given by its rows. *)
Definition cols (M : mat) : nat :=
  match M with
  | [] => 0
  | r :: _ => length r
  end.

(** [M[:, j]] *)
Definition col (j : nat) (M : mat) : vec := map (fun row => nth j row zero) M.

(** [M.T] *)
Definition transpose (M : mat) : mat := map (fun j => col j M) (seq 0 (cols M)).

(** [A @ B] *)
Definition matmul (A B : mat) : mat :=
  map (fun row => map (fun c => dot row c) (transpose B)) A.

(** [F.linear(x, W, b)], that is [x @ W.T + b], on one row [x]. *)
Definition linear (x : vec) (W : mat) (b : vec) : vec :=
  vadd (map (fun row => dot x row) W) b.

(** [nn.ReLU] and the local derivative its backward pass uses
    ([grad_output * (result > 0)]). *)
Definition relu (x : T) : T := if ltb zero x then x else zero.
Definition relu_grad (x : T) : T := if ltb zero x then one else zero.

(** [torch.autograd.grad(outputs=post, inputs=pre, grad_outputs=g)] where
    [post] is an elementwise function of [pre] whose local derivative is
    [dact]: the vector-Jacobian product with a diagonal Jacobian. *)
Definition autograd_grad_elementwise (dact : T -> T) (pre grad_outputs : vec) : vec :=
  zipWith (fun g p => mul g (dact p)) grad_outputs pre.

(** [x >= y], as the comparison [<] of the scalars decides it. *)
Definition geb (x y : T) : bool := negb (ltb x y).

(** [torch.topk(acts, k, dim=-1)] on one row: the [k] largest entries in
    decreasing order with their positions.  Among equal entries the
    smaller position comes first (torch leaves the order of ties
    unspecified). *)
Fixpoint insert_desc (p : nat * T) (l : list (nat * T)) : list (nat * T) :=
  match l with
  | [] => [p]
  | q :: l' => if ltb (snd q) (snd p) then p :: q :: l' else q :: insert_desc p l'
  end.

Definition sort_desc (l : list (nat * T)) : list (nat * T) :=
  fold_left (fun acc p => insert_desc p acc) l [].

Definition topk (acts : vec) (k : nat) : vec * list nat :=
  let s := firstn k (sort_desc (combine (seq 0 (length acts)) acts)) in
  (map snd s, map fst s).

(** [l[i] = v]; positions outside the list are left alone (torch raises
    there, and no caller in the notebook reaches that case). *)
Fixpoint set_nth {A : Type} (i : nat) (v : A) (l : list A) : list A :=
  match l, i with
  | [], _ => []
  | _ :: l', 0 => v :: l'
  | x :: l', S i' => x :: set_nth i' v l'
  end.

(** [x.scatter_(1, indices, src)] on one row: [x[indices[j]] = src[j]]. *)
Definition scatter (x : vec) (indices : list nat) (src : vec) : vec :=
  fold_left (fun acc p => set_nth (fst p) (snd p) acc) (combine indices src) x.

(** [for i in range(n): s = body i s] *)
Definition for_range {S : Type} (n : nat) (body : nat -> S -> S) (s : S) : S :=
  fold_left (fun s i => body i s) (seq 0 n) s.

(** [W[topk_indices]] with [topk_indices] of shape (n_tokens, k): a tensor
    of shape (n_tokens, k, d). *)
Definition gather_rows (W : mat) (indices : list (list nat)) : list mat :=
  map (fun idx => map (fun i => nth i W []) idx) indices.

(** [W[:, topk_indices]]: a tensor of shape (d, n_tokens, k). *)
Definition gather_cols (W : mat) (indices : list (list nat)) : list mat :=
  map (fun row => map (fun idx => map (fun j => nth j row zero) idx) indices) W.

(** [einops.einsum(A, G, B,
      "seq_pos k1 d_mlp, seq_pos d_mlp, d_mlp seq_pos k2 -> seq_pos k2 k1")]:
    the axis [d_mlp] is summed, the output axes are [seq_pos], then [k2],
    then [k1]. *)
Definition einsum_k1m_m_mk2 (A : list mat) (G : mat) (B : list mat) : list mat :=
  let seq_pos := length A in
  let k1 := length (nth 0 A []) in
  let d_mlp := length B in
  let k2 := length (nth 0 (nth 0 B []) []) in
  map (fun t =>
    map (fun c2 =>
      map (fun c1 =>
        bigsum d_mlp (fun m =>
          mul (mul (nth m (nth c1 (nth t A []) []) zero)
                   (nth m (nth t G []) zero))
              (nth c2 (nth t (nth m B []) []) zero)))
        (seq 0 k1))
      (seq 0 k2))
    (seq 0 seq_pos).

End Ops.
End Tensor.

(* ================================================================== *)
(** ** notebooks/2024-10-25_jacobian_toy_model.ipynb *)
(* ================================================================== *)

Module ToyModel.
Import Tensor.
Section Toy.
Context {T : Type} {ST : Scalar T}.

#[local] Abbreviation vec := (vec T).
#[local] Abbreviation mat := (mat T).

(** [class SAE(nn.Module)]: [W_enc] has shape (d_sae, d_in), [W_dec] has
    shape (d_in, d_sae). *)
Record SAE : Type := {
  d_in : nat;
  d_sae : nat;
  k : nat;
  W_enc : mat;
  b_enc : vec;
  W_dec : mat;
  b_dec : vec
}.

(** [class MLP(nn.Module)]: [W_in] has shape (d_mlp, d_resid), [W_out]
    has shape (d_resid, d_mlp); the activation is [nn.ReLU]. *)
Record MLP : Type := {
  W_in : mat;
  b_in : vec;
  W_out : mat;
  b_out : vec
}.

(** [SAE.encode] on one token. *)
Definition encode_row (self : SAE) (x : vec) : vec * list nat :=
  let acts := linear x (W_enc self) (b_enc self) in
  topk acts (k self).

(** [SAE.encode]: [(topk.values, topk.indices)]. *)
Definition encode (self : SAE) (x : mat) : mat * list (list nat) :=
  let topk := map (encode_row self) x in
  (map fst topk, map snd topk).

(** [SAE.decode] on one token: scatter the latents into a zero vector of
    size [d_sae], then the decoder's linear map. *)
Definition decode_row (self : SAE) (latents : vec) (indices : list nat) : vec :=
  let x := zeros (d_sae self) in
  let x := scatter x indices latents in
  linear x (W_dec self) (b_dec self).

(** [x.scatter_(1, indices, src)] on a batch. *)
Definition scatter_rows (x : mat) (indices : list (list nat)) (src : mat) : mat :=
  map (fun t => scatter (nth t x []) (nth t indices []) (nth t src []))
      (seq 0 (length x)).

(** [SAE.decode] *)
Definition decode (self : SAE) (latents : mat) (indices : list (list nat)) : mat :=
  let x := repeat (zeros (d_sae self)) (length latents) in
  let x := scatter_rows x indices latents in
  map (fun row => linear row (W_dec self) (b_dec self)) x.

(** [SAE.forward] *)
Definition SAE_forward (self : SAE) (x : mat) : mat * list (list nat) :=
  let e := encode self x in
  let x := decode self (fst e) (snd e) in
  (x, snd e).

(** The pre-activations of [MLP.forward] on one token. *)
Definition MLP_pre (self : MLP) (x : vec) : vec :=
  linear x (W_in self) (b_in self).

(** [MLP.forward(x, return_grad_of_act=True)] on one token:
    [(out, grad_of_act)]. *)
Definition MLP_forward_row (self : MLP) (x : vec) : vec * vec :=
  let pre := MLP_pre self x in
  let post := map relu pre in
  let out := linear post (W_out self) (b_out self) in
  let grad_of_act := autograd_grad_elementwise relu_grad pre (ones_like post) in
  (out, grad_of_act).

(** [MLP.forward(x, return_grad_of_act=True)] *)
Definition MLP_forward_grad (self : MLP) (x : mat) : mat * mat :=
  let r := map (MLP_forward_row self) x in
  (map fst r, map snd r).

(** [MLP.forward(x)] *)
Definition MLP_forward (self : MLP) (x : mat) : mat :=
  map (fun row => fst (MLP_forward_row self row)) x.

(** The notebook's globals [wd1] and [w2e]. *)
Definition wd1_of (sae : SAE) (mlp : MLP) : mat :=
  matmul (transpose (W_dec sae)) (transpose (W_in mlp)).
Definition w2e_of (sae : SAE) (mlp : MLP) : mat :=
  matmul (transpose (W_out mlp)) (transpose (W_enc sae)).

(** [jacobian[t, a, b] = v] *)
Definition set3 (t a b : nat) (v : T) (J : list mat) : list mat :=
  let Jt := nth t J [] in
  set_nth t (set_nth a (set_nth b v (nth a Jt [])) Jt) J.

(** [jacobian[t, a, b]] *)
Definition get3 (J : list mat) (t a b : nat) : T :=
  nth b (nth a (nth t J []) []) zero.

(** [J] has shape (n, p, q). *)
Definition dims3 (J : list mat) (n p q : nat) : Prop :=
  length J = n
  /\ forall t, t < n ->
       length (nth t J []) = p
       /\ forall a, a < p -> length (nth a (nth t J []) []) = q.

(** The entry [get_jacobian_slow] writes at [[token_pos, input_k, output_k]]. *)
Definition slow_entry (wd1 w2e mlp_act_grad : mat)
    (topk_indices1 topk_indices2 : list (list nat))
    (token_pos input_k output_k : nat) : T :=
  let output_k_sae_index := nth output_k (nth token_pos topk_indices2 []) 0 in
  let input_k_sae_index := nth input_k (nth token_pos topk_indices1 []) 0 in
  sum (vmul (vmul (nth input_k_sae_index wd1 []) (nth token_pos mlp_act_grad []))
            (col output_k_sae_index w2e)).

Definition get_jacobian_slow (sae : SAE) (mlp : MLP) (resid_values : mat) : list mat :=
  let wd1 := wd1_of sae mlp in
  let w2e := w2e_of sae mlp in
  let s := SAE_forward sae resid_values in
  let sae_out := fst s in
  let topk_indices1 := snd s in
  let m := MLP_forward_grad mlp sae_out in
  let resid_post := fst m in
  let mlp_act_grad := snd m in
  let topk_indices2 := snd (encode sae resid_post) in
  let num_tokens := length resid_values in
  let jacobian := repeat (repeat (zeros (k sae)) (k sae)) num_tokens in
  for_range (length resid_values) (fun token_pos =>
    for_range (k sae) (fun output_k =>
      for_range (k sae) (fun input_k =>
        set3 token_pos input_k output_k
             (slow_entry wd1 w2e mlp_act_grad topk_indices1 topk_indices2
                         token_pos input_k output_k))))
    jacobian.

(** [get_jacobian_fast] reads the globals [wd1] and [w2e] of the notebook. *)
Definition get_jacobian_fast (wd1 w2e : mat) (sae : SAE) (mlp : MLP)
    (resid_values : mat) : list mat :=
  let s := SAE_forward sae resid_values in
  let sae_out := fst s in
  let topk_indices1 := snd s in
  let m := MLP_forward_grad mlp sae_out in
  let resid_post := fst m in
  let mlp_act_grad := snd m in
  let topk_indices2 := snd (encode sae resid_post) in
  einsum_k1m_m_mk2 (gather_rows wd1 topk_indices1) mlp_act_grad
                   (gather_cols w2e topk_indices2).

(** [jacobian_einsum] of the benchmark, which reads the globals [wd1] and
    [w2e]; the [sync()] before it returns waits for the device and changes
    no value. *)
Definition jacobian_einsum (wd1 w2e : mat) (topk_indices1 : list (list nat))
    (mlp_act_grad : mat) (topk_indices2 : list (list nat)) : list mat :=
  let jacobian :=
    einsum_k1m_m_mk2 (gather_rows wd1 topk_indices1) mlp_act_grad
                     (gather_cols w2e topk_indices2) in
  jacobian.

(** *** The map whose Jacobian the notebook computes *)

(** Decode the latents [z] at the positions [indices], apply the MLP,
    encode: the values of the [k] largest output latents and their
    positions. *)
Definition sandwich_row (sae : SAE) (mlp : MLP) (indices : list nat) (z : vec)
    : vec * list nat :=
  encode_row sae (fst (MLP_forward_row mlp (decode_row sae z indices))).

(** The output latents before the top-k selection. *)
Definition sandwich_acts (sae : SAE) (mlp : MLP) (indices : list nat) (z : vec) : vec :=
  linear (fst (MLP_forward_row mlp (decode_row sae z indices))) (W_enc sae) (b_enc sae).

(** The sum the einsum of [get_jacobian_fast] forms for the input latent at
    position [i] and the output latent at position [j], with the
    activation gradient [g]. *)
Definition contraction (wd1 w2e : mat) (g : vec) (i j : nat) : T :=
  bigsum (length w2e) (fun m =>
    mul (mul (nth m (nth i wd1 []) zero) (nth m g zero))
        (nth j (nth m w2e []) zero)).

(** The latents [z] with [h] added to the entry [a]. *)
Definition perturb (z : vec) (a : nat) (h : T) : vec :=
  set_nth a (add (nth a z zero) h) z.

(** Which neurons of the MLP are active: the sign pattern ReLU acts on. *)
Definition relu_pattern (pre : vec) : list bool := map (ltb zero) pre.

(** At [z] the second encoding selects the same positions and the MLP has
    the same active neurons as at [z0]. *)
Definition same_regime (sae : SAE) (mlp : MLP) (indices : list nat) (z0 z : vec) : Prop :=
  snd (sandwich_row sae mlp indices z) = snd (sandwich_row sae mlp indices z0)
  /\ relu_pattern (MLP_pre mlp (decode_row sae z indices))
     = relu_pattern (MLP_pre mlp (decode_row sae z0 indices)).

(** [M] has [r] rows of [c] entries. *)
Definition has_shape (M : mat) (r c : nat) : Prop :=
  length M = r /\ Forall (fun row => length row = c) M.

(** The shapes [SAE.__init__] and [MLP.__init__] give the parameters, for
    positive sizes and [k <= d_sae] (beyond which [torch.topk] raises). *)
Definition SAE_shapes (sae : SAE) : Prop :=
  has_shape (W_enc sae) (d_sae sae) (d_in sae)
  /\ length (b_enc sae) = d_sae sae
  /\ has_shape (W_dec sae) (d_in sae) (d_sae sae)
  /\ length (b_dec sae) = d_in sae
  /\ k sae <= d_sae sae
  /\ 0 < d_in sae /\ 0 < d_sae sae.

Definition MLP_shapes (mlp : MLP) (d_resid d_mlp : nat) : Prop :=
  has_shape (W_in mlp) d_mlp d_resid
  /\ length (b_in mlp) = d_mlp
  /\ has_shape (W_out mlp) d_resid d_mlp
  /\ length (b_out mlp) = d_resid
  /\ 0 < d_mlp.

End Toy.

Arguments SAE T : clear implicits.
Arguments MLP T : clear implicits.

(** The selections of the top-k and the ReLU pattern are locally constant
    at the latents [z0]: they are the same at every [z] close enough to
    [z0]. *)
Definition locally_constant (sae : SAE R) (mlp : MLP R)
    (indices : list nat) (z0 : list R) : Prop :=
  exists eps : R,
    (0 < eps)%R /\
    forall z : list R,
      length z = length z0 ->
      (forall c, (Rabs (nth c z 0 - nth c z0 0) < eps)%R) ->
      same_regime sae mlp indices z0 z.

(** A two-latent SAE around a one-neuron MLP, with integer weights (which
    float32 represents exactly). *)
Definition sae2 : SAE Z :=
  {| d_in := 1; d_sae := 2; k := 2;
     W_enc := [[1]; [2]]; b_enc := [0; 0];
     W_dec := [[1; 1]]; b_dec := [0] |}%Z.
Definition mlp1 : MLP Z :=
  {| W_in := [[1]]; b_in := [0]; W_out := [[1]]; b_out := [0] |}%Z.
Definition input1 : mat Z := [[1]]%Z.

(** A token on which the neuron of [mlp1] is not active. *)
Definition input_neg : mat Z := [[-1]]%Z.

(** The smallest model over the reals: one latent, one neuron, unit
    weights. *)
Definition sae_unit : SAE R :=
  {| d_in := 1; d_sae := 1; k := 1;
     W_enc := [[1]]; b_enc := [0];
     W_dec := [[1]]; b_dec := [0] |}%R.
Definition mlp_unit : MLP R :=
  {| W_in := [[1]]; b_in := [0]; W_out := [[1]]; b_out := [0] |}%R.
Definition input_unit : mat R := [[1]]%R.

End ToyModel.


(* ================================================================== *)
(** ** The notebook that adds activation gradients to the
       TransformerLens MLP ([MLPWithActGrads]) *)
(* ================================================================== *)

Module ActGrads.
Import Tensor.
Section Defs.
Context {T : Type} {ST : Scalar T}.

#[local] Abbreviation vec := (vec T).
#[local] Abbreviation mat := (mat T).

(** A tensor of shape [batch, pos, d]. *)
Definition tensor3 : Type := list (list vec).

Definition map3 (f : T -> T) (x : tensor3) : tensor3 :=
  map (map (map f)) x.

(** [transformer_lens.utilities.addmm.batch_addmm(bias, weight, x)]:
    [x @ weight + bias] on the last axis, [weight] of shape
    (d_in, d_out).  The sum is written as [torch.addmm] takes it, the
    bias first. *)
Definition addmm_row (bias : vec) (weight : mat) (x : vec) : vec :=
  vadd bias (map (fun c => dot x c) (transpose weight)).

Definition batch_addmm (bias : vec) (weight : mat) (x : tensor3) : tensor3 :=
  map (map (addmm_row bias weight)) x.

(** An activation function as the MLP holds it: the forward function on
    the last axis, and the backward function autograd records for it,
    which takes the input of the forward pass and the gradient of the
    output to the gradient of the input (a vector-Jacobian product). *)
Record ActFn : Type := {
  act : vec -> vec;
  act_vjp : vec -> vec -> vec
}.

(** An elementwise activation [f] whose derivative autograd takes to be
    [f'], such as relu, gelu and silu. *)
Definition elementwise (f f' : T -> T) : ActFn :=
  {| act := map f;
     act_vjp := fun pre grad_outputs => autograd_grad_elementwise f' pre grad_outputs |}.

(** [self.act_fn(x)] *)
Definition apply_act (f : ActFn) (x : tensor3) : tensor3 := map (map (act f)) x.

(** [torch.ones_like] *)
Definition ones_like3 (x : tensor3) : tensor3 := map3 (fun _ => one) x.

(** [torch.autograd.grad(outputs=post_act, inputs=pre_act,
    grad_outputs=g)[0]] where [post_act = act_fn(pre_act)]. *)
Definition autograd_grad3 (f : ActFn) (pre_act grad_outputs : tensor3) : tensor3 :=
  zipWith (zipWith (fun g p => act_vjp f p g)) grad_outputs pre_act.

(** The part of [HookedTransformerConfig] the MLP reads: the activation
    function selected from [cfg.act_fn], what
    [cfg.is_layer_norm_activation()] answers, and the layer norm built for
    a layer-norm activation. *)
Record Config : Type := {
  cfg_act_fn : ActFn;
  is_layer_norm_activation : bool;
  cfg_ln : tensor3 -> tensor3
}.

(** The parameters of the module, as [state_dict()] lists them.
    [W_in] has shape (d_model, d_mlp), [W_out] has shape (d_mlp, d_model). *)
Record StateDict : Type := {
  W_in : mat;
  b_in : vec;
  W_out : mat;
  b_out : vec
}.

(** A [HookPoint] with no hook attached returns its input. *)
Definition HookPoint : Type := tensor3 -> tensor3.
Definition fresh_HookPoint : HookPoint := fun x => x.

(** The TransformerLens MLP module; [MLPWithActGrads] has the same
    attributes and overrides [forward] only. *)
Record TL_MLP : Type := {
  cfg : Config;
  params : StateDict;
  hook_pre : HookPoint;
  hook_post : HookPoint;
  hook_mid : option HookPoint;
  ln : option (tensor3 -> tensor3)
}.

Definition act_fn (self : TL_MLP) : ActFn := cfg_act_fn (cfg self).

(** [MLP(cfg)], the constructor [MLPWithActGrads(cfg)] inherits; [init] stands for
    the freshly initialised parameters.  [hook_mid] and [ln] exist only
    for a layer-norm activation. *)
Definition TL_MLP_new (c : Config) (init : StateDict) : TL_MLP :=
  {| cfg := c;
     params := init;
     hook_pre := fresh_HookPoint;
     hook_post := fresh_HookPoint;
     hook_mid := if is_layer_norm_activation c then Some fresh_HookPoint else None;
     ln := if is_layer_norm_activation c then Some (cfg_ln c) else None |}.

Definition state_dict (self : TL_MLP) : StateDict := params self.

Definition load_state_dict (self : TL_MLP) (sd : StateDict) : TL_MLP :=
  {| cfg := cfg self;
     params := sd;
     hook_pre := hook_pre self;
     hook_post := hook_post self;
     hook_mid := hook_mid self;
     ln := ln self |}.

(** [x] has shape (batch, pos, d). *)
Definition shape3 (x : tensor3) (batch pos d : nat) : Prop :=
  length x = batch
  /\ Forall (fun m => length m = pos /\ Forall (fun row => length row = d) m) x.

(** What [forward] hands back: a tensor, a pair when
    [return_act_grads=True], or the [NotImplementedError] it raises. *)
Inductive forward_result : Type :=
| Output (output : tensor3)
| OutputWithGrads (output grad_of_act : tensor3)
| NotImplementedError.

Definition is_some {A : Type} (o : option A) : bool :=
  match o with
  | Some _ => true
  | None => false
  end.

(** [MLPWithActGrads.forward] *)
Definition MLPWithActGrads_forward (self : TL_MLP) (x : tensor3)
    (return_act_grads : bool) : forward_result :=
  let pre_act := hook_pre self (batch_addmm (b_in (params self)) (W_in (params self)) x) in
  if is_layer_norm_activation (cfg self) && is_some (hook_mid self) && is_some (ln self)
  then NotImplementedError
  else
    let post_act := apply_act (act_fn self) pre_act in
    let grad_of_act := autograd_grad3 (act_fn self) pre_act (ones_like3 post_act) in
    let post_act := hook_post self post_act in
    let output := batch_addmm (b_out (params self)) (W_out (params self)) post_act in
    if return_act_grads then OutputWithGrads output grad_of_act
    else Output output.

(** The pre-activations [forward] differentiates at. *)
Definition pre_act_of (self : TL_MLP) (x : tensor3) : tensor3 :=
  hook_pre self (batch_addmm (b_in (params self)) (W_in (params self)) x).

(** [transformer_lens.components.mlps.mlp.MLP.forward], the method
    [MLPWithActGrads] overrides.  It belongs to the TransformerLens
    library, not to this repository; this is the library's method, whose
    first branch is the one the subclass refuses. *)
Definition TL_MLP_forward (self : TL_MLP) (x : tensor3) : tensor3 :=
  let pre_act := hook_pre self (batch_addmm (b_in (params self)) (W_in (params self)) x) in
  let post_act :=
    match is_layer_norm_activation (cfg self), hook_mid self, ln self with
    | true, Some hook_mid, Some ln =>
        let mid_act := hook_mid (apply_act (act_fn self) pre_act) in
        hook_post self (ln mid_act)
    | _, _, _ => hook_post self (apply_act (act_fn self) pre_act)
    end in
  batch_addmm (b_out (params self)) (W_out (params self)) post_act.

(** The two lines of the notebook that build [mlp_with_grads]. *)
Definition mlp_with_grads_of (original_mlp : TL_MLP) (init : StateDict) : TL_MLP :=
  let mlp_with_grads := TL_MLP_new (cfg original_mlp) init in
  load_state_dict mlp_with_grads (state_dict original_mlp).

End Defs.

Arguments ActFn T : clear implicits.
Arguments Config T : clear implicits.
Arguments StateDict T : clear implicits.
Arguments TL_MLP T : clear implicits.
Arguments forward_result T : clear implicits.
Arguments tensor3 T : clear implicits.

(** A ReLU configuration over the integers.  The layer-norm activation of
    TransformerLens is [solu_ln], which is not elementwise; a row-wise
    function stands for it here (each entry times the largest entry of its
    row), with a backward function that plays no part: [forward] raises
    before it applies either. *)
Definition relu_act : ActFn Z := elementwise relu relu_grad.

Definition rowwise_act : ActFn Z :=
  {| act := fun x => map (Z.mul (fold_right Z.max 0%Z x)) x;
     act_vjp := fun pre grad_outputs => grad_outputs |}.

Definition cfg_relu : Config Z :=
  {| cfg_act_fn := relu_act; is_layer_norm_activation := false; cfg_ln := fun x => x |}.

Definition cfg_ln_act : Config Z :=
  {| cfg_act_fn := rowwise_act; is_layer_norm_activation := true; cfg_ln := fun x => x |}.

Definition sd1 : StateDict Z :=
  {| W_in := [[1; -1]]; b_in := [0; 0]; W_out := [[1]; [1]]; b_out := [0] |}%Z.

Definition sd0 : StateDict Z :=
  {| W_in := [[0; 0]]; b_in := [0; 0]; W_out := [[0]; [0]]; b_out := [0] |}%Z.

Definition original_relu : TL_MLP Z := TL_MLP_new cfg_relu sd1.
Definition original_ln_act : TL_MLP Z := TL_MLP_new cfg_ln_act sd1.

Definition x3 : tensor3 Z := [[[3]; [-2]]]%Z.

End ActGrads.

(* ================================================================== *)
(** ** hpc_utils/extract_args *)
(* ================================================================== *)

Module ExtractArgs.
#[local] Open Scope string_scope.

(** *** Strings as Python uses them *)

(** [c in s] *)
Fixpoint contains (c : ascii) (s : string) : bool :=
  match s with
  | EmptyString => false
  | String d s' => Ascii.eqb c d || contains c s'
  end.

(** [s.split(c, 1)] for a string that contains [c]: the part before the
    first [c] and the part after it. *)
Fixpoint split_once (c : ascii) (s : string) : string * string :=
  match s with
  | EmptyString => (EmptyString, EmptyString)
  | String d s' =>
      if Ascii.eqb c d then (EmptyString, s')
      else let p := split_once c s' in (String d (fst p), snd p)
  end.

(** [s.startswith(p)] *)
Definition startswith (s p : string) : bool := String.prefix p s.

Definition is_digit (c : ascii) : bool :=
  (48 <=? nat_of_ascii c)%nat && (nat_of_ascii c <=? 57)%nat.

Fixpoint all_digits (s : string) : bool :=
  match s with
  | EmptyString => true
  | String c s' => is_digit c && all_digits s'
  end.

(** The digits a string starts with, and what follows them. *)
Fixpoint span_digits (s : string) : string * string :=
  match s with
  | EmptyString => (EmptyString, EmptyString)
  | String c s' =>
      if is_digit c then let p := span_digits s' in (String c (fst p), snd p)
      else (EmptyString, s)
  end.

Definition nonempty (s : string) : bool :=
  match s with
  | EmptyString => false
  | String _ _ => true
  end.

(** [\d+] or [\d*\.\d+], on the whole of [body]. *)
Definition number_body (body : string) : bool :=
  let p := span_digits body in
  match snd p with
  | EmptyString => nonempty (fst p)
  | String c r => Ascii.eqb c "." && nonempty r && all_digits r
  end.

Fixpoint drop_last (s : string) : string :=
  match s with
  | EmptyString => EmptyString
  | String c EmptyString => EmptyString
  | String c s' => String c (drop_last s')
  end.

Fixpoint last_is (c : ascii) (s : string) : bool :=
  match s with
  | EmptyString => false
  | String d EmptyString => Ascii.eqb c d
  | String _ s' => last_is c s'
  end.

(** [parser._negative_number_matcher.match(s)], the regular expression
    [^-\d+$|^-\d*\.\d+$], for the ASCII digits; [$] also matches before one
    final newline. *)
Definition negative_number (s : string) : bool :=
  match s with
  | String "-" body =>
      number_body body || (last_is "010" body && number_body (drop_last body))
  | _ => false
  end.

(** [str(n)] for an integer. *)
Definition str_of_Z (n : Z) : string := NilZero.string_of_int (Z.to_int n).


(** *** The parser the script builds *)

(** The actions of the parser: [-h/--help], which [ArgumentParser] adds
    itself, the five GPU options, the positional [runner_script], and
    [-n/--name] and [-q/--queue]. *)
Inductive action : Type :=
| Act_help
| Act_gputype
| Act_2080
| Act_3090
| Act_a100
| Act_80g
| Act_runner_script
| Act_name
| Act_queue.

Definition action_eqb (a b : action) : bool :=
  match a, b with
  | Act_help, Act_help
  | Act_gputype, Act_gputype
  | Act_2080, Act_2080
  | Act_3090, Act_3090
  | Act_a100, Act_a100
  | Act_80g, Act_80g
  | Act_runner_script, Act_runner_script
  | Act_name, Act_name
  | Act_queue, Act_queue => true
  | _, _ => false
  end.

(** [parser._option_string_actions], in the order the options were added. *)
Definition option_string_actions : list (string * action) :=
  [ ("-h", Act_help); ("--help", Act_help);
    ("--gputype", Act_gputype);
    ("--2080", Act_2080);
    ("--3090", Act_3090);
    ("--a100", Act_a100);
    ("--80g", Act_80g);
    ("-n", Act_name); ("--name", Act_name);
    ("-q", Act_queue); ("--queue", Act_queue) ].

Fixpoint lookup (s : string) (m : list (string * action)) : option action :=
  match m with
  | [] => None
  | (os, a) :: m' => if String.eqb s os then Some a else lookup s m'
  end.

(** [gpu_group = parser.add_mutually_exclusive_group()] *)
Definition gpu_group : list action :=
  [Act_gputype; Act_2080; Act_3090; Act_a100; Act_80g].

Definition in_group (a : action) : bool := existsb (action_eqb a) gpu_group.

(** [action_conflicts[a]]: the other members of the group of [a]. *)
Definition action_conflicts (a : action) : list action :=
  if in_group a then filter (fun b => negb (action_eqb a b)) gpu_group else [].

(** The number of argument strings an action takes: [store] with
    [nargs=None] takes one, [store_true] and [help] take none. *)
Definition nargs (a : action) : nat :=
  match a with
  | Act_gputype | Act_runner_script | Act_name | Act_queue => 1
  | _ => 0
  end.

(** A value argparse stores: a string, or the list [_get_values] builds
    when it is left with no single string. *)
Inductive value : Type :=
| VStr (s : string)
| VList (l : list string).

(** [repr] of a string without quotes, backslashes or control characters. *)
Definition repr_str (s : string) : string := "'" ++ s ++ "'".

(** [str(v)], as an f-string formats it. *)
Definition str (v : value) : string :=
  match v with
  | VStr s => s
  | VList l => "[" ++ String.concat ", " (map repr_str l) ++ "]"
  end.

Definition str_opt (v : option value) : string :=
  match v with
  | Some v => str v
  | None => "None"
  end.

(** [bool(v)] *)
Definition truthy (v : option value) : bool :=
  match v with
  | None => false
  | Some (VStr s) => nonempty s
  | Some (VList l) => match l with [] => false | _ => true end
  end.

(** [args], with the defaults of [add_argument]. *)
Record Namespace : Type := {
  gputype : option value;
  _2080 : bool;
  _3090 : bool;
  a100 : bool;
  _80g : bool;
  runner_script : option value;
  name : value;
  queue : value
}.

Definition default_name : string := "jsae[UNIQUE-ID]".

Definition defaults : Namespace :=
  {| gputype := None; _2080 := false; _3090 := false; a100 := false; _80g := false;
     runner_script := None; name := VStr default_name; queue := VStr "cnu" |}.

(** How the parser leaves: [parser.error] prints the usage and a message
    and exits with status 2; [-h] prints the help and exits with status 0. *)
Inductive error : Type :=
| ambiguous_option (arg_string : string)
| not_allowed_with (a conflict : action)
| expected_one_argument (a : action)
| ignored_explicit_argument (a : action)
| arguments_required (a : action).

Inductive exit : Type :=
| exit_help
| exit_error (e : error).

(** *** [_parse_optional] and the pattern of the command line *)

Inductive parsed : Type :=
| positional
| optional (a : option action) (option_string : string) (explicit_arg : option string)
| ambiguous.

(** [_get_option_tuples], for a string of at least two characters that
    starts with [-]. *)
Definition get_option_tuples (option_string : string)
    : list (action * string * option string) :=
  match option_string with
  | String _ (String "-" _) =>
      let option_prefix :=
        if contains "=" option_string then fst (split_once "=" option_string)
        else option_string in
      let explicit_arg :=
        if contains "=" option_string then Some (snd (split_once "=" option_string))
        else None in
      flat_map (fun p =>
        if startswith (fst p) option_prefix then [(snd p, fst p, explicit_arg)] else [])
        option_string_actions
  | String c0 (String c1 short_explicit_arg) =>
      let option_prefix := option_string in
      let short_option_prefix := String c0 (String c1 EmptyString) in
      flat_map (fun p =>
        if String.eqb (fst p) short_option_prefix
        then [(snd p, fst p, Some short_explicit_arg)]
        else if startswith (fst p) option_prefix then [(snd p, fst p, None)]
        else [])
        option_string_actions
  | _ => []
  end.

Definition parse_optional (arg_string : string) : parsed :=
  match arg_string with
  | EmptyString => positional
  | String c0 tl =>
      if negb (Ascii.eqb c0 "-") then positional
      else
        match lookup arg_string option_string_actions with
        | Some a => optional (Some a) arg_string None
        | None =>
            match tl with
            | EmptyString => positional
            | _ =>
                let with_eq :=
                  if contains "=" arg_string
                  then
                    let option_string := fst (split_once "=" arg_string) in
                    let explicit_arg := snd (split_once "=" arg_string) in
                    match lookup option_string option_string_actions with
                    | Some a => Some (optional (Some a) option_string (Some explicit_arg))
                    | None => None
                    end
                  else None in
                match with_eq with
                | Some r => r
                | None =>
                    match get_option_tuples arg_string with
                    | _ :: _ :: _ => ambiguous
                    | [(a, option_string, explicit_arg)] =>
                        optional (Some a) option_string explicit_arg
                    | [] =>
                        if negative_number arg_string then positional
                        else if contains " " arg_string then positional
                        else optional None arg_string None
                    end
                end
            end
        end
  end.

(** One entry of [arg_strings_pattern]: ['A'], or ['O'] with the option
    tuple of [option_string_indices]. *)
Inductive cls : Type :=
| A
| O (a : option action) (option_string : string) (explicit_arg : option string).

(** The command line with its pattern: the strings before the first [--],
    each an ['A'] or an ['O'], and the strings after it, which are all
    ['A'] (the [--] itself is the ['-'] of the pattern). *)
Record pattern : Type := {
  before : list (string * cls);
  after : option (list string)
}.

(** The first loop of [_parse_known_args]. *)
Fixpoint classify (arg_strings : list string) : error + pattern :=
  match arg_strings with
  | [] => inr {| before := []; after := None |}
  | arg_string :: rest =>
      if String.eqb arg_string "--" then inr {| before := []; after := Some rest |}
      else
        match parse_optional arg_string with
        | ambiguous => inl (ambiguous_option arg_string)
        | positional =>
            match classify rest with
            | inl e => inl e
            | inr p => inr {| before := (arg_string, A) :: before p; after := after p |}
            end
        | optional a option_string explicit_arg =>
            match classify rest with
            | inl e => inl e
            | inr p =>
                inr {| before := (arg_string, O a option_string explicit_arg) :: before p;
                       after := after p |}
            end
        end
  end.

(** *** The second loop of [_parse_known_args] *)

(** [arg_strings.remove('--')], which drops the first [--] if there is one. *)
Fixpoint remove_first_dashes (arg_strings : list string) : list string :=
  match arg_strings with
  | [] => []
  | s :: rest => if String.eqb s "--" then rest else s :: remove_first_dashes rest
  end.

(** [_get_values] for [nargs=None] (the type is [str], and there are no
    choices). *)
Definition get_values (arg_strings : list string) : value :=
  match remove_first_dashes arg_strings with
  | [arg_string] => VStr arg_string
  | l => VList l
  end.

Record pstate : Type := {
  namespace : Namespace;
  seen_actions : list action;
  seen_non_default_actions : list action;
  positionals : list action;
  extras : list string
}.

Definition initial : pstate :=
  {| namespace := defaults;
     seen_actions := [];
     seen_non_default_actions := [];
     positionals := [Act_runner_script];
     extras := [] |}.

(** [action(parser, namespace, values, option_string)]: [setattr] for the
    store actions, [print_help] and [exit] for the help action. *)
Definition call (a : action) (values : value) (ns : Namespace) : exit + Namespace :=
  match a with
  | Act_help => inl exit_help
  | Act_gputype =>
      inr {| gputype := Some values; _2080 := _2080 ns; _3090 := _3090 ns;
             a100 := a100 ns; _80g := _80g ns; runner_script := runner_script ns;
             name := name ns; queue := queue ns |}
  | Act_2080 =>
      inr {| gputype := gputype ns; _2080 := true; _3090 := _3090 ns;
             a100 := a100 ns; _80g := _80g ns; runner_script := runner_script ns;
             name := name ns; queue := queue ns |}
  | Act_3090 =>
      inr {| gputype := gputype ns; _2080 := _2080 ns; _3090 := true;
             a100 := a100 ns; _80g := _80g ns; runner_script := runner_script ns;
             name := name ns; queue := queue ns |}
  | Act_a100 =>
      inr {| gputype := gputype ns; _2080 := _2080 ns; _3090 := _3090 ns;
             a100 := true; _80g := _80g ns; runner_script := runner_script ns;
             name := name ns; queue := queue ns |}
  | Act_80g =>
      inr {| gputype := gputype ns; _2080 := _2080 ns; _3090 := _3090 ns;
             a100 := a100 ns; _80g := true; runner_script := runner_script ns;
             name := name ns; queue := queue ns |}
  | Act_runner_script =>
      inr {| gputype := gputype ns; _2080 := _2080 ns; _3090 := _3090 ns;
             a100 := a100 ns; _80g := _80g ns; runner_script := Some values;
             name := name ns; queue := queue ns |}
  | Act_name =>
      inr {| gputype := gputype ns; _2080 := _2080 ns; _3090 := _3090 ns;
             a100 := a100 ns; _80g := _80g ns; runner_script := runner_script ns;
             name := values; queue := queue ns |}
  | Act_queue =>
      inr {| gputype := gputype ns; _2080 := _2080 ns; _3090 := _3090 ns;
             a100 := a100 ns; _80g := _80g ns; runner_script := runner_script ns;
             name := name ns; queue := values |}
  end.

(** [take_action]: the values argparse builds are never the default object
    of the action, so every action taken counts as seen with a non-default
    value; the action is refused when a member of its group was seen. *)
Definition take_action (a : action) (argument_strings : list string) (st : pstate)
    : exit + pstate :=
  let argument_values := get_values argument_strings in
  let seen := a :: seen_non_default_actions st in
  match find (fun c => existsb (action_eqb c) seen) (action_conflicts a) with
  | Some conflict_action => inl (exit_error (not_allowed_with a conflict_action))
  | None =>
      match call a argument_values (namespace st) with
      | inl e => inl e
      | inr ns =>
          inr {| namespace := ns;
                 seen_actions := a :: seen_actions st;
                 seen_non_default_actions := seen;
                 positionals := positionals st;
                 extras := extras st |}
      end
  end.

Fixpoint take_actions (action_tuples : list (action * list string)) (st : pstate)
    : exit + pstate :=
  match action_tuples with
  | [] => inr st
  | (a, args) :: rest =>
      match take_action a args st with
      | inl e => inl e
      | inr st' => take_actions rest st'
      end
  end.

(** Where the [while True] loop of [consume_optional] stops: with the
    explicit argument used up, or at an action that has none and takes its
    arguments from the strings that follow. *)
Inductive chain_end : Type :=
| explicit_used
| no_explicit (a : action).

(** The iterations of that loop with an explicit argument
    ([--name=x], [-nx], [-hq]); [long] says that the option string starts
    with two dashes.  An action without arguments behind a single dash
    hands the rest of the string on as further single-dash options. *)
Fixpoint explicit_chain (a : action) (long : bool) (explicit_arg : string)
    (action_tuples : list (action * list string))
    : error + (list (action * list string) * chain_end) :=
  match nargs a with
  | 0 =>
      match explicit_arg with
      | EmptyString => inl (ignored_explicit_argument a)
      | String c new_explicit_arg =>
          if long then inl (ignored_explicit_argument a)
          else
            let action_tuples := (action_tuples ++ [(a, [])])%list in
            let option_string := String "-" (String c EmptyString) in
            match lookup option_string option_string_actions with
            | None => inl (ignored_explicit_argument a)
            | Some a' =>
                match new_explicit_arg with
                | EmptyString => inr (action_tuples, no_explicit a')
                | _ => explicit_chain a' (Ascii.eqb c "-") new_explicit_arg action_tuples
                end
            end
      end
  | _ => inr ((action_tuples ++ [(a, [explicit_arg])])%list, explicit_used)
  end.

Definition is_long (option_string : string) : bool :=
  match option_string with
  | String _ (String "-" _) => true
  | _ => false
  end.

Definition is_O (p : string * cls) : bool :=
  match snd p with
  | O _ _ _ => true
  | A => false
  end.

(** [start_index <= max_option_string_index] *)
Definition has_option (l : list (string * cls)) : bool := existsb is_O l.

(** [arg_strings[start_index:]] *)
Definition strings_of (l : list (string * cls)) (after : option (list string)) : list string :=
  (map fst l ++ match after with
                | None => []
                | Some post => "--" :: post
                end)%list.

(** One character of [arg_strings_pattern]. *)
Inductive pchar : Type := pA | pO | pDash.

(** [arg_strings_pattern[start_index:]] *)
Definition pattern_of (l : list (string * cls)) (after : option (list string)) : list pchar :=
  (map (fun p => if is_O p then pO else pA) l
   ++ match after with
      | None => []
      | Some post => pDash :: map (fun _ => pA) post
      end)%list.

Fixpoint count_dashes (p : list pchar) : nat :=
  match p with
  | pDash :: p' => S (count_dashes p')
  | _ => 0
  end.

(** [re.match(nargs_pattern, pattern)] for a positional with [nargs=None],
    whose pattern is any dashes, one ['A'], any dashes: the length of the
    match. *)
Definition match_positional (p : list pchar) : option nat :=
  let d1 := count_dashes p in
  match skipn d1 p with
  | pA :: p' => Some (d1 + 1 + count_dashes p')
  | _ => None
  end.

Definition add_extras (strings : list string) (st : pstate) : pstate :=
  {| namespace := namespace st;
     seen_actions := seen_actions st;
     seen_non_default_actions := seen_non_default_actions st;
     positionals := positionals st;
     extras := (extras st ++ strings)%list |}.

Definition set_positionals (ps : list action) (st : pstate) : pstate :=
  {| namespace := namespace st;
     seen_actions := seen_actions st;
     seen_non_default_actions := seen_non_default_actions st;
     positionals := ps;
     extras := extras st |}.

(** The last [consume_positionals], after the last option, and the
    extension of [extras] by what it leaves. *)
Definition consume_rest (l : list (string * cls)) (after : option (list string))
    (st : pstate) : exit + pstate :=
  let strings := strings_of l after in
  match positionals st with
  | [] => inr (add_extras strings st)
  | p :: ps =>
      match match_positional (pattern_of l after) with
      | None => inr (add_extras strings st)
      | Some arg_count =>
          match take_action p (firstn arg_count strings) st with
          | inl e => inl e
          | inr st' => inr (add_extras (skipn arg_count strings) (set_positionals ps st'))
          end
      end
  end.

(** The [while start_index <= max_option_string_index] loop, one argument
    string (or one option with its argument) at a time; [l] is what is
    left of the strings before [--].  While an option is still ahead, the
    pattern after an ['A'] goes on with ['A'] or ['O'], so that a pending
    positional matches that one string, and with no positional pending the
    strings up to the next option go to [extras]. *)
Fixpoint parse_loop (l : list (string * cls)) (after : option (list string))
    (st : pstate) {struct l} : exit + pstate :=
  if negb (has_option l) then consume_rest l after st
  else
    match l with
    | [] => consume_rest l after st
    | (arg_string, A) :: rest =>
        match positionals st with
        | p :: ps =>
            match take_action p [arg_string] st with
            | inl e => inl e
            | inr st' => parse_loop rest after (set_positionals ps st')
            end
        | [] => parse_loop rest after (add_extras [arg_string] st)
        end
    | (arg_string, O None _ _) :: rest =>
        parse_loop rest after (add_extras [arg_string] st)
    | (arg_string, O (Some a) option_string explicit_arg) :: rest =>
        let chain :=
          match explicit_arg with
          | Some e => explicit_chain a (is_long option_string) e []
          | None => inr ([], no_explicit a)
          end in
        match chain with
        | inl e => inl (exit_error e)
        | inr (action_tuples, explicit_used) =>
            match take_actions action_tuples st with
            | inl e => inl e
            | inr st' => parse_loop rest after st'
            end
        | inr (action_tuples, no_explicit a') =>
            match nargs a' with
            | 0 =>
                match take_actions (action_tuples ++ [(a', [])])%list st with
                | inl e => inl e
                | inr st' => parse_loop rest after st'
                end
            | _ =>
                match rest with
                | (arg, A) :: rest' =>
                    match take_actions (action_tuples ++ [(a', [arg])])%list st with
                    | inl e => inl e
                    | inr st' => parse_loop rest' after st'
                    end
                | _ => inl (exit_error (expected_one_argument a'))
                end
            end
        end
    end.

(** [parser.parse_known_args()] on [sys.argv[1:]]. *)
Definition parse_known_args (arg_strings : list string)
    : exit + (Namespace * list string) :=
  match classify arg_strings with
  | inl e => inl (exit_error e)
  | inr p =>
      match parse_loop (before p) (after p) initial with
      | inl e => inl e
      | inr st =>
          if existsb (action_eqb Act_runner_script) (seen_actions st)
          then inr (namespace st, extras st)
          else inl (exit_error (arguments_required Act_runner_script))
      end
  end.

(** *** The script *)

(** [random.randint(a, b)], which is [a + _randbelow(b - a + 1)]; the
    state of the generator is seen through the number [draw] it yields,
    reduced to the range as [_randbelow] guarantees. *)
Definition randbelow (n : Z) (draw : Z) : Z := (draw mod n)%Z.
Definition randint (a b : Z) (draw : Z) : Z := (a + randbelow (b - a + 1) draw)%Z.

Definition value_eqb_str (v : value) (s : string) : bool :=
  match v with
  | VStr s' => String.eqb s' s
  | VList _ => false
  end.

(** The [if args.gputype: ... elif ...] chain. *)
Definition gpu_flag_of (args : Namespace) : string :=
  if truthy (gputype args) then "--gputype " ++ str_opt (gputype args)
  else if _2080 args then "--gputype rtx_2080"
  else if _3090 args then "--gputype rtx_3090"
  else if a100 args then "--gputype A100"
  else if _80g args then "--gputype A100 --exclude_40G_A100"
  else "".

(** [args.name] after the replacement of the default name. *)
Definition job_name (args : Namespace) (draw : Z) : value :=
  if value_eqb_str (name args) "jsae[UNIQUE-ID]"
  then VStr ("jsae" ++ str_of_Z (randint 1000 9999 draw))
  else name args.

Definition output_args (args : Namespace) (remaining_args : list string) (draw : Z)
    : list string :=
  app [ gpu_flag_of args;
        "-n " ++ str (job_name args draw);
        "-q " ++ str (queue args);
        "--cmd python " ++ str_opt (runner_script args) ]
      remaining_args.

(** What a run of the script does: it prints one line, or argparse exits. *)
Inductive outcome : Type :=
| printed (line : string)
| exited (e : exit).

Definition extract_args (argv : list string) (draw : Z) : outcome :=
  match parse_known_args argv with
  | inl e => exited e
  | inr (args, remaining_args) =>
      printed (String.concat " " (output_args args remaining_args draw))
  end.

(** The invocation of the header comment. *)
Definition example_argv : list string :=
  ["./runners/autointerp.py"; "--3090"; "-n"; "my_name"; "-j"; "10"].

(** *** Notions the statements about the script use *)

(** [l1] keeps some of the elements of [l2], in their order. *)
Inductive subseq {X : Type} : list X -> list X -> Prop :=
| subseq_nil : subseq [] []
| subseq_skip (x : X) (l1 l2 : list X) : subseq l1 l2 -> subseq l1 (x :: l2)
| subseq_keep (x : X) (l1 l2 : list X) : subseq l1 l2 -> subseq (x :: l1) (x :: l2).

(** The actions of the options the parser recognises on the command line:
    the strings before [--] that are an option string of the parser, an
    abbreviation of one, or one with an attached argument. *)
Fixpoint recognized (arg_strings : list string) : list action :=
  match arg_strings with
  | [] => []
  | arg_string :: rest =>
      if String.eqb arg_string "--" then []
      else
        match parse_optional arg_string with
        | optional (Some a) _ _ => a :: recognized rest
        | _ => recognized rest
        end
  end.

(** The GPU options among them. *)
Definition gpu_options (arg_strings : list string) : list action :=
  filter in_group (recognized arg_strings).

(** The actions of the options of a pattern. *)
Definition actions_of (l : list (string * cls)) : list action :=
  flat_map (fun p => match snd p with
                     | O (Some a) _ _ => [a]
                     | _ => []
                     end) l.

(** The option tuples of a pattern name option strings of the parser. *)
Definition consistent (l : list (string * cls)) : Prop :=
  forall s a option_string explicit_arg,
    In (s, O (Some a) option_string explicit_arg) l ->
    lookup option_string option_string_actions = Some a.

(** *** The loop as a list of steps

    [parse_loop] goes through the strings before [--] and does one of four
    things at each: it hands a string to [consume_positionals], puts an
    unknown option among the extras, takes the actions of an option, or
    stops with an error.  [plan] lists these steps, and what is left for
    the last [consume_positionals]; [exec_steps] runs them. *)
Inductive step : Type :=
| SArg (arg_string : string)
| SExtra (arg_string : string)
| SOpts (action_tuples : list (action * list string))
| SFail (e : error).

Fixpoint plan (l : list (string * cls)) {struct l} : list step * list (string * cls) :=
  if negb (has_option l) then ([], l)
  else
    match l with
    | [] => ([], [])
    | (arg_string, A) :: rest => (SArg arg_string :: fst (plan rest), snd (plan rest))
    | (arg_string, O None _ _) :: rest =>
        (SExtra arg_string :: fst (plan rest), snd (plan rest))
    | (arg_string, O (Some a) option_string explicit_arg) :: rest =>
        let chain :=
          match explicit_arg with
          | Some e => explicit_chain a (is_long option_string) e []
          | None => inr ([], no_explicit a)
          end in
        match chain with
        | inl e => ([SFail e], [])
        | inr (action_tuples, explicit_used) =>
            (SOpts action_tuples :: fst (plan rest), snd (plan rest))
        | inr (action_tuples, no_explicit a') =>
            match nargs a' with
            | 0 => (SOpts (action_tuples ++ [(a', [])])%list :: fst (plan rest),
                    snd (plan rest))
            | _ =>
                match rest with
                | (arg, A) :: rest' =>
                    (SOpts (action_tuples ++ [(a', [arg])])%list :: fst (plan rest'),
                     snd (plan rest'))
                | _ => ([SFail (expected_one_argument a')], [])
                end
            end
        end
    end.

Definition exec_step (s : step) (st : pstate) : exit + pstate :=
  match s with
  | SArg arg_string =>
      match positionals st with
      | p :: ps =>
          match take_action p [arg_string] st with
          | inl e => inl e
          | inr st' => inr (set_positionals ps st')
          end
      | [] => inr (add_extras [arg_string] st)
      end
  | SExtra arg_string => inr (add_extras [arg_string] st)
  | SOpts action_tuples => take_actions action_tuples st
  | SFail e => inl (exit_error e)
  end.

Fixpoint exec_steps (steps : list step) (st : pstate) : exit + pstate :=
  match steps with
  | [] => inr st
  | s :: steps' =>
      match exec_step s st with
      | inl e => inl e
      | inr st' => exec_steps steps' st'
      end
  end.

(** The steps of a pattern, then the last [consume_positionals]. *)
Definition then_rest (r : exit + pstate) (l : list (string * cls))
    (after : option (list string)) : exit + pstate :=
  match r with
  | inl e => inl e
  | inr st => consume_rest l after st
  end.

(** The strings of a step that can end among the extras. *)
Definition step_strings (s : step) : list string :=
  match s with
  | SArg arg_string | SExtra arg_string => [arg_string]
  | _ => []
  end.

(** The actions a step takes. *)
Definition step_actions (s : step) : list action :=
  match s with
  | SOpts action_tuples => map fst action_tuples
  | _ => []
  end.

(** How the fields of the namespace follow the actions seen: a store
    action leaves a value, a [store_true] action leaves [True]. *)
Definition seen (a : action) (st : pstate) : Prop :=
  In a (seen_non_default_actions st).

Definition fields_follow_seen (st : pstate) : Prop :=
  (gputype (namespace st) <> None <-> seen Act_gputype st)
  /\ (_2080 (namespace st) = true <-> seen Act_2080 st)
  /\ (_3090 (namespace st) = true <-> seen Act_3090 st)
  /\ (a100 (namespace st) = true <-> seen Act_a100 st)
  /\ (_80g (namespace st) = true <-> seen Act_80g st)
  /\ (~ seen Act_name st -> name (namespace st) = VStr default_name)
  /\ (~ seen Act_queue st -> queue (namespace st) = VStr "cnu")
  /\ (forall a, In a (seen_actions st) <-> seen a st).

(** The runner script, once seen, is one of the strings of the command line. *)
Definition runner_in (arg_strings : list string) (st : pstate) : Prop :=
  seen Act_runner_script st ->
  exists r, runner_script (namespace st) = Some (VStr r) /\ In r arg_strings.

(** The only positional is the runner script. *)
Definition positionals_ok (st : pstate) : Prop :=
  forall p, In p (positionals st) -> p = Act_runner_script.

(** The action tuples [plan] gives for an option of a consistent pattern:
    the action of the option alone, or a list that starts with the help
    action. *)
Definition shape (acts : list action) (action_tuples : list (action * list string)) : Prop :=
  (exists a args, action_tuples = [(a, args)] /\ In a acts)
  \/ (exists tl, action_tuples = (Act_help, []) :: tl /\ In Act_help acts).

Definition is_conflict (e : error) : bool :=
  match e with
  | not_allowed_with _ _ => true
  | _ => false
  end.

Definition step_shape (acts : list action) (s : step) : Prop :=
  match s with
  | SOpts action_tuples => shape acts action_tuples
  | SFail e => is_conflict e = false
  | _ => True
  end.

Definition is_fail (s : step) : bool :=
  match s with
  | SFail _ => true
  | _ => false
  end.

Definition no_fail (steps : list step) : Prop :=
  forallb (fun s => negb (is_fail s)) steps = true.

(** At most one option of the group has been seen. *)
Definition one_gpu_option (st : pstate) : Prop :=
  forall a b, seen a st -> seen b st -> in_group a = true -> in_group b = true -> a = b.


(** What holds of the state all along a run of the parser on the command
    line [arg_strings]. *)
Definition Inv (arg_strings : list string) (st : pstate) : Prop :=
  fields_follow_seen st /\ one_gpu_option st /\ runner_in arg_strings st
  /\ positionals_ok st.

(** How a run of the steps stops: at the help action of an option of the
    pattern, or with an error; and the error of a conflict names two
    different options of the group, one of the pattern and one seen before
    or also of the pattern. *)
Definition stop_ok (acts : list action) (st : pstate) (e : exit) : Prop :=
  (e = exit_help /\ In Act_help acts)
  \/ (exists err, e = exit_error err
         /\ forall a c, err = not_allowed_with a c ->
              in_group a = true /\ in_group c = true /\ a <> c
              /\ In a acts /\ (seen c st \/ In c acts)).

(** *** What a command line supplies, read off the command line itself

    The definitions below go through the argument strings once, from left
    to right, and use of the parser only how it reads one string
    ([parse_optional]): as an option of the helper, perhaps with a value
    attached, as an unknown option, or as a plain argument. *)


(** The values the command line supplies for the option with the action
    [a], an option that takes a value: the value attached to the option
    string, or the argument that follows it; only the strings before the
    first [--] count. *)
Fixpoint supplied (a : action) (arg_strings : list string) : list string :=
  match arg_strings with
  | [] => []
  | s :: rest =>
      if String.eqb s "--" then []
      else
        match parse_optional s with
        | optional (Some b) _ explicit_arg =>
            if action_eqb a b then
              match explicit_arg, rest with
              | Some e, _ => e :: supplied a rest
              | None, v :: _ => v :: supplied a rest
              | None, [] => supplied a rest
              end
            else supplied a rest
        | _ => supplied a rest
        end
  end.

(** The last of them, if there is one. *)
Definition last_supplied (a : action) (arg_strings : list string) : option string :=
  fold_left (fun _ v => Some v) (supplied a arg_strings) None.







(** The field of the namespace an action that takes a value stores. *)
Definition stored (a : action) (ns : Namespace) : option value :=
  match a with
  | Act_gputype => gputype ns
  | Act_name => Some (name ns)
  | Act_queue => Some (queue ns)
  | _ => None
  end.



End ExtractArgs.

(* ================================================================== *)
(** ** The sync script (zsh) *)
(* ================================================================== *)

Module SyncScript.
#[local] Open Scope string_scope.

(** An [rsync] command line: its flags, its [--exclude] patterns, the
    source paths and the destination. *)
Record rsync_command : Type := {
  flags : list string;
  exclude : list string;
  sources : list string;
  destination : string
}.

(** What the script does that is visible from outside. *)
Inductive event : Type :=
| Echo (text : string)
| Read
| Rsync (c : rsync_command).

Record run : Type := {
  events : list event;
  status : nat
}.

Definition prompt : string :=
  "Running this will \e[31moverwrite\e[0m the code that is currently on BluePebble. Are you sure you want to continue? ([y]/n) ".

(** The script: [response] is the line [read] stores, [parent_dir] the
    value of [$PARENT_DIR] (the directory above the script's own), and
    [rsync_status] the exit status of [rsync], which is the last command. *)
Definition sync (response parent_dir : string) (rsync_status : nat) : run :=
  if negb (String.eqb response "y") && negb (String.eqb response "")
  then {| events := [Echo prompt; Read]; status := 1 |}
  else
    {| events :=
         [ Echo prompt; Read;
           Rsync {| flags := ["-av"];
                    exclude := ["*.pyc"; ".DS_Store"];
                    sources := [ parent_dir ++ "/hpc_utils";
                                 parent_dir ++ "/jacobian_saes";
                                 parent_dir ++ "/runners" ];
                    destination := "bp:~/work/jacobian_saes" |} ];
       status := rsync_status |}.

Definition is_rsync (e : event) : bool :=
  match e with
  | Rsync _ => true
  | _ => false
  end.

(** The [rsync] commands of a run, the only events that write to the
    remote host. *)
Definition rsyncs (r : run) : list rsync_command :=
  flat_map (fun e => match e with Rsync c => [c] | _ => [] end) (events r).

End SyncScript.

(* ================================================================== *)
(** ** The artifact download script *)
(* ================================================================== *)

Module DownloadArtifacts.
#[local] Open Scope string_scope.

(** An artifact stored in the project; [download_raises] says whether
    [artifact.download()] raises for it. *)
Record Artifact : Type := {
  artifact_name : string;
  download_raises : bool
}.

(** A collection, as [coll.artifacts(per_page=500)] iterates it (the
    paginator yields every artifact, page after page). *)
Definition Collection : Type := list Artifact.

(** A project of the service: its artifact types, each with the
    collections [collections(per_page=500)] iterates. *)
Definition Project : Type := list (string * list Collection).

Inductive exn : Type :=
| artifact_type_not_found (type_name : string)
| download_error (a : Artifact).

(** The state a run changes: the calls of [download] made, the artifacts
    now in local storage, and the lines printed. *)
Record state : Type := {
  attempted : list Artifact;
  downloaded : list Artifact;
  stdout : list string
}.

Definition empty : state := {| attempted := []; downloaded := []; stdout := [] |}.

(** Computations that change the state and may raise. *)
Definition M (A : Type) : Type := state -> state * (exn + A).

Definition ret {A : Type} (a : A) : M A := fun s => (s, inr a).

Definition raise {A : Type} (e : exn) : M A := fun s => (s, inl e).

Definition bind {A B : Type} (m : M A) (f : A -> M B) : M B :=
  fun s =>
    match m s with
    | (s', inl e) => (s', inl e)
    | (s', inr a) => f a s'
    end.

Notation "x <- m ;; f" := (bind m (fun x => f))
  (at level 61, m at next level, right associativity).
Notation "m ;;; f" := (bind m (fun _ => f))
  (at level 61, right associativity).

(** [for x in l: body(x)] *)
Fixpoint for_each {A : Type} (l : list A) (body : A -> M unit) : M unit :=
  match l with
  | [] => ret tt
  | x :: l' => body x ;;; for_each l' body
  end.

(** [artifact.download()] *)
Definition download (a : Artifact) : M unit :=
  fun s =>
    let s' := {| attempted := attempted s ++ [a];
                 downloaded := downloaded s;
                 stdout := stdout s |}%list in
    if download_raises a then (s', inl (download_error a))
    else ({| attempted := attempted s';
             downloaded := downloaded s' ++ [a];
             stdout := stdout s' |}%list, inr tt).

(** [print(line)] *)
Definition print (line : string) : M unit :=
  fun s => ({| attempted := attempted s;
               downloaded := downloaded s;
               stdout := stdout s ++ [line] |}%list, inr tt).

Fixpoint lookup_type (type_name : string) (p : Project) : option (list Collection) :=
  match p with
  | [] => None
  | (t, colls) :: p' => if String.eqb type_name t then Some colls else lookup_type type_name p'
  end.

(** [api.artifact_type(type_name=type_name, project=path).collections(per_page=500)];
    the service answers a type the project does not have with an error. *)
Definition collections (p : Project) (type_name : string) : M (list Collection) :=
  match lookup_type type_name p with
  | Some colls => ret colls
  | None => raise (artifact_type_not_found type_name)
  end.

Definition type_names : list string := ["model"; "log_feature_sparsity"; "wandb-history"].

(** The loop over the types, for any list of types. *)
Definition loop (p : Project) (ts : list string) : M unit :=
  for_each ts (fun type_name =>
    colls <- collections p type_name ;;
    for_each colls (fun coll =>
      for_each coll (fun artifact => download artifact))).

(** The script, on the project [--path] names. *)
Definition main (p : Project) : M unit :=
  loop p type_names ;;;
  print "Downloaded all artifacts".

(** Every artifact stored in the project, whatever its type. *)
Definition stored (p : Project) : list Artifact :=
  flat_map (fun t => concat (snd t)) p.

(** The artifacts of the types [ts], in the order of the loops. *)
Definition order (p : Project) (ts : list string) : list Artifact :=
  flat_map (fun type_name =>
    match lookup_type type_name p with
    | Some colls => concat colls
    | None => []
    end) ts.

(** The artifacts of the types the script names, in the order of its loops. *)
Definition iteration_order (p : Project) : list Artifact := order p type_names.

Definition ok (a : Artifact) : Prop := download_raises a = false.

(** What is known after a run of downloads that started in [s] and went
    through (part of) the list [l]. *)
Definition result_of (l : list Artifact) (s : state) (r : state * (exn + unit)) : Prop :=
  stdout (fst r) = stdout s /\
  match snd r with
  | inr _ =>
      attempted (fst r) = (attempted s ++ l)%list
      /\ downloaded (fst r) = (downloaded s ++ l)%list
      /\ Forall ok l
  | inl (download_error a) =>
      exists pre post,
        l = (pre ++ a :: post)%list
        /\ attempted (fst r) = (attempted s ++ pre ++ [a])%list
        /\ downloaded (fst r) = (downloaded s ++ pre)%list
        /\ Forall ok pre
        /\ download_raises a = true
  | inl (artifact_type_not_found _) => False
  end.

(** A run of the loop over the types either goes through every artifact
    of these types, or stops at the first download that raises, or stops
    at a type the project does not have. *)
Definition loop_result (p : Project) (ts : list string) (s : state)
    (r : state * (exn + unit)) : Prop :=
  match snd r with
  | inl (artifact_type_not_found t) => In t ts /\ lookup_type t p = None
  | _ => result_of (order p ts) s r
  end.


(** A project with an artifact of a fourth type. *)
Definition sae_v0 : Artifact := {| artifact_name := "sae:v0"; download_raises := false |}.
Definition sparsity_v0 : Artifact := {| artifact_name := "sparsity:v0"; download_raises := false |}.
Definition history_v0 : Artifact := {| artifact_name := "run-history:v0"; download_raises := false |}.
Definition tokens_v0 : Artifact := {| artifact_name := "tokens:v0"; download_raises := false |}.

Definition project_with_dataset : Project :=
  [ ("model", [[sae_v0]]);
    ("log_feature_sparsity", [[sparsity_v0]]);
    ("wandb-history", [[history_v0]]);
    ("dataset", [[tokens_v0]]) ].

(** A project whose second artifact fails to download. *)
Definition broken_v1 : Artifact := {| artifact_name := "sae:v1"; download_raises := true |}.

Definition project_with_failure : Project :=
  [ ("model", [[sae_v0; broken_v1]; [sae_v0]]);
    ("log_feature_sparsity", [[sparsity_v0]]);
    ("wandb-history", [[history_v0]]) ].

(** A project that has no artifact of the type [wandb-history]. *)
Definition project_without_history : Project :=
  [ ("model", [[sae_v0]]);
    ("log_feature_sparsity", [[sparsity_v0]]) ].

End DownloadArtifacts.

(* ================================================================== *)
(** ** Linear algebra on lists *)
(* ================================================================== *)

Module TensorProofs.
Import Tensor ToyModel.

Section Algebra.
Context {T : Type} {ST : Scalar T}.
Hypothesis Tring : ring_theory zero one add mul sub opp (@eq T).
Add Ring Tr : Tring.

#[local] Open Scope scalar_scope.

(** *** Sums *)

Lemma sum_nil : sum [] = 0.
Proof. reflexivity. Qed.

Lemma sum_cons (a : T) (l : list T) : sum (a :: l) = a + sum l.
Proof. reflexivity. Qed.

Lemma sum_map_ext {X : Type} (f g : X -> T) (l : list X) :
  (forall x, In x l -> f x = g x) -> sum (map f l) = sum (map g l).
Proof.
  induction l as [| x l IH]; intros H; cbn [map]; [reflexivity |].
  rewrite !sum_cons. rewrite H by now left. rewrite IH; [reflexivity |].
  intros y Hy. apply H. now right.
Qed.

Lemma sum_map_add {X : Type} (f g : X -> T) (l : list X) :
  sum (map (fun x => f x + g x) l) = sum (map f l) + sum (map g l).
Proof.
  induction l as [| x l IH]; cbn [map]; rewrite ?sum_cons, ?sum_nil; [ring |].
  rewrite IH. ring.
Qed.

Lemma sum_map_scale {X : Type} (c : T) (f : X -> T) (l : list X) :
  sum (map (fun x => c * f x) l) = c * sum (map f l).
Proof.
  induction l as [| x l IH]; cbn [map]; rewrite ?sum_cons, ?sum_nil; [ring |].
  rewrite IH. ring.
Qed.

Lemma sum_map_zero {X : Type} (l : list X) : sum (map (fun _ => 0) l) = 0.
Proof.
  induction l as [| x l IH]; cbn [map]; rewrite ?sum_cons, ?sum_nil; [reflexivity |].
  rewrite IH. ring.
Qed.

Lemma sum_map_exchange {X Y : Type} (f : X -> Y -> T) (l : list X) (m : list Y) :
  sum (map (fun x => sum (map (fun y => f x y) m)) l)
  = sum (map (fun y => sum (map (fun x => f x y) l)) m).
Proof.
  induction l as [| x l IH]; cbn [map].
  - now rewrite sum_nil, sum_map_zero.
  - rewrite sum_cons, IH, <- sum_map_add. apply sum_map_ext.
    intros y _. now rewrite sum_cons.
Qed.

Lemma bigsum_ext (n : nat) (f g : nat -> T) :
  (forall i, i < n -> f i = g i) -> bigsum n f = bigsum n g.
Proof.
  intros H. apply sum_map_ext. intros i Hi. apply in_seq in Hi. apply H. lia.
Qed.

Lemma bigsum_add (n : nat) (f g : nat -> T) :
  bigsum n (fun i => f i + g i) = bigsum n f + bigsum n g.
Proof. apply sum_map_add. Qed.

Lemma bigsum_scale (n : nat) (c : T) (f : nat -> T) :
  bigsum n (fun i => c * f i) = c * bigsum n f.
Proof. apply sum_map_scale. Qed.

Lemma bigsum_exchange (n m : nat) (f : nat -> nat -> T) :
  bigsum n (fun i => bigsum m (fun j => f i j))
  = bigsum m (fun j => bigsum n (fun i => f i j)).
Proof. apply sum_map_exchange. Qed.

Lemma bigsum_first (n : nat) (f : nat -> T) :
  bigsum (S n) f = f O + bigsum n (fun i => f (S i)).
Proof.
  unfold bigsum. cbn [seq map]. rewrite sum_cons, <- seq_shift, map_map. reflexivity.
Qed.

Lemma bigsum_zero (n : nat) : bigsum n (fun _ => 0) = 0.
Proof. apply sum_map_zero. Qed.

(** The sum of a function that vanishes off [i0]. *)
Lemma bigsum_delta (n i0 : nat) (c : T) :
  i0 < n -> bigsum n (fun i => if Nat.eqb i i0 then c else 0) = c.
Proof.
  revert i0. induction n as [| n IH]; intros i0 H; [lia |].
  rewrite bigsum_first. destruct i0 as [| i0].
  - cbn [Nat.eqb]. rewrite bigsum_zero. ring.
  - cbn [Nat.eqb]. rewrite IH by lia. ring.
Qed.

(** *** Dot products and [linear] *)

Lemma dot_cons (a b : T) (x y : list T) : dot (a :: x) (b :: y) = a * b + dot x y.
Proof. reflexivity. Qed.

Lemma dot_bigsum (x y : list T) :
  dot x y = bigsum (length x) (fun s => nth s x 0 * nth s y 0).
Proof.
  revert y. induction x as [| a x IH]; intros y; [reflexivity |].
  cbn [length]. rewrite bigsum_first. destruct y as [| b y].
  - change (dot (a :: x) []) with 0.
    rewrite (@bigsum_ext _ _ (fun _ => 0)).
    + rewrite bigsum_zero. cbn [nth]. ring.
    + intros i _. destruct i; cbn [nth]; ring.
  - rewrite dot_cons, IH. reflexivity.
Qed.

Lemma dot_bigsum_n (n : nat) (x y : list T) :
  length x = n -> dot x y = bigsum n (fun s => nth s x 0 * nth s y 0).
Proof. intros <-. apply dot_bigsum. Qed.

Lemma zipWith_length {X Y Z : Type} (f : X -> Y -> Z) (x : list X) (y : list Y) :
  length (zipWith f x y) = Nat.min (length x) (length y).
Proof. unfold zipWith. now rewrite length_map, length_combine. Qed.

Lemma nth_zipWith {X Y Z : Type} (f : X -> Y -> Z) (x : list X) (y : list Y)
    (j : nat) (dx : X) (dy : Y) (dz : Z) :
  j < length x -> j < length y ->
  nth j (zipWith f x y) dz = f (nth j x dx) (nth j y dy).
Proof.
  revert y j. induction x as [| a x IH]; intros y j Hx Hy; [cbn in Hx; lia |].
  destruct y as [| b y]; [cbn in Hy; lia |].
  destruct j as [| j]; [reflexivity |].
  cbn in Hx, Hy.
  change (nth j (zipWith f x y) dz = f (nth j x dx) (nth j y dy)).
  apply IH; lia.
Qed.

Lemma nth_map_seq {X : Type} (f : nat -> X) (n j : nat) (d : X) :
  j < n -> nth j (map f (seq O n)) d = f j.
Proof.
  intros H. rewrite (nth_indep _ d (f O)) by (rewrite length_map, length_seq; lia).
  rewrite (map_nth f (seq O n) O j). now rewrite seq_nth.
Qed.

Lemma linear_length (x : list T) (W : list (list T)) (b : list T) :
  length b = length W -> length (linear x W b) = length W.
Proof.
  intros H. unfold linear, vadd. rewrite zipWith_length, length_map. lia.
Qed.

Lemma nth_linear (x : list T) (W : list (list T)) (b : list T) (j : nat) :
  length b = length W -> j < length W ->
  nth j (linear x W b) 0 = dot x (nth j W []) + nth j b 0.
Proof.
  intros Hb Hj. unfold linear, vadd.
  rewrite (nth_zipWith add _ _ 0 0 0) by (rewrite ?length_map; lia).
  f_equal.
  rewrite (nth_indep _ 0 (dot x [])) by (rewrite length_map; lia).
  apply (map_nth (fun row => dot x row)).
Qed.

(** *** Columns, transposes and products *)

Lemma nth_col (i s : nat) (M : list (list T)) :
  nth s (col i M) 0 = nth i (nth s M []) 0.
Proof.
  unfold col. destruct (Nat.lt_ge_cases s (length M)) as [Hs | Hs].
  - rewrite (nth_indep _ 0 ((fun row : list T => nth i row 0) []))
      by (now rewrite length_map).
    apply (map_nth (fun row : list T => nth i row 0)).
  - rewrite (nth_overflow (map _ M)) by (now rewrite length_map).
    rewrite (nth_overflow M) by exact Hs. destruct i; reflexivity.
Qed.

Lemma col_length (i : nat) (M : list (list T)) : length (col i M) = length M.
Proof. apply length_map. Qed.

Lemma cols_shape (M : list (list T)) (r c : nat) :
  has_shape M r c -> (0 < r)%nat -> cols M = c.
Proof.
  intros [Hr Hc] Hpos. destruct M as [| row M]; [cbn in Hr; lia |].
  cbn. now inversion Hc.
Qed.

Lemma transpose_length (M : list (list T)) (r c : nat) :
  has_shape M r c -> (0 < r)%nat -> length (transpose M) = c.
Proof.
  intros H Hpos. unfold transpose. rewrite length_map, length_seq.
  eapply cols_shape; eauto.
Qed.

Lemma nth_transpose (M : list (list T)) (r c i : nat) :
  has_shape M r c -> (0 < r)%nat -> (i < c)%nat ->
  nth i (transpose M) [] = col i M.
Proof.
  intros H Hpos Hi. unfold transpose. rewrite (cols_shape H Hpos).
  exact (@nth_map_seq _ (fun j => col j M) c i [] Hi).
Qed.

Lemma transpose_shape (M : list (list T)) (r c : nat) :
  has_shape M r c -> (0 < r)%nat -> has_shape (transpose M) c r.
Proof.
  intros H Hpos. split; [eapply transpose_length; eauto |].
  unfold transpose. apply Forall_forall. intros row Hrow.
  apply in_map_iff in Hrow. destruct Hrow as (j & <- & _).
  rewrite col_length. exact (proj1 H).
Qed.

(** The entries of [A.T @ B.T], the shape of [wd1] and [w2e]. *)
Lemma matmul_transposes (A B : list (list T)) (p q r i m : nat) :
  has_shape A p q -> has_shape B r p ->
  (0 < p)%nat -> (0 < r)%nat -> (i < q)%nat -> (m < r)%nat ->
  nth m (nth i (matmul (transpose A) (transpose B)) []) 0
  = bigsum p (fun s => nth i (nth s A []) 0 * nth s (nth m B []) 0).
Proof.
  intros HA HB Hp Hr Hi Hm. unfold matmul.
  pose proof (transpose_shape HB Hr) as HBt.
  assert (Hrow : nth i (map (fun row => map (fun c => dot row c) (transpose (transpose B)))
                          (transpose A)) []
                 = map (fun c => dot (col i A) c) (transpose (transpose B))).
  { rewrite (nth_indep _ [] ((fun row => map (fun c => dot row c)
                                           (transpose (transpose B))) []))
      by (rewrite length_map, (transpose_length HA Hp); exact Hi).
    rewrite (map_nth (fun row => map (fun c => dot row c) (transpose (transpose B)))).
    now rewrite (nth_transpose HA Hp Hi). }
  rewrite Hrow.
  rewrite (nth_indep _ 0 ((fun c => dot (col i A) c) []))
    by (rewrite length_map, (transpose_length HBt Hp); exact Hm).
  rewrite (map_nth (fun c => dot (col i A) c)).
  rewrite (nth_transpose HBt Hp Hm).
  rewrite (@dot_bigsum_n p) by (rewrite col_length; exact (proj1 HA)).
  apply bigsum_ext. intros s Hs.
  rewrite !nth_col. rewrite (nth_transpose HB Hr Hs), nth_col. reflexivity.
Qed.

(** *** Updates and [scatter] *)

Lemma set_nth_length {X : Type} (i : nat) (v : X) (l : list X) :
  length (set_nth i v l) = length l.
Proof.
  revert i. induction l as [| x l IH]; intros i; [destruct i; reflexivity |].
  destruct i; cbn; [reflexivity | now rewrite IH].
Qed.

Lemma nth_set_nth_eq {X : Type} (i : nat) (v d : X) (l : list X) :
  (i < length l)%nat -> nth i (set_nth i v l) d = v.
Proof.
  revert i. induction l as [| x l IH]; intros i H; [cbn in H; lia |].
  destruct i; cbn; [reflexivity |]. apply IH. cbn in H. lia.
Qed.

Lemma nth_set_nth_neq {X : Type} (i j : nat) (v d : X) (l : list X) :
  i <> j -> nth j (set_nth i v l) d = nth j l d.
Proof.
  revert i j. induction l as [| x l IH]; intros i j H; [destruct i; reflexivity |].
  destruct i, j; cbn; try reflexivity; try lia. apply IH. lia.
Qed.

Lemma scatter_cons (x : list T) (i : nat) (idx : list nat) (v : T) (z : list T) :
  scatter x (i :: idx) (v :: z) = scatter (set_nth i v x) idx z.
Proof. reflexivity. Qed.

Lemma scatter_length (idx : list nat) :
  forall (x z : list T), length (scatter x idx z) = length x.
Proof.
  induction idx as [| i idx IH]; intros x z; [reflexivity |].
  destruct z as [| v z]; [reflexivity |].
  rewrite scatter_cons, IH. apply set_nth_length.
Qed.

Lemma scatter_other (idx : list nat) :
  forall (x z : list T) (j : nat),
    ~ In j idx -> nth j (scatter x idx z) 0 = nth j x 0.
Proof.
  induction idx as [| i idx IH]; intros x z j H; [reflexivity |].
  destruct z as [| v z]; [reflexivity |].
  rewrite scatter_cons, IH by (intros Hin; apply H; now right).
  apply nth_set_nth_neq. intros ->. apply H. now left.
Qed.

Lemma scatter_at (idx : list nat) :
  forall (x z : list T) (c : nat),
    NoDup idx -> length z = length idx ->
    (forall i, In i idx -> (i < length x)%nat) ->
    (c < length idx)%nat ->
    nth (nth c idx O) (scatter x idx z) 0 = nth c z 0.
Proof.
  induction idx as [| i idx IH]; intros x z c Hnd Hlen Hin Hc; [cbn in Hc; lia |].
  destruct z as [| v z]; [discriminate |].
  inversion Hnd as [| i' idx' Hni Hnd']; subst.
  rewrite scatter_cons. destruct c as [| c]; cbn [nth].
  - rewrite scatter_other by exact Hni.
    apply nth_set_nth_eq. apply Hin. now left.
  - apply IH; auto.
    + intros j Hj. rewrite set_nth_length. apply Hin. now right.
    + cbn in Hc. lia.
Qed.

Lemma nth_perturb (z : list T) (a c : nat) (h : T) :
  (a < length z)%nat ->
  nth c (perturb z a h) 0 = nth c z 0 + (if Nat.eqb c a then h else 0).
Proof.
  intros Ha. unfold perturb. destruct (Nat.eqb_spec c a) as [-> | Hne].
  - now rewrite nth_set_nth_eq.
  - rewrite nth_set_nth_neq by auto. ring.
Qed.

Lemma perturb_length (z : list T) (a : nat) (h : T) :
  length (perturb z a h) = length z.
Proof. apply set_nth_length. Qed.

(** Scattering perturbed latents perturbs one entry of the result. *)
Lemma scatter_perturb (x z : list T) (idx : list nat) (a j : nat) (h : T) :
  NoDup idx -> length z = length idx ->
  (forall i, In i idx -> (i < length x)%nat) ->
  (a < length idx)%nat ->
  nth j (scatter x idx (perturb z a h)) 0
  = nth j (scatter x idx z) 0 + (if Nat.eqb j (nth a idx O) then h else 0).
Proof.
  intros Hnd Hlen Hin Ha.
  destruct (in_dec Nat.eq_dec j idx) as [Hj | Hj].
  - destruct (In_nth _ _ O Hj) as (c & Hc & <-).
    rewrite !scatter_at by (rewrite ?perturb_length; auto).
    rewrite nth_perturb by lia.
    destruct (Nat.eqb_spec c a) as [-> | Hne].
    + now rewrite Nat.eqb_refl.
    + destruct (Nat.eqb_spec (nth c idx O) (nth a idx O)) as [E | _]; [| reflexivity].
      exfalso. apply Hne. eapply NoDup_nth; eauto.
  - rewrite !scatter_other by exact Hj.
    destruct (Nat.eqb_spec j (nth a idx O)) as [-> | _]; [| ring].
    exfalso. apply Hj. now apply nth_In.
Qed.

Lemma nth_zeros (n j : nat) : nth j (zeros n) 0 = 0.
Proof.
  unfold zeros. revert j. induction n as [| n IH]; intros j; destruct j; cbn; auto.
Qed.

Lemma zeros_length (n : nat) : length (zeros n) = n.
Proof. apply repeat_length. Qed.

(** *** [topk] *)

Lemma insert_desc_perm (p : nat * T) (l : list (nat * T)) :
  Permutation (insert_desc p l) (p :: l).
Proof.
  induction l as [| q l IH]; cbn; [apply Permutation_refl |].
  destruct (ltb (snd q) (snd p)); [apply Permutation_refl |].
  eapply Permutation_trans; [apply perm_skip, IH | apply perm_swap].
Qed.

Lemma sort_desc_perm (l : list (nat * T)) : Permutation (sort_desc l) l.
Proof.
  unfold sort_desc.
  assert (H : forall acc, Permutation (fold_left (fun acc p => insert_desc p acc) l acc)
                            (l ++ acc)).
  { induction l as [| p l IH]; intros acc; cbn; [apply Permutation_refl |].
    eapply Permutation_trans; [apply IH |].
    eapply Permutation_trans; [apply Permutation_app_head, insert_desc_perm |].
    apply Permutation_sym, Permutation_middle. }
  rewrite <- (app_nil_r l) at 2. apply H.
Qed.

Lemma combine_seq_in (l : list T) :
  forall (a i : nat) (v : T),
    In (i, v) (combine (seq a (length l)) l) ->
    (a <= i < a + length l)%nat /\ v = nth (i - a) l 0.
Proof.
  induction l as [| x l IH]; intros a i v H; [destruct H |].
  cbn in H. destruct H as [[= <- <-] | H].
  - cbn [length]. rewrite Nat.sub_diag. split; [lia | reflexivity].
  - apply IH in H. destruct H as [H1 ->]. cbn [length]. split; [lia |].
    replace (i - a)%nat with (S (i - S a)) by lia. reflexivity.
Qed.

Lemma map_fst_combine_seq (l : list T) :
  forall a, map fst (combine (seq a (length l)) l) = seq a (length l).
Proof.
  induction l as [| x l IH]; intros a; [reflexivity |].
  cbn. now rewrite IH.
Qed.

(** [topk] returns [k] distinct positions of the vector, and the entries
    at these positions. *)
Lemma topk_spec (acts : list T) (k : nat) :
  (k <= length acts)%nat ->
  length (snd (topk acts k)) = k
  /\ NoDup (snd (topk acts k))
  /\ (forall i, In i (snd (topk acts k)) -> (i < length acts)%nat)
  /\ fst (topk acts k) = map (fun i => nth i acts 0) (snd (topk acts k)).
Proof.
  intros Hk. unfold topk. cbn [fst snd].
  set (pairs := combine (seq O (length acts)) acts).
  pose proof (sort_desc_perm pairs) as Hperm.
  assert (Hlen : length (sort_desc pairs) = length acts).
  { rewrite (Permutation_length Hperm). unfold pairs.
    rewrite length_combine, length_seq. apply Nat.min_id. }
  assert (Hin : forall p, In p (firstn k (sort_desc pairs)) ->
                  (fst p < length acts)%nat /\ snd p = nth (fst p) acts 0).
  { intros [i v] Hp.
    assert (Hp' : In (i, v) (sort_desc pairs)).
    { rewrite <- (firstn_skipn k (sort_desc pairs)). apply in_or_app. now left. }
    clear Hp. rename Hp' into Hp.
    apply (Permutation_in _ Hperm) in Hp. apply combine_seq_in in Hp.
    cbn [fst snd]. rewrite Nat.sub_0_r in Hp. split; [lia | tauto]. }
  split; [| split; [| split]].
  - rewrite length_map, length_firstn. lia.
  - rewrite <- firstn_map.
    assert (Hnd : NoDup (map fst (sort_desc pairs))).
    { eapply Permutation_NoDup.
      - apply Permutation_sym, Permutation_map, Hperm.
      - unfold pairs. rewrite map_fst_combine_seq. apply seq_NoDup. }
    rewrite <- (firstn_skipn k (map fst (sort_desc pairs))) in Hnd.
    eapply NoDup_app_remove_r. exact Hnd.
  - intros i Hi. apply in_map_iff in Hi. destruct Hi as (p & <- & Hp).
    apply Hin. exact Hp.
  - rewrite map_map. apply map_ext_in. intros p Hp. apply Hin. exact Hp.
Qed.

(** *** ReLU *)

Lemma relu_grad_mul (x : T) : relu x = relu_grad x * x.
Proof. unfold relu, relu_grad. destruct (ltb 0 x); ring. Qed.

(** *** The toy model is affine where the selections and the ReLU
        pattern do not change *)

Lemma bigsum_delta_mul (n i0 : nat) (g : nat -> T) :
  (i0 < n)%nat ->
  bigsum n (fun i => (if Nat.eqb i i0 then 1 else 0) * g i) = g i0.
Proof.
  revert i0 g. induction n as [| n IH]; intros i0 g H; [lia |].
  rewrite bigsum_first. destruct i0 as [| i0].
  - cbn [Nat.eqb].
    rewrite (@bigsum_ext n _ (fun _ => 0)).
    + rewrite bigsum_zero. ring.
    + intros i _. ring.
  - cbn [Nat.eqb]. rewrite (IH i0 (fun i => g (S i))) by lia. ring.
Qed.

(** [linear] takes an affine dependence on [h] to an affine dependence. *)
Lemma linear_affine (u u' : list T) (W : list (list T)) (b : list T)
    (rows n : nat) (d : nat -> T) (h : T) (j : nat) :
  has_shape W rows n -> length b = rows ->
  length u = n -> length u' = n ->
  (forall s, (s < n)%nat -> nth s u' 0 = nth s u 0 + h * d s) ->
  (j < rows)%nat ->
  nth j (linear u' W b) 0
  = nth j (linear u W b) 0 + h * bigsum n (fun s => d s * nth s (nth j W []) 0).
Proof.
  intros [Hr Hc] Hb Hu Hu' Hd Hj.
  rewrite !nth_linear by lia.
  rewrite (@dot_bigsum_n n u') by exact Hu'.
  rewrite (@dot_bigsum_n n u) by exact Hu.
  rewrite (@bigsum_ext n _
             (fun s => nth s u 0 * nth s (nth j W []) 0
                       + h * (d s * nth s (nth j W []) 0))).
  - rewrite bigsum_add, bigsum_scale. ring.
  - intros s Hs. rewrite (Hd s Hs). ring.
Qed.

Lemma nth_map_lt {X Y : Type} (f : X -> Y) (l : list X) (m : nat) (d : X) (d' : Y) :
  (m < length l)%nat -> nth m (map f l) d' = f (nth m l d).
Proof.
  intros H. rewrite (nth_indep _ d' (f d)) by (now rewrite length_map).
  apply map_nth.
Qed.

Section Sandwich.
Variables (sae : SAE T) (mlp : MLP T) (d_mlp : nat).
Hypothesis Hsae : SAE_shapes sae.
Hypothesis Hmlp : MLP_shapes mlp (d_in sae) d_mlp.
Variables (idx : list nat) (z0 : list T) (a : nat) (h : T).
Hypothesis Hnd : NoDup idx.
Hypothesis Hidx : forall i, In i idx -> (i < d_sae sae)%nat.
Hypothesis Hz0 : length z0 = length idx.
Hypothesis Ha : (a < length idx)%nat.

Let z1 := perturb z0 a h.
Let i0 := nth a idx O.
Let pre0 := MLP_pre mlp (decode_row sae z0 idx).

Hypothesis Hpattern :
  relu_pattern (MLP_pre mlp (decode_row sae z1 idx)) = relu_pattern pre0.

Lemma decode_length (z : list T) : length (decode_row sae z idx) = d_in sae.
Proof.
  destruct Hsae as (_ & _ & [Hd _] & Hb & _).
  unfold decode_row. rewrite linear_length; lia.
Qed.

Lemma pre_length (z : list T) : length (MLP_pre mlp (decode_row sae z idx)) = d_mlp.
Proof.
  destruct Hmlp as ([Hw _] & Hb & _).
  unfold MLP_pre. rewrite linear_length; lia.
Qed.

Lemma i0_lt : (i0 < d_sae sae)%nat.
Proof. apply Hidx. now apply nth_In. Qed.

Lemma decode_affine (s : nat) :
  (s < d_in sae)%nat ->
  nth s (decode_row sae z1 idx) 0
  = nth s (decode_row sae z0 idx) 0 + h * nth i0 (nth s (W_dec sae) []) 0.
Proof.
  intros Hs. destruct Hsae as (_ & _ & HWd & Hbd & _).
  unfold decode_row.
  rewrite (@linear_affine (scatter (zeros (d_sae sae)) idx z0)
             (scatter (zeros (d_sae sae)) idx z1) (W_dec sae) (b_dec sae)
             (d_in sae) (d_sae sae) (fun i => if Nat.eqb i i0 then 1 else 0) h s);
    auto.
  - rewrite bigsum_delta_mul by apply i0_lt. reflexivity.
  - now rewrite scatter_length, zeros_length.
  - now rewrite scatter_length, zeros_length.
  - intros i Hi. unfold z1. rewrite scatter_perturb; auto.
    + fold i0. destruct (Nat.eqb i i0); ring.
    + intros i' Hi'. rewrite zeros_length. auto.
Qed.

(** The entry [[i0, m]] of [wd1]. *)
Lemma wd1_entry (m : nat) :
  (m < d_mlp)%nat ->
  nth m (nth i0 (wd1_of sae mlp) []) 0
  = bigsum (d_in sae) (fun s => nth i0 (nth s (W_dec sae) []) 0
                               * nth s (nth m (W_in mlp) []) 0).
Proof.
  intros Hm. destruct Hsae as (_ & _ & HWd & _ & _ & Hin & _).
  destruct Hmlp as (HWi & _ & _ & _ & Hpos).
  unfold wd1_of. eapply matmul_transposes; eauto. apply i0_lt.
Qed.

Lemma w2e_entry (m j : nat) :
  (m < d_mlp)%nat -> (j < d_sae sae)%nat ->
  nth j (nth m (w2e_of sae mlp) []) 0
  = bigsum (d_in sae) (fun r => nth m (nth r (W_out mlp) []) 0
                               * nth r (nth j (W_enc sae) []) 0).
Proof.
  intros Hm Hj. destruct Hsae as (HWe & _ & _ & _ & _ & Hin & Hds).
  destruct Hmlp as (_ & _ & HWo & _ & Hpos).
  unfold w2e_of. eapply matmul_transposes; eauto.
Qed.

Lemma w2e_length : length (w2e_of sae mlp) = d_mlp.
Proof.
  destruct Hsae as (_ & _ & _ & _ & _ & Hin & _).
  destruct Hmlp as (_ & _ & HWo & _ & _).
  unfold w2e_of, matmul. rewrite length_map. eapply transpose_length; eauto.
Qed.

Lemma pre_affine (m : nat) :
  (m < d_mlp)%nat ->
  nth m (MLP_pre mlp (decode_row sae z1 idx)) 0
  = nth m pre0 0 + h * nth m (nth i0 (wd1_of sae mlp) []) 0.
Proof.
  intros Hm. destruct Hmlp as (HWi & Hbi & _).
  unfold pre0, MLP_pre.
  rewrite (@linear_affine (decode_row sae z0 idx) (decode_row sae z1 idx)
             (W_in mlp) (b_in mlp) d_mlp (d_in sae)
             (fun s => nth i0 (nth s (W_dec sae) []) 0) h m);
    auto using decode_length, decode_affine.
  now rewrite wd1_entry.
Qed.

Lemma post_affine (m : nat) :
  (m < d_mlp)%nat ->
  nth m (map relu (MLP_pre mlp (decode_row sae z1 idx))) 0
  = nth m (map relu pre0) 0
    + h * (relu_grad (nth m pre0 0) * nth m (nth i0 (wd1_of sae mlp) []) 0).
Proof.
  intros Hm.
  rewrite !(@nth_map_lt _ _ relu _ m 0 0) by (unfold pre0; now rewrite pre_length).
  assert (Hsign : ltb 0 (nth m (MLP_pre mlp (decode_row sae z1 idx)) 0)
                  = ltb 0 (nth m pre0 0)).
  { rewrite <- !(@nth_map_lt _ _ (ltb 0) _ m 0 false)
      by (unfold pre0; now rewrite pre_length).
    unfold relu_pattern in Hpattern. now rewrite Hpattern. }
  rewrite (relu_grad_mul (nth m pre0 0)).
  unfold relu at 1. unfold relu_grad. rewrite Hsign.
  rewrite (pre_affine Hm). destruct (ltb 0 (nth m pre0 0)); ring.
Qed.

Lemma out_length (z : list T) :
  length (fst (MLP_forward_row mlp (decode_row sae z idx))) = d_in sae.
Proof.
  destruct Hmlp as (_ & _ & [Hw _] & Hb & _).
  unfold MLP_forward_row. cbn [fst]. rewrite linear_length; lia.
Qed.

Lemma out_affine (r : nat) :
  (r < d_in sae)%nat ->
  nth r (fst (MLP_forward_row mlp (decode_row sae z1 idx))) 0
  = nth r (fst (MLP_forward_row mlp (decode_row sae z0 idx))) 0
    + h * bigsum d_mlp (fun m =>
            (relu_grad (nth m pre0 0) * nth m (nth i0 (wd1_of sae mlp) []) 0)
            * nth m (nth r (W_out mlp) []) 0).
Proof.
  intros Hr. destruct Hmlp as (_ & _ & HWo & Hbo & _).
  unfold MLP_forward_row. cbn [fst].
  apply (@linear_affine _ _ (W_out mlp) (b_out mlp) (d_in sae) d_mlp
           (fun m => relu_grad (nth m pre0 0) * nth m (nth i0 (wd1_of sae mlp) []) 0)
           h r); auto.
  - fold pre0. unfold pre0. now rewrite length_map, pre_length.
  - now rewrite length_map, pre_length.
  - intros m Hm. now apply post_affine.
Qed.

(** The output latents are affine in the perturbation, with the slope the
    einsum of [get_jacobian_fast] contracts. *)
Lemma sandwich_acts_affine (j : nat) :
  (j < d_sae sae)%nat ->
  nth j (sandwich_acts sae mlp idx z1) 0
  = nth j (sandwich_acts sae mlp idx z0) 0
    + h * contraction (wd1_of sae mlp) (w2e_of sae mlp) (map relu_grad pre0) i0 j.
Proof.
  intros Hj. destruct Hsae as (HWe & Hbe & _).
  unfold sandwich_acts.
  rewrite (@linear_affine (fst (MLP_forward_row mlp (decode_row sae z0 idx)))
             (fst (MLP_forward_row mlp (decode_row sae z1 idx)))
             (W_enc sae) (b_enc sae) (d_sae sae) (d_in sae)
             (fun r => bigsum d_mlp (fun m =>
                (relu_grad (nth m pre0 0) * nth m (nth i0 (wd1_of sae mlp) []) 0)
                * nth m (nth r (W_out mlp) []) 0)) h j);
    auto using out_length, out_affine.
  f_equal. f_equal. unfold contraction. rewrite w2e_length.
  rewrite (@bigsum_ext (d_in sae) _
             (fun r => bigsum d_mlp (fun m =>
                (relu_grad (nth m pre0 0) * nth m (nth i0 (wd1_of sae mlp) []) 0)
                * nth m (nth r (W_out mlp) []) 0 * nth r (nth j (W_enc sae) []) 0))).
  2: { intros r _.
       transitivity (nth r (nth j (W_enc sae) []) 0
                     * bigsum d_mlp (fun m =>
                         (relu_grad (nth m pre0 0) * nth m (nth i0 (wd1_of sae mlp) []) 0)
                         * nth m (nth r (W_out mlp) []) 0)); [ring |].
       rewrite <- bigsum_scale. apply bigsum_ext. intros m _. ring. }
  rewrite bigsum_exchange. apply bigsum_ext. intros m Hm.
  rewrite (w2e_entry Hm Hj).
  rewrite (@nth_map_lt _ _ relu_grad _ m 0 0) by (unfold pre0; now rewrite pre_length).
  rewrite <- (bigsum_scale (d_in sae)
                (nth m (nth i0 (wd1_of sae mlp) []) 0 * relu_grad (nth m pre0 0))).
  apply bigsum_ext. intros r _. ring.
Qed.

End Sandwich.

(** *** From the batch to one token *)

Section Rows.
Variables (sae : SAE T) (mlp : MLP T).
Hypothesis Hsae : SAE_shapes sae.

Lemma encode_row_spec (y : list T) :
  length (snd (encode_row sae y)) = k sae
  /\ NoDup (snd (encode_row sae y))
  /\ (forall i, In i (snd (encode_row sae y)) -> (i < d_sae sae)%nat)
  /\ fst (encode_row sae y)
     = map (fun i => nth i (linear y (W_enc sae) (b_enc sae)) 0) (snd (encode_row sae y)).
Proof.
  destruct Hsae as ([He _] & Hb & _ & _ & Hk & _).
  assert (Hlen : length (linear y (W_enc sae) (b_enc sae)) = d_sae sae)
    by (rewrite linear_length; lia).
  unfold encode_row.
  destruct (@topk_spec (linear y (W_enc sae) (b_enc sae)) (k sae)) as (H1 & H2 & H3 & H4);
    [lia |].
  rewrite Hlen in H3. auto.
Qed.

Lemma encode_length (y : list T) : length (fst (encode_row sae y)) = k sae.
Proof.
  destruct (encode_row_spec y) as (H1 & _ & _ & H4).
  now rewrite H4, length_map.
Qed.

Lemma nth_encode_snd (X : list (list T)) (s : nat) :
  (s < length X)%nat ->
  nth s (snd (encode sae X)) [] = snd (encode_row sae (nth s X [])).
Proof.
  intros Hs. unfold encode. cbn [snd]. rewrite map_map.
  exact (@nth_map_lt _ _ (fun y => snd (encode_row sae y)) X s [] [] Hs).
Qed.

Lemma nth_encode_fst (X : list (list T)) (s : nat) :
  (s < length X)%nat ->
  nth s (fst (encode sae X)) [] = fst (encode_row sae (nth s X [])).
Proof.
  intros Hs. unfold encode. cbn [fst]. rewrite map_map.
  exact (@nth_map_lt _ _ (fun y => fst (encode_row sae y)) X s [] [] Hs).
Qed.

Lemma encode_lengths (X : list (list T)) :
  length (fst (encode sae X)) = length X /\ length (snd (encode sae X)) = length X.
Proof. unfold encode. cbn. now rewrite !length_map. Qed.

Lemma nth_decode (latents : list (list T)) (indices : list (list nat)) (s : nat) :
  (s < length latents)%nat ->
  nth s (decode sae latents indices) []
  = decode_row sae (nth s latents []) (nth s indices []).
Proof.
  intros Hs. unfold decode, scatter_rows. rewrite repeat_length, map_map.
  rewrite (@nth_map_seq _ _ (length latents) s [] Hs).
  unfold decode_row. f_equal. f_equal.
  apply nth_repeat_lt. exact Hs.
Qed.

Lemma decode_batch_length (latents : list (list T)) (indices : list (list nat)) :
  length (decode sae latents indices) = length latents.
Proof.
  unfold decode, scatter_rows. now rewrite length_map, length_map, length_seq, repeat_length.
Qed.

Lemma nth_sae_out (resid_values : list (list T)) (t : nat) :
  (t < length resid_values)%nat ->
  nth t (fst (SAE_forward sae resid_values)) []
  = decode_row sae (fst (encode_row sae (nth t resid_values [])))
                   (snd (encode_row sae (nth t resid_values []))).
Proof.
  intros Ht. unfold SAE_forward. cbn [fst].
  rewrite nth_decode by (rewrite (proj1 (encode_lengths _)); exact Ht).
  now rewrite nth_encode_fst, nth_encode_snd.
Qed.

Lemma nth_topk_indices1 (resid_values : list (list T)) (t : nat) :
  (t < length resid_values)%nat ->
  nth t (snd (SAE_forward sae resid_values)) []
  = snd (encode_row sae (nth t resid_values [])).
Proof. intros Ht. unfold SAE_forward. cbn [snd]. now rewrite nth_encode_snd. Qed.

Lemma sae_out_length (resid_values : list (list T)) :
  length (fst (SAE_forward sae resid_values)) = length resid_values.
Proof.
  unfold SAE_forward. cbn [fst].
  now rewrite decode_batch_length, (proj1 (encode_lengths _)).
Qed.

Lemma nth_mlp_grad (X : list (list T)) (s : nat) :
  (s < length X)%nat ->
  nth s (snd (MLP_forward_grad mlp X)) [] = snd (MLP_forward_row mlp (nth s X [])).
Proof.
  intros Hs. unfold MLP_forward_grad. cbn [snd]. rewrite map_map.
  exact (@nth_map_lt _ _ (fun y => snd (MLP_forward_row mlp y)) X s [] [] Hs).
Qed.

Lemma nth_mlp_out (X : list (list T)) (s : nat) :
  (s < length X)%nat ->
  nth s (fst (MLP_forward_grad mlp X)) [] = fst (MLP_forward_row mlp (nth s X [])).
Proof.
  intros Hs. unfold MLP_forward_grad. cbn [fst]. rewrite map_map.
  exact (@nth_map_lt _ _ (fun y => fst (MLP_forward_row mlp y)) X s [] [] Hs).
Qed.

Lemma mlp_out_length (X : list (list T)) :
  length (fst (MLP_forward_grad mlp X)) = length X.
Proof. unfold MLP_forward_grad. cbn. now rewrite !length_map. Qed.

Lemma nth_topk_indices2 (resid_values : list (list T)) (t : nat) :
  (t < length resid_values)%nat ->
  nth t (snd (encode sae
                (fst (MLP_forward_grad mlp (fst (SAE_forward sae resid_values)))))) []
  = snd (sandwich_row sae mlp (snd (encode_row sae (nth t resid_values [])))
                      (fst (encode_row sae (nth t resid_values [])))).
Proof.
  intros Ht.
  rewrite nth_encode_snd by (rewrite mlp_out_length, sae_out_length; exact Ht).
  rewrite nth_mlp_out by (rewrite sae_out_length; exact Ht).
  now rewrite nth_sae_out.
Qed.

(** The activation gradient is the derivative of ReLU at the
    pre-activations. *)
Lemma grad_relu (y : list T) :
  snd (MLP_forward_row mlp y) = map relu_grad (MLP_pre mlp y).
Proof.
  unfold MLP_forward_row. cbn [snd].
  unfold autograd_grad_elementwise, ones_like. rewrite map_map.
  generalize (MLP_pre mlp y). intros l.
  unfold zipWith. induction l as [| p l IH]; [reflexivity |].
  cbn [map combine fst snd]. rewrite IH. f_equal. ring.
Qed.

End Rows.

(** *** The entries of the einsum *)

Lemma gather_rows_length (W : list (list T)) (idxs : list (list nat)) :
  length (gather_rows W idxs) = length idxs.
Proof. apply length_map. Qed.

Lemma nth_gather_rows_row (W : list (list T)) (idxs : list (list nat)) (s : nat) :
  (s < length idxs)%nat ->
  nth s (gather_rows W idxs) [] = map (fun i => nth i W []) (nth s idxs []).
Proof.
  intros Hs.
  exact (@nth_map_lt _ _ (fun idx => map (fun i => nth i W []) idx) idxs s [] [] Hs).
Qed.

Lemma nth_gather_cols_row (W : list (list T)) (idxs : list (list nat)) (m s : nat) :
  (m < length W)%nat -> (s < length idxs)%nat ->
  nth s (nth m (gather_cols W idxs) []) []
  = map (fun j => nth j (nth m W []) 0) (nth s idxs []).
Proof.
  intros Hm Hs. unfold gather_cols.
  rewrite (@nth_map_lt _ _
             (fun row => map (fun idx => map (fun j => nth j row 0) idx) idxs)
             W m [] [] Hm).
  exact (@nth_map_lt _ _ (fun idx => map (fun j => nth j (nth m W []) 0) idx)
           idxs s [] [] Hs).
Qed.

Lemma einsum_entry (A : list (list (list T))) (G : list (list T))
    (B : list (list (list T))) (s c2 c1 : nat) :
  (s < length A)%nat ->
  (c2 < length (nth O (nth O B []) []))%nat ->
  (c1 < length (nth O A []))%nat ->
  nth c1 (nth c2 (nth s (einsum_k1m_m_mk2 A G B) []) []) 0
  = bigsum (length B) (fun m =>
      nth m (nth c1 (nth s A []) []) 0 * nth m (nth s G []) 0
      * nth c2 (nth s (nth m B []) []) 0).
Proof.
  intros Hs H2 H1. unfold einsum_k1m_m_mk2.
  rewrite (@nth_map_seq _ _ (length A) s [] Hs).
  rewrite (@nth_map_seq _ _ _ c2 [] H2).
  rewrite (@nth_map_seq _ _ _ c1 0 H1).
  reflexivity.
Qed.

(** An entry of [get_jacobian_fast]: the first axis after the token is the
    output latent, the second the input latent. *)
Lemma fast_entry (sae : SAE T) (mlp : MLP T) (d_mlp : nat) (wd1 w2e : list (list T))
    (resid_values : list (list T)) (t output_k input_k : nat) :
  SAE_shapes sae -> MLP_shapes mlp (d_in sae) d_mlp ->
  (0 < length w2e)%nat ->
  (t < length resid_values)%nat ->
  (output_k < k sae)%nat -> (input_k < k sae)%nat ->
  nth input_k
      (nth output_k (nth t (get_jacobian_fast wd1 w2e sae mlp resid_values) []) []) 0
  = contraction wd1 w2e
      (snd (MLP_forward_row mlp
              (decode_row sae (fst (encode_row sae (nth t resid_values [])))
                              (snd (encode_row sae (nth t resid_values []))))))
      (nth input_k (snd (encode_row sae (nth t resid_values []))) O)
      (nth output_k
           (snd (sandwich_row sae mlp (snd (encode_row sae (nth t resid_values [])))
                              (fst (encode_row sae (nth t resid_values []))))) O).
Proof.
  intros Hsae Hmlp Hw Ht Hout Hin.
  assert (Hn : (0 < length resid_values)%nat) by lia.
  unfold get_jacobian_fast.
  set (topk1 := snd (SAE_forward sae resid_values)).
  set (sae_out := fst (SAE_forward sae resid_values)).
  set (G := snd (MLP_forward_grad mlp sae_out)).
  set (topk2 := snd (encode sae (fst (MLP_forward_grad mlp sae_out)))).
  assert (Hl1 : length topk1 = length resid_values).
  { unfold topk1, SAE_forward. cbn [snd]. apply encode_lengths. }
  assert (Hl2 : length topk2 = length resid_values).
  { unfold topk2. rewrite (proj2 (encode_lengths sae _)).
    unfold sae_out. now rewrite mlp_out_length, sae_out_length. }
  assert (H1 : forall s, (s < length resid_values)%nat ->
                 nth s topk1 [] = snd (encode_row sae (nth s resid_values []))).
  { intros s Hs. unfold topk1. now apply nth_topk_indices1. }
  assert (H2 : forall s, (s < length resid_values)%nat ->
                 nth s topk2 []
                 = snd (sandwich_row sae mlp (snd (encode_row sae (nth s resid_values [])))
                                     (fst (encode_row sae (nth s resid_values []))))).
  { intros s Hs. unfold topk2, sae_out. now apply nth_topk_indices2. }
  assert (Hk1 : forall s, (s < length resid_values)%nat -> length (nth s topk1 []) = k sae).
  { intros s Hs. rewrite (H1 s Hs). exact (proj1 (encode_row_spec Hsae _)). }
  assert (Hk2 : forall s, (s < length resid_values)%nat -> length (nth s topk2 []) = k sae).
  { intros s Hs. rewrite (H2 s Hs). unfold sandwich_row.
    exact (proj1 (encode_row_spec Hsae _)). }
  rewrite einsum_entry.
  - unfold contraction. unfold gather_cols at 1. rewrite length_map.
    apply bigsum_ext. intros m Hm.
    rewrite nth_gather_rows_row by lia.
    rewrite nth_gather_cols_row by lia.
    rewrite (@nth_map_lt _ _ (fun i => nth i wd1 []) _ input_k O [])
      by (rewrite Hk1; auto).
    rewrite (@nth_map_lt _ _ (fun j => nth j (nth m w2e []) 0) _ output_k O 0)
      by (rewrite Hk2; auto).
    rewrite (H1 t Ht), (H2 t Ht).
    unfold G. rewrite nth_mlp_grad by (unfold sae_out; now rewrite sae_out_length).
    unfold sae_out. rewrite nth_sae_out by exact Ht. reflexivity.
  - rewrite gather_rows_length. lia.
  - rewrite nth_gather_cols_row by lia. rewrite length_map, Hk2; auto.
  - rewrite nth_gather_rows_row by lia. rewrite length_map, Hk1; auto.
Qed.

(** *** The loops of [get_jacobian_slow] *)

Lemma for_range_S {S : Type} (n : nat) (body : nat -> S -> S) (s : S) :
  for_range (Datatypes.S n) body s = body n (for_range n body s).
Proof. unfold for_range. now rewrite seq_S, fold_left_app. Qed.

(** A loop whose iteration [i] writes [val key] at the keys of
    [slice i], and nothing else, writes it at the keys of all slices. *)
Lemma for_range_fill {S K : Type} (get : K -> S -> T) (Inv : S -> Prop)
    (val : K -> T) (slice : nat -> K -> bool) (body : nat -> S -> S)
    (n : nat) (s0 : S) :
  (forall i s, (i < n)%nat -> Inv s ->
     Inv (body i s)
     /\ forall key, get key (body i s) = if slice i key then val key else get key s) ->
  Inv s0 ->
  Inv (for_range n body s0)
  /\ forall key, get key (for_range n body s0)
                 = if existsb (fun i => slice i key) (seq O n) then val key
                   else get key s0.
Proof.
  intros Hbody H0. induction n as [| n IH].
  - split; [exact H0 | reflexivity].
  - destruct IH as [IHinv IHget]; [intros i s Hi; apply Hbody; lia |].
    destruct (Hbody n (for_range n body s0) (Nat.lt_succ_diag_r n) IHinv) as [Hinv Hget].
    rewrite for_range_S. split; [exact Hinv |].
    intros key. rewrite Hget, IHget, seq_S, existsb_app. cbn [existsb Nat.add].
    destruct (slice n key), (existsb (fun i => slice i key) (seq O n)); reflexivity.
Qed.

Lemma set3_dims (J : list (list (list T))) (n p q t a b : nat) (v : T) :
  dims3 J n p q -> (t < n)%nat -> (a < p)%nat -> (b < q)%nat ->
  dims3 (set3 t a b v J) n p q.
Proof.
  intros [Hn Hd] Ht Ha Hb. unfold set3. split; [now rewrite set_nth_length |].
  intros t' Ht'. destruct (Nat.eq_dec t t') as [<- | Hne].
  - rewrite nth_set_nth_eq by lia. destruct (Hd t Ht) as [Hp Hq].
    split; [now rewrite set_nth_length |].
    intros a' Ha'. destruct (Nat.eq_dec a a') as [<- | Hna].
    + rewrite nth_set_nth_eq by lia. rewrite set_nth_length. auto.
    + rewrite nth_set_nth_neq by exact Hna. auto.
  - rewrite nth_set_nth_neq by exact Hne. auto.
Qed.

Lemma get3_set3 (J : list (list (list T))) (n p q t a b : nat) (v : T) (t' a' b' : nat) :
  dims3 J n p q -> (t < n)%nat -> (a < p)%nat -> (b < q)%nat ->
  get3 (set3 t a b v J) t' a' b'
  = if ((t' =? t) && (a' =? a) && (b' =? b))%bool then v else get3 J t' a' b'.
Proof.
  intros [Hn Hd] Ht Ha Hb. destruct (Hd t Ht) as [Hp Hq].
  unfold get3, set3.
  destruct (Nat.eqb_spec t' t) as [-> | Hne]; cbn [andb].
  - rewrite nth_set_nth_eq by lia.
    destruct (Nat.eqb_spec a' a) as [-> | Hna]; cbn [andb].
    + rewrite nth_set_nth_eq by lia.
      destruct (Nat.eqb_spec b' b) as [-> | Hnb].
      * apply nth_set_nth_eq. rewrite (Hq a Ha). exact Hb.
      * apply nth_set_nth_neq. auto.
    + rewrite nth_set_nth_neq by auto. reflexivity.
  - rewrite nth_set_nth_neq by auto. reflexivity.
Qed.

Lemma existsb_seq (n j : nat) (f : nat -> bool) :
  (j < n)%nat -> f j = true -> existsb f (seq O n) = true.
Proof.
  intros Hj Hf. apply existsb_exists. exists j. split; [| exact Hf].
  apply in_seq. lia.
Qed.

Lemma zeros3_dims (n p q : nat) :
  dims3 (repeat (repeat (zeros q) p) n) n p q.
Proof.
  split; [apply repeat_length |].
  intros t Ht.
  rewrite (nth_indep _ [] (repeat (zeros q) p)) by (now rewrite repeat_length).
  rewrite nth_repeat. split; [apply repeat_length |].
  intros a Ha.
  rewrite (nth_indep _ [] (zeros q)) by (now rewrite repeat_length).
  rewrite nth_repeat. apply zeros_length.
Qed.

(** The loops of [get_jacobian_slow] write, at every position, the entry
    of that position. *)
Lemma slow_loops (E : nat -> nat -> nat -> T) (n k : nat) (t a b : nat) :
  (t < n)%nat -> (a < k)%nat -> (b < k)%nat ->
  get3 (for_range n (fun token_pos =>
          for_range k (fun output_k =>
            for_range k (fun input_k =>
              set3 token_pos input_k output_k (E token_pos input_k output_k))))
          (repeat (repeat (zeros k) k) n)) t a b
  = E t a b.
Proof.
  intros Ht Ha Hb.
  pose (get := fun (key : nat * nat * nat) (J : list (list (list T))) =>
                 get3 J (fst (fst key)) (snd (fst key)) (snd key)).
  pose (val := fun key : nat * nat * nat => E (fst (fst key)) (snd (fst key)) (snd key)).
  pose (Inv := fun J : list (list (list T)) => dims3 J n k k).
  pose (inner := fun (s o i : nat) (key : nat * nat * nat) =>
                   ((fst (fst key) =? s) && (snd (fst key) =? i) && (snd key =? o))%bool).
  pose (middle := fun (s o : nat) (key : nat * nat * nat) =>
                    existsb (fun i => inner s o i key) (seq O k)).
  pose (outer := fun (s : nat) (key : nat * nat * nat) =>
                   existsb (fun o => middle s o key) (seq O k)).
  assert (Hinner : forall s o J, (s < n)%nat -> (o < k)%nat -> Inv J ->
            Inv (for_range k (fun i => set3 s i o (E s i o)) J)
            /\ forall key, get key (for_range k (fun i => set3 s i o (E s i o)) J)
                           = if middle s o key then val key else get key J).
  { intros s o J Hs Ho HJ.
    apply (@for_range_fill _ _ get Inv val (inner s o)); [| exact HJ].
    intros i J' Hi HJ'. split; [now apply set3_dims |].
    intros [[t' a'] b']. unfold get, val, inner. cbn [fst snd].
    rewrite (@get3_set3 J' n k k s i o (E s i o) t' a' b' HJ' Hs Hi Ho).
    destruct (Nat.eqb_spec t' s) as [-> | ?]; cbn [andb]; [| reflexivity].
    destruct (Nat.eqb_spec a' i) as [-> | ?]; cbn [andb]; [| reflexivity].
    destruct (Nat.eqb_spec b' o) as [-> | ?]; reflexivity. }
  assert (Hmiddle : forall s J, (s < n)%nat -> Inv J ->
            Inv (for_range k (fun o => for_range k (fun i => set3 s i o (E s i o))) J)
            /\ forall key,
                 get key (for_range k (fun o => for_range k (fun i => set3 s i o (E s i o))) J)
                 = if outer s key then val key else get key J).
  { intros s J Hs HJ.
    apply (@for_range_fill _ _ get Inv val (middle s)); [| exact HJ].
    intros o J' Ho HJ'. now apply Hinner. }
  destruct (@for_range_fill _ _ get Inv val outer
              (fun s => for_range k (fun o => for_range k (fun i => set3 s i o (E s i o))))
              n (repeat (repeat (zeros k) k) n)) as [_ Hget].
  { intros s J Hs HJ. now apply Hmiddle. }
  { apply zeros3_dims. }
  specialize (Hget (t, a, b)). unfold get, val in Hget. cbn [fst snd] in Hget.
  rewrite Hget.
  rewrite (@existsb_seq n t (fun s => outer s (t, a, b)) Ht); [reflexivity |].
  apply (@existsb_seq k b (fun o => middle t o (t, a, b)) Hb).
  apply (@existsb_seq k a (fun i => inner t b i (t, a, b)) Ha).
  unfold inner. cbn [fst snd]. now rewrite !Nat.eqb_refl.
Qed.

(** The sum of [slow_entry] is the sum the einsum forms. *)
Lemma triple_sum (x g c : list T) :
  sum (vmul (vmul x g) c)
  = bigsum (length c) (fun m => nth m x 0 * nth m g 0 * nth m c 0).
Proof.
  revert x g. induction c as [| c0 c IH]; intros x g.
  - unfold vmul, zipWith. rewrite combine_nil. reflexivity.
  - cbn [length]. rewrite bigsum_first.
    destruct x as [| x0 x]; [| destruct g as [| g0 g]].
    + change (sum (vmul (vmul [] g) (c0 :: c))) with 0.
      rewrite (@bigsum_ext _ _ (fun _ => 0)); [rewrite bigsum_zero; cbn [nth]; ring |].
      intros i _. cbn [nth]. ring.
    + change (sum (vmul (vmul (x0 :: x) []) (c0 :: c))) with 0.
      rewrite (@bigsum_ext _ _ (fun _ => 0)); [rewrite bigsum_zero; cbn [nth]; ring |].
      intros i _. cbn [nth]. ring.
    + change (sum (vmul (vmul (x0 :: x) (g0 :: g)) (c0 :: c)))
        with (x0 * g0 * c0 + sum (vmul (vmul x g) c)).
      rewrite IH. reflexivity.
Qed.

Lemma slow_entry_contraction (wd1 w2e G : list (list T))
    (topk1 topk2 : list (list nat)) (t a b : nat) :
  slow_entry wd1 w2e G topk1 topk2 t a b
  = contraction wd1 w2e (nth t G [])
      (nth a (nth t topk1 []) O) (nth b (nth t topk2 []) O).
Proof.
  unfold slow_entry, contraction. rewrite triple_sum, col_length.
  apply bigsum_ext. intros m _. now rewrite nth_col.
Qed.

(** Each entry of [get_jacobian_slow] is the contraction for its input
    and output latent. *)
Lemma slow_entry_at (sae : SAE T) (mlp : MLP T) (resid_values : list (list T))
    (t input_k output_k : nat) :
  SAE_shapes sae ->
  (t < length resid_values)%nat ->
  (input_k < k sae)%nat -> (output_k < k sae)%nat ->
  get3 (get_jacobian_slow sae mlp resid_values) t input_k output_k
  = contraction (wd1_of sae mlp) (w2e_of sae mlp)
      (snd (MLP_forward_row mlp
              (decode_row sae (fst (encode_row sae (nth t resid_values [])))
                              (snd (encode_row sae (nth t resid_values []))))))
      (nth input_k (snd (encode_row sae (nth t resid_values []))) O)
      (nth output_k
           (snd (sandwich_row sae mlp (snd (encode_row sae (nth t resid_values [])))
                              (fst (encode_row sae (nth t resid_values []))))) O).
Proof.
  intros Hsae Ht Hin Hout. unfold get_jacobian_slow. cbv zeta.
  rewrite (@slow_loops
             (slow_entry (wd1_of sae mlp) (w2e_of sae mlp)
                (snd (MLP_forward_grad mlp (fst (SAE_forward sae resid_values))))
                (snd (SAE_forward sae resid_values))
                (snd (encode sae
                        (fst (MLP_forward_grad mlp (fst (SAE_forward sae resid_values)))))))
             (length resid_values) (k sae) t input_k output_k Ht Hin Hout).
  rewrite slow_entry_contraction.
  rewrite nth_mlp_grad by (now rewrite sae_out_length).
  rewrite nth_sae_out by exact Ht.
  rewrite nth_topk_indices1 by exact Ht.
  rewrite nth_topk_indices2 by exact Ht.
  reflexivity.
Qed.

(** [get_jacobian_fast] returns [get_jacobian_slow] with the last two axes
    exchanged. *)
Lemma fast_is_slow_transposed (sae : SAE T) (mlp : MLP T) (d_mlp : nat)
    (resid_values : list (list T)) (t input_k output_k : nat) :
  SAE_shapes sae -> MLP_shapes mlp (d_in sae) d_mlp ->
  (t < length resid_values)%nat ->
  (input_k < k sae)%nat -> (output_k < k sae)%nat ->
  get3 (get_jacobian_fast (wd1_of sae mlp) (w2e_of sae mlp) sae mlp resid_values)
       t output_k input_k
  = get3 (get_jacobian_slow sae mlp resid_values) t input_k output_k.
Proof.
  intros Hsae Hmlp Ht Hin Hout.
  rewrite slow_entry_at by assumption.
  unfold get3. apply (fast_entry _ _ _ Hsae Hmlp); try assumption.
  rewrite (w2e_length Hsae Hmlp). now destruct Hmlp as (_ & _ & _ & _ & Hpos).
Qed.

(** *** The two Jacobian functions and the einsum of the benchmark *)

Lemma for_range_inv {S : Type} (Inv : S -> Prop) (body : nat -> S -> S) (n : nat) (s0 : S) :
  (forall i s, (i < n)%nat -> Inv s -> Inv (body i s)) ->
  Inv s0 -> Inv (for_range n body s0).
Proof.
  intros Hbody H0. induction n as [| n IH]; [exact H0 |].
  rewrite for_range_S. apply Hbody; [lia |]. apply IH. intros i s Hi. apply Hbody. lia.
Qed.

Lemma einsum_dims (A : list (list (list T))) (G : list (list T))
    (B : list (list (list T))) (n k1 k2 : nat) :
  length A = n ->
  ((0 < n)%nat -> length (nth O A []) = k1) ->
  ((0 < n)%nat -> length (nth O (nth O B []) []) = k2) ->
  dims3 (einsum_k1m_m_mk2 A G B) n k2 k1.
Proof.
  intros Hn H1 H2. unfold einsum_k1m_m_mk2. split.
  - now rewrite length_map, length_seq.
  - intros t Ht. rewrite Hn, (H1 ltac:(lia)), (H2 ltac:(lia)).
    rewrite (@nth_map_seq _ _ n t [] Ht).
    split; [now rewrite length_map, length_seq |].
    intros a Ha. rewrite (@nth_map_seq _ _ k2 a [] Ha).
    now rewrite length_map, length_seq.
Qed.

(** X1.  [get_jacobian_slow] returns, for every SAE, MLP and batch, a
    tensor of shape (n_tokens, k, k); its entry [t, input_k, output_k] is
    the sum over the neurons of the row of [wd1] of the input latent, the
    activation gradient of the token and the column of [w2e] of the output
    latent. *)
Theorem get_jacobian_slow_spec (sae : SAE T) (mlp : MLP T) (resid_values : list (list T)) :
  dims3 (get_jacobian_slow sae mlp resid_values) (length resid_values) (k sae) (k sae)
  /\ forall t input_k output_k,
       (t < length resid_values)%nat -> (input_k < k sae)%nat -> (output_k < k sae)%nat ->
       get3 (get_jacobian_slow sae mlp resid_values) t input_k output_k
       = contraction (wd1_of sae mlp) (w2e_of sae mlp)
           (nth t (snd (MLP_forward_grad mlp (fst (SAE_forward sae resid_values)))) [])
           (nth input_k (nth t (snd (SAE_forward sae resid_values)) []) O)
           (nth output_k
                (nth t (snd (encode sae
                          (fst (MLP_forward_grad mlp
                                  (fst (SAE_forward sae resid_values)))))) []) O).
Proof.
  split.
  - unfold get_jacobian_slow. cbv zeta.
    apply (@for_range_inv _ (fun J => dims3 J (length resid_values) (k sae) (k sae)));
      [| apply zeros3_dims].
    intros t J Ht HJ.
    apply (@for_range_inv _ (fun J => dims3 J (length resid_values) (k sae) (k sae)));
      [| exact HJ].
    intros o J1 Ho HJ1.
    apply (@for_range_inv _ (fun J => dims3 J (length resid_values) (k sae) (k sae)));
      [| exact HJ1].
    intros i J2 Hi HJ2. now apply set3_dims.
  - intros t input_k output_k Ht Hin Hout.
    unfold get_jacobian_slow. cbv zeta.
    rewrite (@slow_loops
               (slow_entry (wd1_of sae mlp) (w2e_of sae mlp)
                  (snd (MLP_forward_grad mlp (fst (SAE_forward sae resid_values))))
                  (snd (SAE_forward sae resid_values))
                  (snd (encode sae
                          (fst (MLP_forward_grad mlp (fst (SAE_forward sae resid_values)))))))
               (length resid_values) (k sae) t input_k output_k Ht Hin Hout).
    apply slow_entry_contraction.
Qed.

(** X2.  [jacobian_einsum] on index tensors of shape (n, k), whatever
    their entries (the benchmark draws them at random, with repetitions):
    the result has shape (n, k, k), and its entry [s, c2, c1] contracts the
    row of [wd1] that [topk_indices1[s, c1]] names, the gradient of the
    token and the column of [w2e] that [topk_indices2[s, c2]] names. *)
Theorem jacobian_einsum_spec (wd1 w2e G : list (list T))
    (topk_indices1 topk_indices2 : list (list nat)) (n k d_sae d_mlp : nat) :
  has_shape wd1 d_sae d_mlp -> has_shape w2e d_mlp d_sae -> has_shape G n d_mlp ->
  (0 < d_mlp)%nat ->
  length topk_indices1 = n -> length topk_indices2 = n ->
  (forall s, (s < n)%nat -> length (nth s topk_indices1 []) = k) ->
  (forall s, (s < n)%nat -> length (nth s topk_indices2 []) = k) ->
  (forall s i, In i (nth s topk_indices1 []) -> (i < d_sae)%nat) ->
  (forall s i, In i (nth s topk_indices2 []) -> (i < d_sae)%nat) ->
  dims3 (jacobian_einsum wd1 w2e topk_indices1 G topk_indices2) n k k
  /\ forall s c2 c1,
       (s < n)%nat -> (c2 < k)%nat -> (c1 < k)%nat ->
       get3 (jacobian_einsum wd1 w2e topk_indices1 G topk_indices2) s c2 c1
       = bigsum d_mlp (fun m =>
           nth m (nth (nth c1 (nth s topk_indices1 []) O) wd1 []) 0
           * nth m (nth s G []) 0
           * nth (nth c2 (nth s topk_indices2 []) O) (nth m w2e []) 0).
Proof.
  intros Hwd1 [Hw2e _] HG Hpos Hn1 Hn2 Hk1 Hk2 _ _.
  unfold jacobian_einsum. cbv zeta.
  assert (HA : forall s, (s < n)%nat ->
            length (nth s (gather_rows wd1 topk_indices1) []) = k).
  { intros s Hs. rewrite nth_gather_rows_row by lia. now rewrite length_map, Hk1. }
  assert (HB : forall s, (s < n)%nat ->
            length (nth s (nth O (gather_cols w2e topk_indices2) []) []) = k).
  { intros s Hs. rewrite nth_gather_cols_row by lia. now rewrite length_map, Hk2. }
  split.
  - apply einsum_dims; [now rewrite gather_rows_length | apply HA | apply HB].
  - intros s c2 c1 Hs H2 H1. unfold get3.
    rewrite einsum_entry.
    + unfold gather_cols at 1. rewrite length_map, Hw2e.
      apply bigsum_ext. intros m Hm.
      rewrite nth_gather_rows_row by lia.
      rewrite nth_gather_cols_row by lia.
      rewrite (@nth_map_lt _ _ (fun i => nth i wd1 []) _ c1 O [])
        by (rewrite Hk1; auto).
      rewrite (@nth_map_lt _ _ (fun j => nth j (nth m w2e []) 0) _ c2 O 0)
        by (rewrite Hk2; auto).
      reflexivity.
    + rewrite gather_rows_length. lia.
    + rewrite HB; lia.
    + rewrite HA; lia.
Qed.

(** X3.  [get_jacobian_fast], with the globals [wd1] and [w2e] computed
    from the same SAE and MLP, returns a tensor of shape (n_tokens, k, k)
    whose entry [t, output_k, input_k] is the entry
    [t, input_k, output_k] of [get_jacobian_slow]: the two tensors are
    each other's transpose in the last two axes. *)
Theorem fast_is_slow_with_axes_exchanged (sae : SAE T) (mlp : MLP T) (d_mlp : nat)
    (resid_values : list (list T)) :
  SAE_shapes sae -> MLP_shapes mlp (d_in sae) d_mlp ->
  dims3 (get_jacobian_fast (wd1_of sae mlp) (w2e_of sae mlp) sae mlp resid_values)
        (length resid_values) (k sae) (k sae)
  /\ forall t input_k output_k,
       (t < length resid_values)%nat -> (input_k < k sae)%nat -> (output_k < k sae)%nat ->
       get3 (get_jacobian_fast (wd1_of sae mlp) (w2e_of sae mlp) sae mlp resid_values)
            t output_k input_k
       = get3 (get_jacobian_slow sae mlp resid_values) t input_k output_k.
Proof.
  intros Hsae Hmlp. split.
  - unfold get_jacobian_fast. cbv zeta.
    assert (Hw : (0 < length (w2e_of sae mlp))%nat).
    { rewrite (w2e_length Hsae Hmlp). now destruct Hmlp as (_ & _ & _ & _ & Hpos). }
    apply einsum_dims.
    + rewrite gather_rows_length. unfold SAE_forward. cbn [snd]. apply encode_lengths.
    + intros Hn. rewrite nth_gather_rows_row
        by (unfold SAE_forward; cbn [snd]; now rewrite (proj2 (encode_lengths sae _))).
      rewrite length_map, nth_topk_indices1 by exact Hn.
      exact (proj1 (encode_row_spec Hsae _)).
    + intros Hn. rewrite nth_gather_cols_row;
        [| exact Hw
         | now rewrite (proj2 (encode_lengths sae _)), mlp_out_length, sae_out_length].
      rewrite length_map, nth_topk_indices2 by exact Hn.
      unfold sandwich_row. exact (proj1 (encode_row_spec Hsae _)).
  - intros t input_k output_k Ht Hin Hout.
    rewrite slow_entry_at by assumption.
    unfold get3. apply (fast_entry _ _ _ Hsae Hmlp); try assumption.
    rewrite (w2e_length Hsae Hmlp). now destruct Hmlp as (_ & _ & _ & _ & Hpos).
Qed.

(** *** [SAE.encode] selects the largest activations *)

Section TopK.
Hypothesis ltb_asym : forall x y : T, ltb x y = true -> ltb y x = false.
Hypothesis geb_trans :
  forall x y z : T, geb x y = true -> geb y z = true -> geb x z = true.

Let above (p q : nat * T) : Prop := geb (snd p) (snd q) = true.

Lemma insert_desc_sorted (p : nat * T) (l : list (nat * T)) :
  StronglySorted above l -> StronglySorted above (insert_desc p l).
Proof.
  induction l as [| q l IH]; intros Hs; cbn [insert_desc].
  - constructor; [constructor | constructor].
  - inversion Hs as [| q' l' Hl Hq]; subst.
    destruct (ltb (snd q) (snd p)) eqn:Hlt.
    + assert (Hpq : above p q).
      { unfold above, geb. now rewrite (ltb_asym _ _ Hlt). }
      constructor; [exact Hs |].
      constructor; [exact Hpq |].
      rewrite Forall_forall in Hq |- *. intros x Hx.
      exact (geb_trans _ _ _ Hpq (Hq x Hx)).
    + constructor; [now apply IH |].
      rewrite Forall_forall in Hq |- *. intros x Hx.
      apply (Permutation_in _ (insert_desc_perm p l)) in Hx.
      destruct Hx as [<- | Hx]; [| now apply Hq].
      unfold above, geb. now rewrite Hlt.
Qed.

Lemma sort_desc_sorted (l : list (nat * T)) : StronglySorted above (sort_desc l).
Proof.
  unfold sort_desc.
  assert (H : forall acc, StronglySorted above acc ->
                StronglySorted above (fold_left (fun acc p => insert_desc p acc) l acc)).
  { induction l as [| p l IH]; intros acc Hacc; cbn; [exact Hacc |].
    apply IH. now apply insert_desc_sorted. }
  apply H. constructor.
Qed.

Lemma sorted_app {X : Type} (R : X -> X -> Prop) (l1 l2 : list X) :
  StronglySorted R (l1 ++ l2) ->
  StronglySorted R l1 /\ forall x y, In x l1 -> In y l2 -> R x y.
Proof.
  induction l1 as [| a l1 IH]; cbn; intros Hs.
  - split; [constructor | intros x y []].
  - inversion Hs as [| a' l' Hl Ha]; subst.
    destruct (IH Hl) as [H1 H2]. rewrite Forall_forall in Ha. split.
    + constructor; [exact H1 |]. apply Forall_forall. intros x Hx.
      apply Ha. apply in_or_app. now left.
    + intros x y [<- | Hx] Hy; [| now apply H2].
      apply Ha. apply in_or_app. now right.
Qed.

Lemma sorted_nth {X : Type} (R : X -> X -> Prop) (l : list X) (d : X) :
  StronglySorted R l ->
  forall j j', (j < j')%nat -> (j' < length l)%nat -> R (nth j l d) (nth j' l d).
Proof.
  induction 1 as [| a l Hl IH Ha]; intros j j' Hlt Hlen; [cbn in Hlen; lia |].
  destruct j' as [| j']; [lia |]. cbn in Hlen.
  destruct j as [| j]; cbn [nth].
  - rewrite Forall_forall in Ha. apply Ha, nth_In. lia.
  - apply IH; lia.
Qed.

Lemma combine_seq_at (l : list T) :
  forall (a i : nat), (i < length l)%nat ->
    In ((a + i)%nat, nth i l 0) (combine (seq a (length l)) l).
Proof.
  induction l as [| x l IH]; intros a i Hi; [cbn in Hi; lia |].
  cbn [length seq combine]. destruct i as [| i].
  - left. now rewrite Nat.add_0_r.
  - right. cbn [nth]. replace (a + S i)%nat with (S a + i)%nat by lia.
    apply IH. cbn in Hi. lia.
Qed.

(** X4.  [SAE.encode] returns, for every token, [k] values and [k] distinct
    positions below [d_sae]; each value is the activation at its position,
    the values come in decreasing order, and no activation that was left
    out is larger than one that was selected. *)
Theorem encode_selects_largest (sae : SAE T) (x : list (list T)) (t : nat) :
  SAE_shapes sae -> (t < length x)%nat ->
  length (nth t (fst (encode sae x)) []) = k sae
  /\ length (nth t (snd (encode sae x)) []) = k sae
  /\ NoDup (nth t (snd (encode sae x)) [])
  /\ (forall i, In i (nth t (snd (encode sae x)) []) -> (i < d_sae sae)%nat)
  /\ nth t (fst (encode sae x)) []
     = map (fun i => nth i (linear (nth t x []) (W_enc sae) (b_enc sae)) 0)
           (nth t (snd (encode sae x)) [])
  /\ (forall j j', (j < j')%nat -> (j' < k sae)%nat ->
        geb (nth j (nth t (fst (encode sae x)) []) 0)
            (nth j' (nth t (fst (encode sae x)) []) 0) = true)
  /\ (forall i j, (i < d_sae sae)%nat -> ~ In i (nth t (snd (encode sae x)) []) ->
        (j < k sae)%nat ->
        geb (nth j (nth t (fst (encode sae x)) []) 0)
            (nth i (linear (nth t x []) (W_enc sae) (b_enc sae)) 0) = true).
Proof.
  intros Hsae Ht.
  rewrite (nth_encode_fst sae x Ht), (nth_encode_snd sae x Ht).
  destruct (encode_row_spec Hsae (nth t x [])) as (Hlen & Hnd & Hin & Hval).
  pose proof (encode_length Hsae (nth t x [])) as Hlv.
  split; [exact Hlv |]. split; [exact Hlen |]. split; [exact Hnd |].
  split; [exact Hin |]. split; [exact Hval |].
  destruct Hsae as ([He _] & Hb & _ & _ & Hk & _).
  set (acts := linear (nth t x []) (W_enc sae) (b_enc sae)) in *.
  assert (Hacts : length acts = d_sae sae) by (unfold acts; rewrite linear_length; lia).
  set (pairs := combine (seq O (length acts)) acts).
  pose proof (sort_desc_sorted pairs) as Hsorted.
  pose proof (sort_desc_perm pairs) as Hperm.
  rewrite <- (firstn_skipn (k sae) (sort_desc pairs)) in Hsorted.
  apply sorted_app in Hsorted. destruct Hsorted as [Hfirst Hcross].
  assert (Hfl : length (firstn (k sae) (sort_desc pairs)) = k sae).
  { rewrite length_firstn, (Permutation_length Hperm). unfold pairs.
    rewrite length_combine, length_seq. lia. }
  assert (Hv : forall j, (j < k sae)%nat ->
            nth j (fst (encode_row sae (nth t x []))) 0
            = snd (nth j (firstn (k sae) (sort_desc pairs)) (O, 0))).
  { intros j Hj. unfold encode_row, topk. cbn [fst]. fold acts. fold pairs.
    apply (@nth_map_lt _ _ snd (firstn (k sae) (sort_desc pairs)) j (O, 0) 0). lia. }
  split.
  - intros j j' Hlt Hj'. rewrite !Hv by lia.
    apply (sorted_nth (O, 0) Hfirst); lia.
  - intros i j Hi Hni Hj. rewrite Hv by lia.
    apply (Hcross (nth j (firstn (k sae) (sort_desc pairs)) (O, 0)) (i, nth i acts 0));
      [apply nth_In; lia |].
    assert (Hp : In (i, nth i acts 0) (sort_desc pairs)).
    { apply (Permutation_in _ (Permutation_sym Hperm)).
      exact (@combine_seq_at acts O i ltac:(lia)). }
    rewrite <- (firstn_skipn (k sae) (sort_desc pairs)) in Hp.
    apply in_app_or in Hp. destruct Hp as [Hp | Hp]; [| exact Hp].
    exfalso. apply Hni. unfold encode_row, topk. cbn [snd]. fold acts. fold pairs.
    apply in_map_iff. exists (i, nth i acts 0). auto.
Qed.

End TopK.

(** *** [SAE.decode], [SAE.forward] and [MLP.forward] *)

(** The zero vector with the latents scattered into it, entry by entry. *)
Lemma scatter_zeros_sum (n : nat) (idx : list nat) (z : list T) (c : nat) :
  NoDup idx -> length z = length idx ->
  (forall i, In i idx -> (i < n)%nat) ->
  nth c (scatter (zeros n) idx z) 0
  = bigsum (length idx) (fun j => nth j z 0 * (if Nat.eqb c (nth j idx O) then 1 else 0)).
Proof.
  intros Hnd Hlen Hin.
  destruct (in_dec Nat.eq_dec c idx) as [Hc | Hc].
  - destruct (In_nth _ _ O Hc) as (j0 & Hj0 & <-).
    rewrite scatter_at by (rewrite ?zeros_length; auto).
    rewrite (@bigsum_ext (length idx) _
               (fun j => if Nat.eqb j j0 then nth j0 z 0 else 0)).
    + now rewrite bigsum_delta.
    + intros j Hj. destruct (Nat.eqb_spec j j0) as [-> | Hne].
      * rewrite Nat.eqb_refl. ring.
      * destruct (Nat.eqb_spec (nth j0 idx O) (nth j idx O)) as [E | _]; [| ring].
        exfalso. apply Hne. symmetry. eapply NoDup_nth; eauto.
  - rewrite scatter_other by exact Hc. rewrite nth_zeros.
    rewrite (@bigsum_ext (length idx) _ (fun _ => 0)); [now rewrite bigsum_zero |].
    intros j Hj. destruct (Nat.eqb_spec c (nth j idx O)) as [-> | _]; [| ring].
    exfalso. apply Hc. now apply nth_In.
Qed.

Lemma decode_row_gathers (sae : SAE T) (z : list T) (idx : list nat) (r : nat) :
  SAE_shapes sae ->
  NoDup idx -> (forall i, In i idx -> (i < d_sae sae)%nat) ->
  length z = length idx -> (r < d_in sae)%nat ->
  nth r (decode_row sae z idx) 0
  = bigsum (length idx) (fun j => nth j z 0 * nth (nth j idx O) (nth r (W_dec sae) []) 0)
    + nth r (b_dec sae) 0.
Proof.
  intros (_ & _ & [HWd _] & Hbd & _) Hnd Hin Hlen Hr.
  unfold decode_row. rewrite nth_linear by lia. f_equal.
  rewrite (@dot_bigsum_n (d_sae sae)) by (now rewrite scatter_length, zeros_length).
  rewrite (@bigsum_ext (d_sae sae) _
             (fun c => bigsum (length idx) (fun j =>
                nth j z 0 * ((if Nat.eqb c (nth j idx O) then 1 else 0)
                             * nth c (nth r (W_dec sae) []) 0)))).
  2: { intros c Hc. rewrite (@scatter_zeros_sum (d_sae sae) idx z c Hnd Hlen Hin).
       transitivity (nth c (nth r (W_dec sae) []) 0
                     * bigsum (length idx) (fun j =>
                         nth j z 0 * (if Nat.eqb c (nth j idx O) then 1 else 0)));
         [ring |].
       rewrite <- bigsum_scale. apply bigsum_ext. intros j _. ring. }
  rewrite bigsum_exchange. apply bigsum_ext. intros j Hj.
  rewrite bigsum_scale. f_equal.
  apply (@bigsum_delta_mul (d_sae sae) (nth j idx O)
           (fun c => nth c (nth r (W_dec sae) []) 0)).
  apply Hin, nth_In, Hj.
Qed.

(** X5.  [SAE.decode] with distinct positions: entry [r] of the decoded
    token is the sum, over the latents of the token, of the latent times
    the entry of [W_dec] in row [r] and the column of its position, plus
    the bias.  Scattering into a zero vector and applying the decoder is
    gathering the decoder columns of the positions. *)
Theorem decode_gathers_decoder_columns (sae : SAE T) (latents : list (list T))
    (indices : list (list nat)) (t r : nat) :
  SAE_shapes sae -> (t < length latents)%nat ->
  NoDup (nth t indices []) ->
  (forall i, In i (nth t indices []) -> (i < d_sae sae)%nat) ->
  length (nth t latents []) = length (nth t indices []) ->
  (r < d_in sae)%nat ->
  nth r (nth t (decode sae latents indices) []) 0
  = bigsum (length (nth t indices []))
      (fun j => nth j (nth t latents []) 0
                * nth (nth j (nth t indices []) O) (nth r (W_dec sae) []) 0)
    + nth r (b_dec sae) 0.
Proof.
  intros Hsae Ht Hnd Hin Hlen Hr.
  rewrite nth_decode by exact Ht. now apply decode_row_gathers.
Qed.

(** X6.  [SAE.forward] returns one reconstructed row of [d_in] entries per
    token, with the positions [encode] selected; entry [r] of the row is
    the bias plus the sum over the [k] selected positions of the
    activation at the position times the decoder weight of [r] and the
    position. *)
Theorem forward_reconstructs_from_selected (sae : SAE T) (x : list (list T)) (t r : nat) :
  SAE_shapes sae -> (t < length x)%nat -> (r < d_in sae)%nat ->
  length (fst (SAE_forward sae x)) = length x
  /\ snd (SAE_forward sae x) = snd (encode sae x)
  /\ length (nth t (fst (SAE_forward sae x)) []) = d_in sae
  /\ nth r (nth t (fst (SAE_forward sae x)) []) 0
     = bigsum (k sae)
         (fun j =>
            nth (nth j (nth t (snd (encode sae x)) []) O)
                (linear (nth t x []) (W_enc sae) (b_enc sae)) 0
            * nth (nth j (nth t (snd (encode sae x)) []) O) (nth r (W_dec sae) []) 0)
       + nth r (b_dec sae) 0.
Proof.
  intros Hsae Ht Hr.
  split; [apply sae_out_length |]. split; [reflexivity |].
  rewrite nth_sae_out by exact Ht. rewrite nth_encode_snd by exact Ht.
  destruct (encode_row_spec Hsae (nth t x [])) as (Hlen & Hnd & Hin & Hval).
  split.
  - destruct Hsae as (_ & _ & [HWd _] & Hbd & _).
    unfold decode_row. rewrite linear_length; lia.
  - rewrite decode_row_gathers; auto.
    + rewrite Hlen. f_equal. apply bigsum_ext. intros j Hj.
      rewrite Hval.
      rewrite (@nth_map_lt _ _
                 (fun i => nth i (linear (nth t x []) (W_enc sae) (b_enc sae)) 0)
                 (snd (encode_row sae (nth t x []))) j O 0) by lia.
      reflexivity.
    + rewrite Hval. apply length_map.
Qed.

(** X7.  With [k = d_sae] the selection keeps every latent, and
    [SAE.forward] is the encoder followed by the decoder. *)
Theorem forward_keeps_all_when_k_is_d_sae (sae : SAE T) (x : list (list T)) (t : nat) :
  SAE_shapes sae -> k sae = d_sae sae -> (t < length x)%nat ->
  nth t (fst (SAE_forward sae x)) []
  = linear (linear (nth t x []) (W_enc sae) (b_enc sae)) (W_dec sae) (b_dec sae).
Proof.
  intros Hsae Hk Ht.
  rewrite nth_sae_out by exact Ht.
  destruct (encode_row_spec Hsae (nth t x [])) as (Hlen & Hnd & Hin & Hval).
  destruct Hsae as ([He _] & Hb & _).
  set (acts := linear (nth t x []) (W_enc sae) (b_enc sae)) in *.
  assert (Hacts : length acts = d_sae sae) by (unfold acts; rewrite linear_length; lia).
  unfold decode_row. f_equal.
  apply (nth_ext _ _ 0 0).
  - now rewrite scatter_length, zeros_length.
  - rewrite scatter_length, zeros_length. intros c Hc.
    assert (Hincl : incl (seq O (d_sae sae)) (snd (encode_row sae (nth t x [])))).
    { apply NoDup_length_incl; [exact Hnd | rewrite length_seq; lia |].
      intros i Hi. apply in_seq. specialize (Hin i Hi). lia. }
    assert (Hcin : In c (snd (encode_row sae (nth t x [])))).
    { apply Hincl, in_seq. lia. }
    destruct (In_nth _ _ O Hcin) as (j & Hj & Hcj).
    rewrite <- Hcj at 1.
    rewrite scatter_at; auto.
    + rewrite Hval.
      rewrite (@nth_map_lt _ _ (fun i => nth i acts 0)
                 (snd (encode_row sae (nth t x []))) j O 0) by lia.
      now rewrite Hcj.
    + rewrite Hval. apply length_map.
    + intros i Hi. rewrite zeros_length. now apply Hin.
Qed.

Lemma map_relu_mask (pre : list T) : map relu pre = vmul (map relu_grad pre) pre.
Proof.
  unfold vmul, zipWith. induction pre as [| p pre IH]; [reflexivity |].
  cbn [map combine fst snd]. rewrite <- IH. f_equal. apply relu_grad_mul.
Qed.

(** X8.  [MLP.forward]: the gradient it returns for a token has one entry
    per neuron, 1 where the pre-activation is positive and 0 elsewhere;
    the output of the token is the output layer applied to the
    pre-activations times this mask; and the output is the same with and
    without [return_grad_of_act]. *)
Theorem mlp_forward_mask (mlp : MLP T) (d_resid d_mlp : nat) (x : list (list T)) (t : nat) :
  MLP_shapes mlp d_resid d_mlp -> (t < length x)%nat ->
  length (nth t (snd (MLP_forward_grad mlp x)) []) = d_mlp
  /\ (forall m, (m < d_mlp)%nat ->
        nth m (nth t (snd (MLP_forward_grad mlp x)) []) 0
        = if ltb 0 (nth m (MLP_pre mlp (nth t x [])) 0) then 1 else 0)
  /\ nth t (fst (MLP_forward_grad mlp x)) []
     = linear (vmul (nth t (snd (MLP_forward_grad mlp x)) []) (MLP_pre mlp (nth t x [])))
              (W_out mlp) (b_out mlp)
  /\ MLP_forward mlp x = fst (MLP_forward_grad mlp x).
Proof.
  intros ([HWi _] & Hbi & _) Ht.
  rewrite nth_mlp_grad, nth_mlp_out by exact Ht. rewrite grad_relu.
  assert (Hpre : length (MLP_pre mlp (nth t x [])) = d_mlp).
  { unfold MLP_pre. rewrite linear_length; lia. }
  split; [now rewrite length_map |]. split; [| split].
  - intros m Hm.
    exact (@nth_map_lt _ _ relu_grad (MLP_pre mlp (nth t x [])) m 0 0 ltac:(lia)).
  - unfold MLP_forward_row. cbn [fst]. now rewrite map_relu_mask.
  - unfold MLP_forward, MLP_forward_grad. cbn [fst]. now rewrite map_map.
Qed.

Lemma contraction_zero_grad (wd1 w2e : list (list T)) (g : list T) (i j : nat) :
  (forall m, (m < length w2e)%nat -> nth m g 0 = 0) ->
  contraction wd1 w2e g i j = 0.
Proof.
  intros Hg. unfold contraction.
  rewrite (@bigsum_ext _ _ (fun _ => 0)); [apply bigsum_zero |].
  intros m Hm. rewrite (Hg m Hm). ring.
Qed.

(** X9.  On a token at which no neuron of the MLP is active, both Jacobian
    functions return a block of zeros. *)
Theorem inactive_mlp_gives_zero_jacobian (sae : SAE T) (mlp : MLP T) (d_mlp : nat)
    (resid_values : list (list T)) (t input_k output_k : nat) :
  SAE_shapes sae -> MLP_shapes mlp (d_in sae) d_mlp ->
  (t < length resid_values)%nat -> (input_k < k sae)%nat -> (output_k < k sae)%nat ->
  Forall (fun p => ltb 0 p = false)
         (MLP_pre mlp (nth t (fst (SAE_forward sae resid_values)) [])) ->
  get3 (get_jacobian_fast (wd1_of sae mlp) (w2e_of sae mlp) sae mlp resid_values)
       t output_k input_k = 0
  /\ get3 (get_jacobian_slow sae mlp resid_values) t input_k output_k = 0.
Proof.
  intros Hsae Hmlp Ht Hin Hout Hdead.
  assert (Hw : length (w2e_of sae mlp) = d_mlp) by exact (w2e_length Hsae Hmlp).
  assert (Hpos : (0 < d_mlp)%nat) by (now destruct Hmlp as (_ & _ & _ & _ & Hpos)).
  rewrite nth_sae_out in Hdead by exact Ht.
  assert (Hz : forall m, (m < length (w2e_of sae mlp))%nat ->
            nth m (snd (MLP_forward_row mlp
                     (decode_row sae (fst (encode_row sae (nth t resid_values [])))
                                     (snd (encode_row sae (nth t resid_values []))))))
                0 = 0).
  { intros m Hm. rewrite grad_relu.
    destruct (Nat.lt_ge_cases m
                (length (MLP_pre mlp
                   (decode_row sae (fst (encode_row sae (nth t resid_values [])))
                                   (snd (encode_row sae (nth t resid_values []))))))) as [Hl | Hl].
    - rewrite (@nth_map_lt _ _ relu_grad _ m 0 0 Hl).
      rewrite Forall_forall in Hdead. unfold relu_grad.
      now rewrite (Hdead _ (nth_In _ 0 Hl)).
    - apply nth_overflow. now rewrite length_map. }
  split.
  - unfold get3. rewrite (fast_entry _ _ _ Hsae Hmlp); try assumption; [| lia].
    now apply contraction_zero_grad.
  - rewrite slow_entry_at by assumption. now apply contraction_zero_grad.
Qed.

(** *** The folded weights [wd1] and [w2e] *)

Lemma matmul_transposes_shape (A B : list (list T)) (p q r : nat) :
  has_shape A p q -> has_shape B r p -> (0 < p)%nat -> (0 < r)%nat ->
  has_shape (matmul (transpose A) (transpose B)) q r.
Proof.
  intros HA HB Hp Hr. unfold matmul. split.
  - rewrite length_map. exact (transpose_length HA Hp).
  - apply Forall_map, Forall_forall. intros row _. rewrite length_map.
    exact (transpose_length (transpose_shape HB Hr) Hp).
Qed.

(** X10.  The globals [wd1] and [w2e] have the shapes the notebook notes
    beside them, (d_sae, d_mlp) and (d_mlp, d_sae); [wd1[i, m]] is the dot
    product of column [i] of [W_dec] with row [m] of [W_in], and
    [w2e[m, j]] the dot product of column [m] of [W_out] with row [j] of
    [W_enc]. *)
Theorem folded_weights (sae : SAE T) (mlp : MLP T) (d_mlp : nat) :
  SAE_shapes sae -> MLP_shapes mlp (d_in sae) d_mlp ->
  has_shape (wd1_of sae mlp) (d_sae sae) d_mlp
  /\ has_shape (w2e_of sae mlp) d_mlp (d_sae sae)
  /\ (forall i m, (i < d_sae sae)%nat -> (m < d_mlp)%nat ->
        nth m (nth i (wd1_of sae mlp) []) 0
        = bigsum (d_in sae) (fun s => nth i (nth s (W_dec sae) []) 0
                                     * nth s (nth m (W_in mlp) []) 0))
  /\ (forall m j, (m < d_mlp)%nat -> (j < d_sae sae)%nat ->
        nth j (nth m (w2e_of sae mlp) []) 0
        = bigsum (d_in sae) (fun r => nth m (nth r (W_out mlp) []) 0
                                     * nth r (nth j (W_enc sae) []) 0)).
Proof.
  intros (HWe & _ & HWd & _ & _ & Hin & Hds) (HWi & _ & HWo & _ & Hpos).
  unfold wd1_of, w2e_of.
  split; [exact (matmul_transposes_shape HWd HWi Hin Hpos) |].
  split; [exact (matmul_transposes_shape HWo HWe Hin Hds) |].
  split.
  - intros i m Hi Hm. eapply matmul_transposes; eauto.
  - intros m j Hm Hj. eapply matmul_transposes; eauto.
Qed.

End Algebra.

(** ** The two Jacobian functions *)

(** C1.  [get_jacobian_fast] does not return the tensor of
    [get_jacobian_slow]: on the SAE [sae2] (two latents, both active),
    the MLP [mlp1] and the one-token batch [input1], the slow function
    returns [[2, 1], [2, 1]] for the token and the fast one its transpose
    [[2, 2], [1, 1]].  The entries at [0, 0, 1] are 1 and 2, further apart
    than the tolerance of the [torch.allclose] that follows the two
    functions. *)
Theorem jacobian_fast_differs_from_slow :
  get_jacobian_slow sae2 mlp1 input1 = [[[2; 1]; [2; 1]]]%Z
  /\ get_jacobian_fast (wd1_of sae2 mlp1) (w2e_of sae2 mlp1) sae2 mlp1 input1
     = [[[2; 2]; [1; 1]]]%Z
  /\ get_jacobian_fast (wd1_of sae2 mlp1) (w2e_of sae2 mlp1) sae2 mlp1 input1
     <> get_jacobian_slow sae2 mlp1 input1.
Proof.
  split; [vm_compute; reflexivity |].
  split; [vm_compute; reflexivity |].
  vm_compute. discriminate.
Qed.

(** ** The einsum of [get_jacobian_fast] and the derivative *)

Section Derivative.
Variables (sae : SAE R) (mlp : MLP R) (d_mlp : nat).
Hypothesis Hsae : SAE_shapes sae.
Hypothesis Hmlp : MLP_shapes mlp (d_in sae) d_mlp.
Variables (idx : list nat) (z0 : list R) (a b : nat).
Hypothesis Hnd : NoDup idx.
Hypothesis Hidx : forall i, In i idx -> (i < d_sae sae)%nat.
Hypothesis Hz0 : length z0 = length idx.
Hypothesis Ha : (a < length idx)%nat.
Hypothesis Hb : (b < k sae)%nat.

(** The latent [b] of the output, as a function of the perturbation of the
    latent [a] of the input. *)
Let f (h : R) : R := nth b (fst (sandwich_row sae mlp idx (perturb z0 a h))) 0%R.

Lemma perturb_close (eps h : R) (c : nat) :
  (0 < eps)%R -> (Rabs h < eps)%R ->
  (Rabs (nth c (perturb z0 a h) 0 - nth c z0 0) < eps)%R.
Proof.
  intros Heps Hh.
  pose proof (@nth_perturb R RScalar RTheory z0 a c h) as Hn.
  cbn in Hn. rewrite Hn by lia.
  destruct (c =? a)%nat.
  - replace (nth c z0 0 + h - nth c z0 0)%R with h by ring. exact Hh.
  - replace (nth c z0 0 + 0 - nth c z0 0)%R with 0%R by ring.
    now rewrite Rabs_R0.
Qed.

Lemma output_latent (z : list R) :
  snd (sandwich_row sae mlp idx z) = snd (sandwich_row sae mlp idx z0) ->
  nth b (fst (sandwich_row sae mlp idx z)) 0%R
  = nth (nth b (snd (sandwich_row sae mlp idx z0)) O) (sandwich_acts sae mlp idx z) 0%R.
Proof.
  intros Hsel. unfold sandwich_row in *.
  destruct (encode_row_spec Hsae (fst (MLP_forward_row mlp (decode_row sae z idx))))
    as (Hlen & _ & _ & Hval).
  rewrite Hval. rewrite Hsel in Hlen |- *.
  unfold sandwich_acts.
  apply (@nth_map_lt _ _
           (fun i => nth i (linear (fst (MLP_forward_row mlp (decode_row sae z idx)))
                                   (W_enc sae) (b_enc sae)) 0%R)
           (snd (encode_row sae (fst (MLP_forward_row mlp (decode_row sae z0 idx)))))
           b O 0%R).
  lia.
Qed.

Lemma regime_derivative :
  locally_constant sae mlp idx z0 ->
  derivable_pt_lim f 0
    (contraction (wd1_of sae mlp) (w2e_of sae mlp)
       (map relu_grad (MLP_pre mlp (decode_row sae z0 idx)))
       (nth a idx O) (nth b (snd (sandwich_row sae mlp idx z0)) O)).
Proof.
  intros (eps0 & Heps0 & Hloc) eps Heps.
  exists (mkposreal eps0 Heps0). cbn [pos]. intros h Hh Hsmall.
  assert (Hreg : forall u, (Rabs u < eps0)%R ->
            same_regime sae mlp idx z0 (perturb z0 a u)).
  { intros u Hu. apply Hloc; [apply perturb_length |].
    intros c. now apply perturb_close. }
  assert (Hj : (nth b (snd (sandwich_row sae mlp idx z0)) O < d_sae sae)%nat).
  { unfold sandwich_row.
    destruct (encode_row_spec Hsae (fst (MLP_forward_row mlp (decode_row sae z0 idx))))
      as (Hlen & _ & Hin & _).
    apply Hin, nth_In. lia. }
  assert (Hf : forall u, (Rabs u < eps0)%R ->
            f u = (nth (nth b (snd (sandwich_row sae mlp idx z0)) O)
                       (sandwich_acts sae mlp idx z0) 0
                   + u * contraction (wd1_of sae mlp) (w2e_of sae mlp)
                           (map relu_grad (MLP_pre mlp (decode_row sae z0 idx)))
                           (nth a idx O)
                           (nth b (snd (sandwich_row sae mlp idx z0)) O))%R).
  { intros u Hu. destruct (Hreg u Hu) as [Hsel Hpat].
    unfold f. rewrite (output_latent _ Hsel).
    exact (@sandwich_acts_affine R RScalar RTheory sae mlp d_mlp Hsae Hmlp idx z0 a u
             Hnd Hidx Hz0 Ha Hpat _ Hj). }
  rewrite (Hf (0 + h)%R) by (now rewrite Rplus_0_l).
  rewrite (Hf 0%R) by (now rewrite Rabs_R0).
  match goal with
  | |- (Rabs ((?v + (0 + h) * ?c - (?v + 0 * ?c)) / h - ?c) < eps)%R =>
      replace ((v + (0 + h) * c - (v + 0 * c)) / h - c)%R with 0%R by (field; exact Hh)
  end.
  now rewrite Rabs_R0.
Qed.

End Derivative.

(** C2.  At every token position [t], for every active output latent
    [output_k] and active input latent [input_k]: when the selection of the
    second encoding and the ReLU pattern of the MLP are locally constant at
    the latents of the token (the selection of the first encoding is the
    one [decode] is given, and is held fixed), the entry
    [output_k, input_k] of the tensor [get_jacobian_fast] returns is the
    partial derivative of the output latent [output_k] of the composed map
    decode, MLP, encode with respect to the input latent [input_k].
    Tensors are over the real numbers. *)
Theorem fast_jacobian_is_derivative (sae : SAE R) (mlp : MLP R) (d_mlp : nat)
    (resid_values : list (list R)) (t output_k input_k : nat) :
  SAE_shapes sae ->
  MLP_shapes mlp (d_in sae) d_mlp ->
  (t < length resid_values)%nat ->
  (output_k < k sae)%nat ->
  (input_k < k sae)%nat ->
  locally_constant sae mlp (snd (encode_row sae (nth t resid_values [])))
                           (fst (encode_row sae (nth t resid_values []))) ->
  derivable_pt_lim
    (fun h : R =>
       nth output_k
           (fst (sandwich_row sae mlp
                   (snd (encode_row sae (nth t resid_values [])))
                   (perturb (fst (encode_row sae (nth t resid_values []))) input_k h)))
           0%R)
    0
    (nth input_k
         (nth output_k
              (nth t (get_jacobian_fast (wd1_of sae mlp) (w2e_of sae mlp)
                                        sae mlp resid_values) []) [])
         0%R).
Proof.
  intros Hsae Hmlp Ht Hout Hin Hloc.
  destruct (encode_row_spec Hsae (nth t resid_values [])) as (Hlen & Hnd & Hidx & Hval).
  pose proof (@fast_entry R RScalar sae mlp d_mlp (wd1_of sae mlp) (w2e_of sae mlp)
                resid_values t output_k input_k Hsae Hmlp) as Hentry.
  rewrite (w2e_length Hsae Hmlp) in Hentry.
  destruct Hmlp as (HWi & Hbi & HWo & Hbo & Hpos).
  specialize (Hentry Hpos Ht Hout Hin).
  rewrite (@grad_relu R RScalar RTheory) in Hentry.
  cbn [zero RScalar] in Hentry. rewrite Hentry.
  apply (@regime_derivative sae mlp d_mlp Hsae
           (conj HWi (conj Hbi (conj HWo (conj Hbo Hpos))))); auto.
  - rewrite Hval, length_map. reflexivity.
  - lia.
Qed.

Lemma fast_jacobian_is_derivative_witness :
  derivable_pt_lim
    (fun h : R =>
       nth 0 (fst (sandwich_row sae_unit mlp_unit
                     (snd (encode_row sae_unit (nth 0 input_unit [])))
                     (perturb (fst (encode_row sae_unit (nth 0 input_unit []))) 0 h)))
           0%R)
    0
    (nth 0 (nth 0 (nth 0 (get_jacobian_fast (wd1_of sae_unit mlp_unit)
                                            (w2e_of sae_unit mlp_unit)
                                            sae_unit mlp_unit input_unit) []) [])
         0%R).
Proof.
  apply (@fast_jacobian_is_derivative sae_unit mlp_unit 1 input_unit 0 0 0).
  - unfold SAE_shapes, has_shape. cbn. repeat split; auto.
  - unfold MLP_shapes, has_shape. cbn. repeat split; auto.
  - cbn. lia.
  - cbn. lia.
  - cbn. lia.
  - exists 1%R. split; [exact Rlt_0_1 |].
    intros z Hlen Hclose. cbn in Hlen.
    destruct z as [| z0 [| ? ?]]; try discriminate Hlen.
    specialize (Hclose O). cbn in Hclose.
    apply Rabs_def2 in Hclose. destruct Hclose as [Hup Hlow].
    split; [reflexivity |].
    cbn. unfold Rltb.
    destruct (Rlt_dec 0 ((z0 * 1 + 0 + 0) * 1 + 0 + 0)) as [_ | Hn];
      [| exfalso; apply Hn; lra].
    destruct (Rlt_dec 0 (((1 * 1 + 0 + 0) * 1 + 0 + 0) * 1 + 0 + 0)) as [_ | Hn];
      [reflexivity | exfalso; apply Hn; lra].
Defined.

(** ** The further properties on the integer model *)

Ltac shapes :=
  unfold SAE_shapes, MLP_shapes, has_shape; cbn; repeat split; repeat constructor; lia.

Lemma Z_ltb_asym (x y : Z) : ltb x y = true -> ltb y x = false.
Proof. cbn. intros H. apply Z.ltb_lt in H. apply Z.ltb_ge. lia. Defined.

Lemma Z_geb_trans (x y z : Z) : geb x y = true -> geb y z = true -> geb x z = true.
Proof.
  unfold geb. cbn. rewrite !negb_true_iff, !Z.ltb_ge. lia.
Defined.

Lemma get_jacobian_slow_spec_witness :
  dims3 (get_jacobian_slow sae2 mlp1 input1) 1 2 2
  /\ get3 (get_jacobian_slow sae2 mlp1 input1) 0 0 1 = 1%Z.
Proof.
  destruct (@get_jacobian_slow_spec Z ZScalar Zth sae2 mlp1 input1) as [Hd He].
  split; [exact Hd |].
  etransitivity; [apply He; cbn; lia | reflexivity].
Defined.

Lemma jacobian_einsum_spec_witness :
  get3 (jacobian_einsum [[1]; [1]]%Z [[1; 2]]%Z [[0; 0]]%nat [[1]]%Z [[1; 1]]%nat) 0 1 0
  = 2%Z.
Proof.
  destruct (@jacobian_einsum_spec Z ZScalar [[1]; [1]]%Z [[1; 2]]%Z [[1]]%Z
              [[0; 0]]%nat [[1; 1]]%nat 1 2 2 1) as [_ He].
  - shapes.
  - shapes.
  - shapes.
  - lia.
  - reflexivity.
  - reflexivity.
  - intros [| s] Hs; [reflexivity | lia].
  - intros [| s] Hs; [reflexivity | lia].
  - intros [| [| s]] i; cbn; intros H; try tauto; lia.
  - intros [| [| s]] i; cbn; intros H; try tauto; lia.
  - etransitivity; [apply He; lia | reflexivity].
Defined.

Lemma fast_is_slow_with_axes_exchanged_witness :
  get3 (get_jacobian_fast (wd1_of sae2 mlp1) (w2e_of sae2 mlp1) sae2 mlp1 input1) 0 1 0
  = get3 (get_jacobian_slow sae2 mlp1 input1) 0 0 1.
Proof.
  destruct (@fast_is_slow_with_axes_exchanged Z ZScalar Zth sae2 mlp1 1 input1)
    as [_ He]; [shapes | shapes |].
  apply He; cbn; lia.
Defined.

Lemma encode_selects_largest_witness :
  geb (nth 0 (nth 0 (fst (encode sae2 input1)) []) 0%Z)
      (nth 1 (nth 0 (fst (encode sae2 input1)) []) 0%Z) = true.
Proof.
  destruct (@encode_selects_largest Z ZScalar Z_ltb_asym Z_geb_trans sae2 input1 0)
    as (_ & _ & _ & _ & _ & Hdesc & _); [shapes | cbn; lia |].
  apply Hdesc; cbn; lia.
Defined.

Lemma decode_gathers_decoder_columns_witness :
  nth 0 (nth 0 (decode sae2 [[2; 1]]%Z [[1; 0]]%nat) []) 0%Z = 3%Z.
Proof.
  etransitivity;
    [apply (@decode_gathers_decoder_columns Z ZScalar Zth sae2
              [[2; 1]]%Z [[1; 0]]%nat 0 0) | reflexivity].
  - shapes.
  - cbn; lia.
  - cbn. repeat constructor; cbn; intuition lia.
  - cbn. intros i [<- | [<- | []]]; lia.
  - reflexivity.
  - cbn; lia.
Defined.

Lemma forward_reconstructs_from_selected_witness :
  nth 0 (nth 0 (fst (SAE_forward sae2 input1)) []) 0%Z = 3%Z.
Proof.
  destruct (@forward_reconstructs_from_selected Z ZScalar Zth sae2 input1 0 0)
    as (_ & _ & _ & He); [shapes | cbn; lia | cbn; lia |].
  etransitivity; [apply He | reflexivity].
Defined.

Lemma forward_keeps_all_when_k_is_d_sae_witness :
  nth 0 (fst (SAE_forward sae2 input1)) []
  = linear (linear (nth 0 input1 []) (W_enc sae2) (b_enc sae2)) (W_dec sae2) (b_dec sae2).
Proof.
  apply (@forward_keeps_all_when_k_is_d_sae Z ZScalar sae2 input1 0);
    [shapes | reflexivity | cbn; lia].
Defined.

Lemma mlp_forward_mask_witness :
  nth 0 (nth 0 (snd (MLP_forward_grad mlp1 input1)) []) 0%Z = 1%Z
  /\ MLP_forward mlp1 input1 = fst (MLP_forward_grad mlp1 input1).
Proof.
  destruct (@mlp_forward_mask Z ZScalar Zth mlp1 1 1 input1 0)
    as (_ & Hm & _ & Hf); [shapes | cbn; lia |].
  split; [| exact Hf].
  etransitivity; [apply Hm; lia | reflexivity].
Defined.

Lemma inactive_mlp_gives_zero_jacobian_witness :
  get3 (get_jacobian_fast (wd1_of sae2 mlp1) (w2e_of sae2 mlp1) sae2 mlp1 input_neg) 0 1 0
  = 0%Z
  /\ get3 (get_jacobian_slow sae2 mlp1 input_neg) 0 0 1 = 0%Z.
Proof.
  apply (@inactive_mlp_gives_zero_jacobian Z ZScalar Zth sae2 mlp1 1 input_neg 0 0 1);
    [shapes | shapes | cbn; lia | cbn; lia | cbn; lia |].
  repeat constructor.
Defined.

Lemma folded_weights_witness :
  has_shape (wd1_of sae2 mlp1) 2 1 /\ has_shape (w2e_of sae2 mlp1) 1 2.
Proof.
  destruct (@folded_weights Z ZScalar Zth sae2 mlp1 1) as (H1 & H2 & _);
    [shapes | shapes |].
  split; [exact H1 | exact H2].
Defined.

End TensorProofs.

(* ================================================================== *)
(** ** MLPWithActGrads against the TransformerLens MLP *)
(* ================================================================== *)

Module ActGradsProofs.
Import Tensor ActGrads.

Section Refinement.
Context {T : Type} {ST : Scalar T}.

Lemma zipWith_map_l {X Y Z : Type} (h : Y -> X -> Z) (k : X -> Y) (l : list X) :
  zipWith h (map k l) l = map (fun x => h (k x) x) l.
Proof.
  unfold zipWith. induction l as [| x l IH]; cbn; [reflexivity | now rewrite IH].
Qed.

Lemma map_ext_eq {X Y : Type} (f g : X -> Y) (l : list X) :
  (forall x, f x = g x) -> map f l = map g l.
Proof. intros H. induction l as [| x l IH]; cbn; [reflexivity | now rewrite H, IH]. Qed.

(** With gradients [1] on the output, the backward function of an
    elementwise activation gives its derivative at each entry. *)
Lemma autograd_ones_elementwise (f f' : T -> T) (pre_act : tensor3 T) :
  (forall y : T, mul one y = y) ->
  autograd_grad3 (elementwise f f') pre_act
    (ones_like3 (apply_act (elementwise f f') pre_act))
  = map3 f' pre_act.
Proof.
  intros Hone.
  unfold autograd_grad3, ones_like3, apply_act, map3, elementwise. cbn [act act_vjp].
  rewrite !map_map. rewrite zipWith_map_l. apply map_ext_eq. intros rows.
  rewrite !map_map. rewrite zipWith_map_l. apply map_ext_eq. intros row.
  unfold autograd_grad_elementwise. rewrite !map_map.
  rewrite zipWith_map_l. apply map_ext_eq. intros y. apply Hone.
Qed.

Lemma forward_of_original (original : TL_MLP T) (x : tensor3 T) :
  hook_pre original = fresh_HookPoint ->
  hook_post original = fresh_HookPoint ->
  is_layer_norm_activation (cfg original) = false ->
  TL_MLP_forward original x
  = batch_addmm (b_out (params original)) (W_out (params original))
      (apply_act (act_fn original)
         (batch_addmm (b_in (params original)) (W_in (params original)) x)).
Proof.
  intros Hpre Hpost Hln. unfold TL_MLP_forward. rewrite Hln, Hpre, Hpost. reflexivity.
Qed.

(** C10, as stated, at a module with a layer-norm activation: the copy
    with gradients raises [NotImplementedError] where the original module
    returns its output. *)
Lemma act_grads_refuses_layer_norm_activation :
  MLPWithActGrads_forward (mlp_with_grads_of original_ln_act sd0) x3 true
  = NotImplementedError
  /\ MLPWithActGrads_forward (mlp_with_grads_of original_ln_act sd0) x3 false
     = NotImplementedError
  /\ TL_MLP_forward original_ln_act x3 = [[[0%Z]; [0%Z]]].
Proof. repeat split. Qed.

(** C10, amended.  Let [mlp_with_grads] be built from the configuration of
    an original module without hooks and loaded with its parameters.
    When the configuration has no layer-norm activation,
    [forward(x)] returns the output of the original module, and
    [forward(x, return_act_grads=True)] returns that output with a second
    tensor, which for an elementwise activation is its derivative at each
    pre-activation.  When the configuration has a layer-norm activation,
    [forward] raises [NotImplementedError]. *)
Theorem act_grads_forward_refines (original : TL_MLP T) (init : StateDict T)
    (x : tensor3 T) (return_act_grads : bool)
    (Hpre : hook_pre original = fresh_HookPoint)
    (Hpost : hook_post original = fresh_HookPoint) :
  (is_layer_norm_activation (cfg original) = false ->
     MLPWithActGrads_forward (mlp_with_grads_of original init) x false
     = Output (TL_MLP_forward original x)
     /\ exists grad_of_act,
          MLPWithActGrads_forward (mlp_with_grads_of original init) x true
          = OutputWithGrads (TL_MLP_forward original x) grad_of_act
          /\ forall f f',
               cfg_act_fn (cfg original) = elementwise f f' ->
               (forall y : T, mul one y = y) ->
               grad_of_act = map3 f' (pre_act_of (mlp_with_grads_of original init) x))
  /\ (is_layer_norm_activation (cfg original) = true ->
      MLPWithActGrads_forward (mlp_with_grads_of original init) x return_act_grads
      = NotImplementedError).
Proof.
  split.
  - intros Hln. rewrite (@forward_of_original original x Hpre Hpost Hln).
    unfold MLPWithActGrads_forward, mlp_with_grads_of, load_state_dict, TL_MLP_new,
      state_dict, pre_act_of, act_fn.
    cbn [cfg params hook_pre hook_post hook_mid ln]. rewrite Hln. cbn [andb is_some].
    unfold fresh_HookPoint. split; [reflexivity |].
    eexists. split; [reflexivity |].
    intros f f' Hact Hone. rewrite Hact. now apply autograd_ones_elementwise.
  - intros Hln.
    unfold MLPWithActGrads_forward, mlp_with_grads_of, load_state_dict, TL_MLP_new.
    cbn [cfg params hook_pre hook_post hook_mid ln]. rewrite Hln. reflexivity.
Qed.

End Refinement.

Lemma act_grads_forward_refines_witness :
  MLPWithActGrads_forward (mlp_with_grads_of original_relu sd0) x3 false
  = Output (TL_MLP_forward original_relu x3)
  /\ MLPWithActGrads_forward (mlp_with_grads_of original_relu sd0) x3 true
     = OutputWithGrads (TL_MLP_forward original_relu x3)
         (map3 relu_grad (pre_act_of (mlp_with_grads_of original_relu sd0) x3)).
Proof.
  destruct (@act_grads_forward_refines Z ZScalar original_relu sd0 x3 true eq_refl eq_refl)
    as [H _].
  destruct (H eq_refl) as (H1 & g & H2 & H3).
  split; [exact H1 |].
  rewrite H2. f_equal.
  apply (H3 relu relu_grad eq_refl). intros y. destruct y; reflexivity.
Defined.

(** *** The shapes of the output and of the gradient *)

Section Shapes.
Context {T : Type} {ST : Scalar T}.

Lemma shape3_map (g : list T -> list T) (x : tensor3 T) (batch pos d d' : nat) :
  (forall row, length row = d -> length (g row) = d') ->
  shape3 x batch pos d -> shape3 (map (map g) x) batch pos d'.
Proof.
  intros Hg [Hb Hx]. split; [now rewrite length_map |].
  apply Forall_map. eapply Forall_impl; [| exact Hx].
  intros m [Hp Hm]. split; [now rewrite length_map |].
  apply Forall_map. eapply Forall_impl; [| exact Hm]. exact Hg.
Qed.

Lemma addmm_row_length (bias : list T) (weight : list (list T)) (x : list T)
    (d_in d_out : nat) :
  ToyModel.has_shape weight d_in d_out -> length bias = d_out -> (0 < d_in)%nat ->
  length (addmm_row bias weight x) = d_out.
Proof.
  intros Hw Hb Hpos. unfold addmm_row, vadd.
  rewrite TensorProofs.zipWith_length, length_map.
  rewrite (TensorProofs.transpose_length Hw Hpos). lia.
Qed.

(** X11.  [MLPWithActGrads.forward] with [return_act_grads=True], for an
    elementwise activation and no layer-norm activation: for an input of
    shape (batch, pos, d_model) the output has shape (batch, pos, d_model)
    and the gradient has the shape (batch, pos, d_mlp) of the
    pre-activations. *)
Theorem act_grads_shapes (original : TL_MLP T) (init : StateDict T) (x : tensor3 T)
    (f f' : T -> T) (batch pos d_model d_mlp : nat) :
  cfg_act_fn (cfg original) = elementwise f f' ->
  is_layer_norm_activation (cfg original) = false ->
  (forall y : T, mul one y = y) ->
  ToyModel.has_shape (W_in (params original)) d_model d_mlp ->
  length (b_in (params original)) = d_mlp ->
  ToyModel.has_shape (W_out (params original)) d_mlp d_model ->
  length (b_out (params original)) = d_model ->
  (0 < d_model)%nat -> (0 < d_mlp)%nat ->
  shape3 x batch pos d_model ->
  exists output grad_of_act,
    MLPWithActGrads_forward (mlp_with_grads_of original init) x true
    = OutputWithGrads output grad_of_act
    /\ shape3 output batch pos d_model
    /\ shape3 grad_of_act batch pos d_mlp.
Proof.
  intros Hact Hln Hone HWi Hbi HWo Hbo Hd Hm Hx.
  unfold MLPWithActGrads_forward, mlp_with_grads_of, load_state_dict, TL_MLP_new,
    state_dict, act_fn.
  cbn [cfg params hook_pre hook_post hook_mid ln]. rewrite Hln. cbn [andb].
  unfold fresh_HookPoint. rewrite Hact.
  rewrite (autograd_ones_elementwise f f' _ Hone).
  eexists. eexists. split; [reflexivity |].
  assert (Hpre : shape3 (batch_addmm (b_in (params original)) (W_in (params original)) x)
                        batch pos d_mlp).
  { unfold batch_addmm. eapply shape3_map; [| exact Hx].
    intros row _. now apply (@addmm_row_length _ _ _ d_model d_mlp). }
  split.
  - unfold batch_addmm at 1.
    apply (@shape3_map _ _ batch pos d_mlp d_model).
    + intros row _. now apply (@addmm_row_length _ _ _ d_mlp d_model).
    + unfold apply_act, elementwise. cbn [act].
      eapply shape3_map; [| exact Hpre]. intros row Hrow. now rewrite length_map.
  - unfold map3. eapply shape3_map; [| exact Hpre].
    intros row Hrow. now rewrite length_map.
Qed.

End Shapes.

Lemma act_grads_shapes_witness :
  exists output grad_of_act,
    MLPWithActGrads_forward (mlp_with_grads_of original_relu sd0) x3 true
    = OutputWithGrads output grad_of_act
    /\ shape3 output 1 2 1
    /\ shape3 grad_of_act 1 2 2.
Proof.
  apply (@act_grads_shapes Z ZScalar original_relu sd0 x3 relu relu_grad 1 2 1 2).
  - reflexivity.
  - reflexivity.
  - intros y. destruct y; reflexivity.
  - unfold ToyModel.has_shape. cbn. repeat split; repeat constructor.
  - reflexivity.
  - unfold ToyModel.has_shape. cbn. repeat split; repeat constructor.
  - reflexivity.
  - lia.
  - lia.
  - unfold shape3. cbn. repeat split; repeat constructor.
Defined.

End ActGradsProofs.

(* ================================================================== *)
(** ** extract_args: the parser and the printed command *)
(* ================================================================== *)

Module ExtractArgsProofs.
Import ExtractArgs.
#[local] Open Scope string_scope.

(** Induction on a list with the hypothesis for the tail and for the tail
    of the tail, as [parse_loop] recurses. *)
Lemma list_ind_tail {X : Type} (P : list X -> Prop) :
  P [] ->
  (forall x l, P l -> (forall y l', l = y :: l' -> P l') -> P (x :: l)) ->
  forall l, P l.
Proof.
  intros Hnil Hcons l.
  assert (H : P l /\ (forall y l', l = y :: l' -> P l')).
  { induction l as [| x l [IH1 IH2]].
    - split; [exact Hnil | discriminate].
    - split.
      + apply Hcons; assumption.
      + intros y l' [= _ <-]. exact IH1. }
  exact (proj1 H).
Qed.

(** *** [parse_loop] runs the steps of [plan] *)

Lemma parse_loop_plan (after : option (list string)) (l : list (string * cls)) :
  forall st,
    parse_loop l after st = then_rest (exec_steps (fst (plan l)) st) (snd (plan l)) after.
Proof.
  induction l as [| [s c] rest IH IH'] using list_ind_tail; intros st.
  - reflexivity.
  - cbn [parse_loop plan].
    destruct (negb (has_option ((s, c) :: rest))); [reflexivity |].
    destruct c as [| [a |] os e].
    + cbn [fst snd exec_steps exec_step].
      destruct (positionals st) as [| p ps].
      * apply IH.
      * destruct (take_action p [s] st) as [x | st']; [reflexivity | apply IH].
    + destruct (match e with
                | Some e0 => explicit_chain a (is_long os) e0 []
                | None => inr ([], no_explicit a)
                end) as [err | [tuples [| a']]].
      * reflexivity.
      * cbn [fst snd exec_steps exec_step].
        destruct (take_actions tuples st) as [x | st']; [reflexivity | apply IH].
      * destruct (nargs a').
        -- cbn [fst snd exec_steps exec_step].
           destruct (take_actions _ st) as [x | st']; [reflexivity | apply IH].
        -- destruct rest as [| [arg [| a0 os0 e0]] rest']; try reflexivity.
           cbn [fst snd exec_steps exec_step].
           destruct (take_actions _ st) as [x | st']; [reflexivity |].
           eapply IH'. reflexivity.
    + cbn [fst snd exec_steps exec_step]. apply IH.
Qed.

(** *** The pattern of a command line *)

Lemma classify_strings (arg_strings : list string) :
  forall p, classify arg_strings = inr p ->
  strings_of (before p) (after p) = arg_strings.
Proof.
  induction arg_strings as [| s rest IH]; intros p H; cbn in H.
  - injection H as <-. reflexivity.
  - destruct (String.eqb s "--") eqn:Hs.
    + injection H as <-. apply String.eqb_eq in Hs. subst s. reflexivity.
    + destruct (parse_optional s);
        destruct (classify rest) as [e | q]; try discriminate;
        injection H as <-; cbn; f_equal; apply IH; reflexivity.
Qed.

Lemma classify_no_dashes (arg_strings : list string) :
  forall p, classify arg_strings = inr p ->
  forall s c, In (s, c) (before p) -> s <> "--".
Proof.
  induction arg_strings as [| s rest IH]; intros p H s' c' Hin; cbn in H.
  - injection H as <-. destruct Hin.
  - destruct (String.eqb s "--") eqn:Hs.
    + injection H as <-. destruct Hin.
    + apply String.eqb_neq in Hs.
      destruct (parse_optional s);
        destruct (classify rest) as [e | q]; try discriminate;
        injection H as <-; cbn in Hin;
        (destruct Hin as [[= <- <-] | Hin]; [exact Hs | eapply IH; eauto]).
Qed.

Lemma classify_actions (arg_strings : list string) :
  forall p, classify arg_strings = inr p ->
  actions_of (before p) = recognized arg_strings.
Proof.
  induction arg_strings as [| s rest IH]; intros p H; cbn in H |- *.
  - injection H as <-. reflexivity.
  - destruct (String.eqb s "--").
    + injection H as <-. reflexivity.
    + destruct (parse_optional s) as [| [a |] os e |];
        destruct (classify rest) as [e' | q]; try discriminate;
        injection H as <-; cbn; try f_equal; apply IH; reflexivity.
Qed.

Lemma table_lookup (p : string * action) :
  In p option_string_actions -> lookup (fst p) option_string_actions = Some (snd p).
Proof.
  cbn. intros H.
  repeat (destruct H as [<- | H]; [reflexivity |]).
  destruct H.
Qed.

Lemma get_option_tuples_lookup (s : string) (a : action) (os : string) (e : option string) :
  In (a, os, e) (get_option_tuples s) -> lookup os option_string_actions = Some a.
Proof.
  unfold get_option_tuples.
  destruct s as [| c0 [| c1 tl]]; [intros [] | intros [] |].
  destruct (Ascii.eqb_spec c1 "-") as [-> | Hc1].
  - intros H. apply in_flat_map in H. destruct H as (p & Hp & H).
    destruct (startswith (fst p) _); [| destruct H].
    destruct H as [[= <- <- <-] | []]. now apply table_lookup.
  - assert (Hgoal : forall l : list (action * string * option string),
              l = flat_map (fun p : string * action =>
                     if String.eqb (fst p) (String c0 (String c1 ""))
                     then [(snd p, fst p, Some tl)]
                     else if startswith (fst p) (String c0 (String c1 tl))
                          then [(snd p, fst p, None)] else [])
                    option_string_actions ->
              In (a, os, e) l -> lookup os option_string_actions = Some a).
    { intros l -> H. apply in_flat_map in H. destruct H as (p & Hp & H).
      destruct (String.eqb (fst p) _).
      - destruct H as [[= <- <- <-] | []]. now apply table_lookup.
      - destruct (startswith (fst p) _); [| destruct H].
        destruct H as [[= <- <- <-] | []]. now apply table_lookup. }
    intros H. eapply Hgoal; [| exact H].
    destruct c1 as [[] [] [] [] [] [] [] []]; try reflexivity.
    exfalso. apply Hc1. reflexivity.
Qed.

Lemma parse_optional_lookup (s : string) (a : action) (os : string) (e : option string) :
  parse_optional s = optional (Some a) os e ->
  lookup os option_string_actions = Some a.
Proof.
  unfold parse_optional.
  destruct s as [| c0 tl]; [discriminate |].
  destruct (negb (Ascii.eqb c0 "-")); [discriminate |].
  destruct (lookup (String c0 tl) option_string_actions) as [a0 |] eqn:Hl.
  { intros [= <- <- <-]. exact Hl. }
  destruct tl as [| c1 tl]; [discriminate |].
  destruct (contains "=" (String c0 (String c1 tl))).
  - destruct (lookup (fst (split_once "=" (String c0 (String c1 tl)))) option_string_actions)
      as [a1 |] eqn:Hl1.
    { intros [= <- <- <-]. exact Hl1. }
    destruct (get_option_tuples (String c0 (String c1 tl))) as [| [[a2 os2] e2] [| t2 l2]] eqn:Hg.
    + destruct (negative_number _); [discriminate |].
      destruct (contains " " _); discriminate.
    + intros [= <- <- <-]. eapply get_option_tuples_lookup. rewrite Hg. now left.
    + discriminate.
  - destruct (get_option_tuples (String c0 (String c1 tl))) as [| [[a2 os2] e2] [| t2 l2]] eqn:Hg.
    + destruct (negative_number _); [discriminate |].
      destruct (contains " " _); discriminate.
    + intros [= <- <- <-]. eapply get_option_tuples_lookup. rewrite Hg. now left.
    + discriminate.
Qed.

Lemma classify_consistent (arg_strings : list string) :
  forall p, classify arg_strings = inr p -> consistent (before p).
Proof.
  induction arg_strings as [| s rest IH]; intros p H; cbn in H.
  - injection H as <-. intros s' a os e [].
  - destruct (String.eqb s "--").
    + injection H as <-. intros s' a os e [].
    + destruct (parse_optional s) as [| a0 os0 e0 |] eqn:Hp;
        destruct (classify rest) as [e' | q]; try discriminate;
        injection H as <-; intros s' a os e Hin; cbn in Hin.
      * destruct Hin as [[=] | Hin]. eapply IH; eauto.
      * destruct Hin as [Heq | Hin].
        -- injection Heq as E1 E2 E3 E4. subst.
           eapply parse_optional_lookup; eauto.
        -- eapply IH; eauto.
Qed.

(** *** One action *)

Lemma action_eqb_eq (a b : action) : action_eqb a b = true <-> a = b.
Proof. destruct a, b; cbn; split; intros H; try reflexivity; discriminate. Qed.

Lemma existsb_action (c : action) (l : list action) :
  existsb (action_eqb c) l = true <-> In c l.
Proof.
  rewrite existsb_exists. split.
  - intros (x & Hx & E). apply action_eqb_eq in E. now subst.
  - intros H. exists c. split; [exact H | now apply action_eqb_eq].
Qed.

Lemma take_action_inr (a : action) (args : list string) (st st' : pstate) :
  take_action a args st = inr st' ->
  (forall c, In c (action_conflicts a) -> ~ In c (a :: seen_non_default_actions st))
  /\ call a (get_values args) (namespace st) = inr (namespace st')
  /\ seen_actions st' = a :: seen_actions st
  /\ seen_non_default_actions st' = a :: seen_non_default_actions st
  /\ positionals st' = positionals st
  /\ extras st' = extras st.
Proof.
  unfold take_action.
  destruct (find _ (action_conflicts a)) as [c |] eqn:Hf; [discriminate |].
  destruct (call a (get_values args) (namespace st)) as [e | ns] eqn:Hc; [discriminate |].
  intros [= <-]. cbn. repeat split; auto.
  intros c Hc' Hin.
  eapply find_none in Hf; [| exact Hc'].
  assert (Hex : existsb (action_eqb c) (a :: seen_non_default_actions st) = true)
    by (apply existsb_action; exact Hin).
  cbv beta in Hf. congruence.
Qed.

Lemma take_action_help (args : list string) (st : pstate) :
  take_action Act_help args st = inl exit_help.
Proof. reflexivity. Qed.

Lemma take_action_inl (a : action) (args : list string) (st : pstate) (e : exit) :
  take_action a args st = inl e ->
  (a = Act_help /\ e = exit_help)
  \/ (exists c, e = exit_error (not_allowed_with a c)
               /\ In c (action_conflicts a)
               /\ In c (a :: seen_non_default_actions st)).
Proof.
  unfold take_action.
  destruct (find _ (action_conflicts a)) as [c |] eqn:Hf.
  - intros [= <-]. right. exists c.
    apply find_some in Hf. destruct Hf as [Hin Hex].
    apply existsb_action in Hex. auto.
  - destruct a; cbn; try discriminate. intros [= <-]. now left.
Qed.

Lemma conflicts_spec (a c : action) :
  In c (action_conflicts a) <-> in_group a = true /\ in_group c = true /\ a <> c.
Proof.
  destruct a, c; cbn; split; intros H; intuition (try discriminate; try congruence).
Qed.

Lemma take_action_fields (a : action) (args : list string) (st st' : pstate) :
  take_action a args st = inr st' ->
  fields_follow_seen st -> fields_follow_seen st'.
Proof.
  intros H Hf. apply take_action_inr in H.
  destruct H as (_ & Hcall & Hsa & Hsn & _ & _).
  destruct Hf as (F1 & F2 & F3 & F4 & F5 & F6 & F7 & F8).
  unfold fields_follow_seen, seen in *. rewrite Hsn, Hsa.
  destruct a; cbn in Hcall; try discriminate;
    injection Hcall as <-; cbn [gputype _2080 _3090 a100 _80g name queue runner_script];
    repeat split; intros; cbn [In] in *;
    try (intuition (try discriminate; try congruence); fail).
  all: try (destruct (F8 a) as [G1 G2]; intuition (try discriminate; try congruence)).
Qed.

Lemma take_action_one_gpu (a : action) (args : list string) (st st' : pstate) :
  take_action a args st = inr st' ->
  one_gpu_option st -> one_gpu_option st'.
Proof.
  intros H Hone. apply take_action_inr in H.
  destruct H as (Hconf & _ & _ & Hsn & _ & _).
  unfold one_gpu_option, seen in *. rewrite Hsn.
  assert (Hnew : forall b, In b (seen_non_default_actions st) ->
                   in_group a = true -> in_group b = true -> a = b).
  { intros b Hb Ga Gb.
    destruct (action_eqb a b) eqn:E; [now apply action_eqb_eq |].
    exfalso. apply (Hconf b).
    - apply conflicts_spec. repeat split; auto.
      intros ->. rewrite (proj2 (action_eqb_eq b b) eq_refl) in E. discriminate.
    - now right. }
  intros x y [<- | Hx] [<- | Hy] Gx Gy; auto.
  symmetry. auto.
Qed.

Lemma take_action_runner (argv : list string) (a : action) (args : list string)
    (st st' : pstate) :
  take_action a args st = inr st' ->
  (a = Act_runner_script -> exists r, get_values args = VStr r /\ In r argv) ->
  runner_in argv st -> runner_in argv st'.
Proof.
  intros H Hargs Hr. apply take_action_inr in H.
  destruct H as (_ & Hcall & _ & Hsn & _ & _).
  unfold runner_in, seen in *. rewrite Hsn.
  destruct a; cbn in Hcall; try discriminate;
    injection Hcall as <-; cbn [runner_script];
    try (intros [E | Hin]; [discriminate | auto]; fail).
  intros _. destruct Hargs as (r & -> & Hin); [reflexivity |].
  exists r. auto.
Qed.

Lemma take_actions_help_first (tl : list (action * list string)) (st : pstate) :
  take_actions ((Act_help, []) :: tl) st = inl exit_help.
Proof. reflexivity. Qed.

(** *** The action tuples of an option *)

Lemma lookup_in (s : string) (a : action) (m : list (string * action)) :
  lookup s m = Some a -> In (s, a) m.
Proof.
  induction m as [| [os b] m IH]; cbn; [discriminate |].
  destruct (String.eqb_spec s os) as [-> | _].
  - intros [= ->]. now left.
  - intros H. right. auto.
Qed.

Lemma explicit_chain_prefix (e : string) :
  forall a long acc tuples last,
    explicit_chain a long e acc = inr (tuples, last) ->
    exists tl, tuples = (acc ++ tl)%list.
Proof.
  induction e as [| c e IH]; intros a long acc tuples last; cbn [explicit_chain].
  - destruct (nargs a); [discriminate |].
    intros [= <- <-]. eexists. reflexivity.
  - destruct (nargs a).
    + destruct long; [discriminate |].
      destruct (lookup (String "-" (String c "")) option_string_actions) as [a' |];
        [| discriminate].
      destruct e as [| c' e'].
      * intros [= <- <-]. eexists. reflexivity.
      * intros H. apply IH in H. destruct H as (tl & ->).
        rewrite <- app_assoc. eexists. reflexivity.
    + intros [= <- <-]. eexists. reflexivity.
Qed.

Lemma explicit_chain_shape (a : action) (os e : string)
    (tuples : list (action * list string)) (last : chain_end) :
  lookup os option_string_actions = Some a ->
  explicit_chain a (is_long os) e [] = inr (tuples, last) ->
  (tuples = [(a, [e])] /\ last = explicit_used)
  \/ (a = Act_help /\ exists tl, tuples = (Act_help, []) :: tl).
Proof.
  intros Hl. apply lookup_in in Hl. cbn in Hl.
  repeat (destruct Hl as [[= <- <-] | Hl]); try (destruct Hl);
    destruct e as [| c e]; cbn [explicit_chain nargs is_long]; try discriminate;
    try (intros [= <- <-]; left; split; reflexivity).
  destruct (lookup (String "-" (String c "")) option_string_actions) as [a' |];
    [| discriminate].
  destruct e as [| c' e'].
  - intros [= <- <-]. right. split; [reflexivity |]. eexists. reflexivity.
  - intros H. apply explicit_chain_prefix in H. destruct H as (tl & ->).
    right. split; [reflexivity |]. eexists. reflexivity.
Qed.

Lemma explicit_chain_error (e : string) :
  forall a long acc err,
    explicit_chain a long e acc = inl err -> is_conflict err = false.
Proof.
  induction e as [| c e IH]; intros a long acc err; cbn [explicit_chain].
  - destruct (nargs a); [intros [= <-]; reflexivity | discriminate].
  - destruct (nargs a); [| discriminate].
    destruct long; [intros [= <-]; reflexivity |].
    destruct (lookup (String "-" (String c "")) option_string_actions) as [a' |];
      [| intros [= <-]; reflexivity].
    destruct e as [| c' e']; [discriminate |].
    apply IH.
Qed.

(** *** The steps of a pattern *)

Lemma shape_mono (acts acts' : list action) (tuples : list (action * list string)) :
  incl acts acts' -> shape acts tuples -> shape acts' tuples.
Proof.
  intros Hi [(a & args & -> & Hin) | (tl & -> & Hin)].
  - left. exists a, args. auto.
  - right. exists tl. auto.
Qed.

Lemma step_shape_mono (acts acts' : list action) (steps : list step) :
  incl acts acts' -> Forall (step_shape acts) steps -> Forall (step_shape acts') steps.
Proof.
  intros Hi H. eapply Forall_impl; [| exact H].
  intros [s | s | tuples | e]; cbn; auto. now apply shape_mono.
Qed.

Lemma consistent_tail (x : string * cls) (l : list (string * cls)) :
  consistent (x :: l) -> consistent l.
Proof. intros H s a os e Hin. eapply H. right. exact Hin. Qed.

Lemma plan_shape (l : list (string * cls)) :
  consistent l -> Forall (step_shape (actions_of l)) (fst (plan l)).
Proof.
  induction l as [| [s c] rest IH IH'] using list_ind_tail; intros Hc.
  - constructor.
  - cbn [plan].
    destruct (negb (has_option ((s, c) :: rest))); [constructor |].
    pose proof (consistent_tail Hc) as Hc'.
    destruct c as [| [a |] os e].
    + cbn [fst]. constructor; [exact I |].
      eapply step_shape_mono; [| apply IH; exact Hc'].
      cbn. apply incl_refl.
    + assert (Hl : lookup os option_string_actions = Some a)
        by (eapply Hc; left; reflexivity).
      assert (Hincl : incl (actions_of rest) (actions_of ((s, O (Some a) os e) :: rest)))
        by (cbn; apply incl_tl, incl_refl).
      assert (Hhd : In a (actions_of ((s, O (Some a) os e) :: rest)))
        by (cbn; now left).
      destruct e as [e |].
      * destruct (explicit_chain a (is_long os) e []) as [err | [tuples last]] eqn:Hch.
        { cbn [fst]. constructor; [| constructor].
          cbn. eapply explicit_chain_error. exact Hch. }
        destruct (explicit_chain_shape _ _ Hl Hch) as [[-> ->] | (-> & tl & ->)].
        -- cbn [fst]. constructor.
           ++ left. exists a, [e]. auto.
           ++ eapply step_shape_mono; [exact Hincl | apply IH; exact Hc'].
        -- destruct last as [| a'].
           ++ cbn [fst]. constructor.
              ** right. exists tl. auto.
              ** eapply step_shape_mono; [exact Hincl | apply IH; exact Hc'].
           ++ destruct (nargs a').
              ** cbn [fst]. constructor.
                 --- right. eexists. split; [reflexivity | exact Hhd].
                 --- eapply step_shape_mono; [exact Hincl | apply IH; exact Hc'].
              ** destruct rest as [| [arg [| a0 os0 e0]] rest'];
                   try (repeat constructor; fail).
                 cbn [fst]. constructor.
                 --- right. eexists. split; [reflexivity | exact Hhd].
                 --- eapply step_shape_mono; [| eapply IH'; [reflexivity |]].
                     +++ cbn. apply incl_tl, incl_refl.
                     +++ eapply consistent_tail. exact Hc'.
      * destruct (nargs a).
        -- cbn [fst app]. constructor.
           ++ left. exists a, []. auto.
           ++ eapply step_shape_mono; [exact Hincl | apply IH; exact Hc'].
        -- destruct rest as [| [arg [| a0 os0 e0]] rest'];
             try (repeat constructor; fail).
           cbn [fst app]. constructor.
           ++ left. exists a, [arg]. auto.
           ++ eapply step_shape_mono; [| eapply IH'; [reflexivity |]].
              ** cbn. apply incl_tl, incl_refl.
              ** eapply consistent_tail. exact Hc'.
    + cbn [fst]. constructor; [exact I |].
      eapply step_shape_mono; [| apply IH; exact Hc'].
      cbn. apply incl_refl.
Qed.

Lemma explicit_chain_head (a : action) (long : bool) (e : string)
    (tuples : list (action * list string)) (last : chain_end) :
  explicit_chain a long e [] = inr (tuples, last) ->
  exists args tl, tuples = (a, args) :: tl.
Proof.
  destruct e as [| c e]; cbn [explicit_chain].
  - destruct (nargs a); [discriminate |]. intros [= <- <-]. do 2 eexists. reflexivity.
  - destruct (nargs a).
    + destruct long; [discriminate |].
      destruct (lookup (String "-" (String c "")) option_string_actions) as [a' |];
        [| discriminate].
      destruct e as [| c' e'].
      * intros [= <- <-]. do 2 eexists. reflexivity.
      * intros H. apply explicit_chain_prefix in H. destruct H as (tl & ->).
        do 2 eexists. reflexivity.
    + intros [= <- <-]. do 2 eexists. reflexivity.
Qed.

Lemma no_option_no_action (l : list (string * cls)) :
  has_option l = false -> actions_of l = [].
Proof.
  induction l as [| [s c] l IH]; [reflexivity |].
  cbn. destruct c as [| a os e]; cbn; [exact IH | discriminate].
Qed.

(** In a plan that does not fail, every option of the pattern has its
    step, and its action comes first in it. *)
Lemma plan_complete (l : list (string * cls)) :
  no_fail (fst (plan l)) ->
  forall a, In a (actions_of l) ->
  exists args tl, In (SOpts ((a, args) :: tl)) (fst (plan l)).
Proof.
  unfold no_fail.
  induction l as [| [s c] rest IH IH'] using list_ind_tail; intros Hnf b Hb.
  - destruct Hb.
  - cbn [plan] in *.
    destruct (negb (has_option ((s, c) :: rest))) eqn:Hopt.
    { apply negb_true_iff in Hopt. rewrite (no_option_no_action _ Hopt) in Hb.
      destruct Hb. }
    assert (Hright : forall steps x,
              (exists args tl, In (SOpts ((b, args) :: tl)) steps) ->
              exists args tl, In (SOpts ((b, args) :: tl)) (x :: steps)).
    { intros steps x (args & tl & H). exists args, tl. now right. }
    destruct c as [| [a |] os e].
    + cbn [fst forallb] in *. apply Hright. apply IH; [| exact Hb].
      now apply andb_true_iff in Hnf.
    + cbn in Hb.
      destruct (match e with
                | Some e0 => explicit_chain a (is_long os) e0 []
                | None => inr ([], no_explicit a)
                end) as [err | [tuples last]] eqn:Hch.
      { cbn in Hnf. discriminate. }
      assert (Hhead : match last with
                      | explicit_used => exists args tl, tuples = (a, args) :: tl
                      | no_explicit a' =>
                          forall x, exists args tl, (tuples ++ [(a', x)])%list = (a, args) :: tl
                      end).
      { destruct e as [e |].
        - apply explicit_chain_head in Hch. destruct Hch as (args & tl & ->).
          destruct last; [eauto |]. intros x. cbn. eauto.
        - injection Hch as <- <-. intros x. cbn. eauto. }
      destruct last as [| a'].
      * cbn [fst forallb] in *. apply andb_true_iff in Hnf.
        destruct Hb as [<- | Hb].
        -- destruct Hhead as (args & tl & ->). exists args, tl. now left.
        -- apply Hright. apply IH; tauto.
      * destruct (nargs a').
        -- cbn [fst forallb] in *. apply andb_true_iff in Hnf.
           destruct Hb as [<- | Hb].
           ++ destruct (Hhead []) as (args & tl & ->). exists args, tl. now left.
           ++ apply Hright. apply IH; tauto.
        -- destruct rest as [| [arg [| a0 os0 e0]] rest']; try (cbn in Hnf; discriminate).
           cbn [fst forallb] in *. apply andb_true_iff in Hnf.
           destruct Hb as [<- | Hb].
           ++ destruct (Hhead [arg]) as (args & tl & ->). exists args, tl. now left.
           ++ apply Hright. eapply IH'; [reflexivity | tauto | exact Hb].
    + cbn [fst forallb] in *. apply Hright. apply IH; [| exact Hb].
      now apply andb_true_iff in Hnf.
Qed.

(** *** Subsequences *)

Lemma subseq_refl {X : Type} (l : list X) : subseq l l.
Proof. induction l; constructor; assumption. Qed.

Lemma subseq_nil_l {X : Type} (l : list X) : subseq [] l.
Proof. induction l; constructor; assumption. Qed.

Lemma subseq_app {X : Type} (a b c d : list X) :
  subseq a b -> subseq c d -> subseq (a ++ c) (b ++ d).
Proof. intros H1 H2. induction H1; cbn; try constructor; assumption. Qed.

Lemma subseq_trans {X : Type} (a b c : list X) :
  subseq a b -> subseq b c -> subseq a c.
Proof.
  intros H1 H2. revert a H1.
  induction H2 as [| x l1 l2 H IH | x l1 l2 H IH]; intros a H1.
  - exact H1.
  - constructor. auto.
  - inversion H1; subst.
    + apply subseq_skip. auto.
    + apply subseq_keep. auto.
Qed.

Lemma subseq_skipn {X : Type} (n : nat) (l : list X) : subseq (skipn n l) l.
Proof.
  revert l. induction n as [| n IH]; intros l; cbn.
  - apply subseq_refl.
  - destruct l; constructor. apply IH.
Qed.

Lemma subseq_In {X : Type} (a b : list X) (x : X) :
  subseq a b -> In x a -> In x b.
Proof.
  intros H. induction H; cbn; intros Hin; auto.
  destruct Hin; auto.
Qed.

(** The strings of the steps, with the strings left for the end, are
    strings of the pattern, in their order. *)
Lemma plan_strings (l : list (string * cls)) :
  subseq (flat_map step_strings (fst (plan l)) ++ map fst (snd (plan l))) (map fst l).
Proof.
  induction l as [| [s c] rest IH IH'] using list_ind_tail.
  - constructor.
  - cbn [plan].
    destruct (negb (has_option ((s, c) :: rest))); [apply subseq_refl |].
    destruct c as [| [a |] os e].
    + cbn. apply subseq_keep. exact IH.
    + destruct (match e with
                | Some e0 => explicit_chain a (is_long os) e0 []
                | None => inr ([], no_explicit a)
                end) as [err | [tuples [| a']]].
      * cbn. apply subseq_nil_l.
      * cbn. apply subseq_skip. exact IH.
      * destruct (nargs a').
        -- cbn. apply subseq_skip. exact IH.
        -- destruct rest as [| [arg [| a0 os0 e0]] rest'];
             try (cbn; apply subseq_nil_l).
           cbn. do 2 apply subseq_skip. eapply IH'. reflexivity.
    + cbn. apply subseq_keep. exact IH.
Qed.

Lemma plan_args (l : list (string * cls)) (s : string) :
  In (SArg s) (fst (plan l)) -> In (s, A) l.
Proof.
  induction l as [| [s0 c] rest IH IH'] using list_ind_tail.
  - intros [].
  - cbn [plan].
    destruct (negb (has_option ((s0, c) :: rest))); [intros [] |].
    destruct c as [| [a |] os e].
    + cbn. intros [[= ->] | H]; [now left | right; auto].
    + destruct (match e with
                | Some e0 => explicit_chain a (is_long os) e0 []
                | None => inr ([], no_explicit a)
                end) as [err | [tuples [| a']]].
      * cbn. intros [H | []]. discriminate.
      * cbn. intros [H | H]; [discriminate | right; auto].
      * destruct (nargs a').
        -- cbn. intros [H | H]; [discriminate | right; auto].
        -- destruct rest as [| [arg [| a0 os0 e0]] rest'];
             try (cbn; intros [H | []]; discriminate).
           cbn. intros [H | H]; [discriminate |].
           right. right. eapply IH'; [reflexivity | exact H].
    + cbn. intros [H | H]; [discriminate | right; auto].
Qed.

Lemma plan_tail (l : list (string * cls)) :
  has_option (snd (plan l)) = false
  /\ forall x, In x (snd (plan l)) -> In x l.
Proof.
  induction l as [| [s0 c] rest IH IH'] using list_ind_tail.
  - split; [reflexivity | auto].
  - cbn [plan].
    destruct (negb (has_option ((s0, c) :: rest))) eqn:Hopt.
    { apply negb_true_iff in Hopt. split; [exact Hopt | auto]. }
    destruct IH as [IH1 IH2].
    destruct c as [| [a |] os e].
    + cbn [snd]. split; [exact IH1 | intros x Hx; right; auto].
    + destruct (match e with
                | Some e0 => explicit_chain a (is_long os) e0 []
                | None => inr ([], no_explicit a)
                end) as [err | [tuples [| a']]].
      * cbn. split; [reflexivity | intros x []].
      * cbn [snd]. split; [exact IH1 | intros x Hx; right; auto].
      * destruct (nargs a').
        -- cbn [snd]. split; [exact IH1 | intros x Hx; right; auto].
        -- destruct rest as [| [arg [| a0 os0 e0]] rest'];
             try (cbn; split; [reflexivity | intros x []]).
           cbn [snd]. destruct (IH' _ _ eq_refl) as [I1 I2].
           split; [exact I1 | intros x Hx; right; right; auto].
    + cbn [snd]. split; [exact IH1 | intros x Hx; right; auto].
Qed.

(** *** The invariant along the steps *)

Ltac split4 := split; [| split; [| split]].

Lemma inv_initial (argv : list string) : Inv argv initial.
Proof.
  unfold Inv, fields_follow_seen, one_gpu_option, runner_in, positionals_ok, seen.
  cbn. repeat split; intros; try tauto; try discriminate.
  destruct H as [<- | []]. reflexivity.
Qed.

Lemma take_action_inv (argv : list string) (a : action) (args : list string)
    (st st' : pstate) :
  take_action a args st = inr st' ->
  (a = Act_runner_script -> exists r, get_values args = VStr r /\ In r argv) ->
  Inv argv st -> Inv argv st'.
Proof.
  intros H Hargs (I1 & I2 & I3 & I4).
  split; [| split; [| split]].
  - eapply take_action_fields; eauto.
  - eapply take_action_one_gpu; eauto.
  - eapply take_action_runner; eauto.
  - apply take_action_inr in H. destruct H as (_ & _ & _ & _ & Hp & _).
    unfold positionals_ok. rewrite Hp. exact I4.
Qed.

Lemma add_extras_inv (argv strings : list string) (st : pstate) :
  Inv argv st -> Inv argv (add_extras strings st).
Proof. intros H. exact H. Qed.

Lemma set_positionals_inv (argv : list string) (ps : list action) (st : pstate) :
  incl ps (positionals st) -> Inv argv st -> Inv argv (set_positionals ps st).
Proof.
  intros Hi (I1 & I2 & I3 & I4). split; [| split; [| split]]; auto.
  intros p Hp. apply I4. apply Hi. exact Hp.
Qed.

Lemma take_actions_seen (tuples : list (action * list string)) :
  forall st st', take_actions tuples st = inr st' ->
  extras st' = extras st /\ positionals st' = positionals st
  /\ forall a, seen a st' <-> seen a st \/ In a (map fst tuples).
Proof.
  induction tuples as [| [b args] tuples IH]; intros st st'; cbn [take_actions].
  - intros [= <-]. cbn. intuition.
  - destruct (take_action b args st) as [e | st1] eqn:H1; [discriminate |].
    intros H. apply IH in H. destruct H as (He & Hp & Hs).
    apply take_action_inr in H1. destruct H1 as (_ & _ & _ & Hsn & Hp1 & He1).
    repeat split; try congruence.
    + intros Ha. apply Hs in Ha. unfold seen in *. rewrite Hsn in Ha. cbn in *. tauto.
    + intros Ha. apply Hs. unfold seen in *. rewrite Hsn. cbn in *. tauto.
Qed.

Lemma take_actions_inv (argv : list string) (tuples : list (action * list string)) :
  forall st st', take_actions tuples st = inr st' ->
  (forall a args, In (a, args) tuples -> a <> Act_runner_script) ->
  Inv argv st -> Inv argv st'.
Proof.
  induction tuples as [| [b args] tuples IH]; intros st st'; cbn [take_actions].
  - intros [= <-]. auto.
  - destruct (take_action b args st) as [e | st1] eqn:H1; [discriminate |].
    intros H Hno Hinv. eapply IH; [exact H | |].
    + intros a args' Hin. eapply Hno. right. exact Hin.
    + eapply take_action_inv; [exact H1 | | exact Hinv].
      intros ->. exfalso. eapply Hno; [left; reflexivity | reflexivity].
Qed.

Lemma get_values_single (s : string) : s <> "--" -> get_values [s] = VStr s.
Proof.
  intros H. unfold get_values. cbn.
  destruct (String.eqb_spec s "--"); [contradiction | reflexivity].
Qed.

Lemma exec_steps_no_fail (steps : list step) :
  forall st st', exec_steps steps st = inr st' -> no_fail steps.
Proof.
  unfold no_fail.
  induction steps as [| s steps IH]; intros st st'; cbn [exec_steps forallb].
  - reflexivity.
  - destruct (exec_step s st) as [e | st1] eqn:H1; [discriminate |].
    intros H. rewrite (IH _ _ H). destruct s; try reflexivity. discriminate.
Qed.

(** A run of the steps that succeeds keeps the invariant, sees the actions
    of the steps (and, at most, the runner script besides), and extends
    the extras by strings of the steps, in their order. *)
Lemma exec_steps_ok (argv : list string) (acts : list action) (steps : list step) :
  forall st st',
    exec_steps steps st = inr st' ->
    Forall (step_shape acts) steps ->
    ~ In Act_runner_script acts ->
    (forall s, In (SArg s) steps -> s <> "--" /\ In s argv) ->
    Inv argv st ->
    Inv argv st'
    /\ (exists ex, extras st' = (extras st ++ ex)%list
                   /\ subseq ex (flat_map step_strings steps))
    /\ (forall a, seen a st \/ In a (flat_map step_actions steps) -> seen a st')
    /\ (forall a, seen a st' ->
                  seen a st \/ In a acts \/ a = Act_runner_script).
Proof.
  induction steps as [| s steps IH]; intros st st'; cbn [exec_steps].
  - intros [= <-] _ _ _ Hinv. split4; auto.
    + exists []. rewrite app_nil_r. split; [reflexivity | constructor].
    + intros a [H | []]. exact H.
  - destruct (exec_step s st) as [e | st1] eqn:H1; [discriminate |].
    intros H Hshape Hnr Hargs Hinv.
    inversion Hshape as [| s0 steps0 Hs Hsteps]; subst.
    assert (Hstep : Inv argv st1
              /\ (exists ex, extras st1 = (extras st ++ ex)%list
                             /\ subseq ex (step_strings s))
              /\ (forall a, seen a st \/ In a (step_actions s) -> seen a st1)
              /\ (forall a, seen a st1 ->
                            seen a st \/ In a acts \/ a = Act_runner_script)).
    { destruct s as [s | s | tuples | err]; cbn [exec_step] in H1.
      - destruct (positionals st) as [| p ps] eqn:Hp.
        + injection H1 as <-. split4; auto.
          * exists [s]. split; [reflexivity | apply subseq_refl].
          * intros a [Ha | []]. exact Ha.
        + destruct (take_action p [s] st) as [e | st2] eqn:H2; [discriminate |].
          injection H1 as <-.
          assert (Hpr : p = Act_runner_script).
          { destruct Hinv as (_ & _ & _ & I4). apply I4. rewrite Hp. now left. }
          subst p.
          destruct (Hargs s (or_introl eq_refl)) as [Hs1 Hs2].
          pose proof (take_action_inr _ _ _ H2) as (_ & _ & _ & Hsn & Hp2 & He2).
          split4.
          * apply set_positionals_inv.
            -- rewrite Hp2, Hp. apply incl_tl, incl_refl.
            -- eapply take_action_inv; [exact H2 | | exact Hinv].
               intros _. exists s. split; [now apply get_values_single | exact Hs2].
          * exists []. cbn. rewrite app_nil_r. split; [exact He2 | apply subseq_nil_l].
          * intros a [Ha | []]. unfold seen in *. cbn. rewrite Hsn. now right.
          * intros a Ha. unfold seen in *. cbn in Ha. rewrite Hsn in Ha.
            destruct Ha as [<- | Ha]; auto.
      - injection H1 as <-. split4; auto.
        + exists [s]. split; [reflexivity | apply subseq_refl].
        + intros a [Ha | []]. exact Ha.
      - pose proof (take_actions_seen _ _ H1) as (He & Hp & Hseen).
        cbn in Hs.
        destruct Hs as [(a & args & -> & Hin) | (tl & -> & _)];
          [| rewrite take_actions_help_first in H1; discriminate].
        split4.
        + eapply take_actions_inv; [exact H1 | | exact Hinv].
          intros b args' [[= <- <-] | []]. intros ->. contradiction.
        + exists []. rewrite app_nil_r. split; [exact He | constructor].
        + intros b Hb. apply Hseen. exact Hb.
        + intros b Hb. apply Hseen in Hb. cbn in Hb.
          destruct Hb as [Hb | [<- | []]]; auto.
      - discriminate. }
    destruct Hstep as (Hinv1 & (ex1 & Hex1 & Hsub1) & Hsee1 & Hsee1').
    destruct (IH st1 st' H Hsteps Hnr) as (Hinv' & (ex & Hex & Hsub) & Hsee & Hsee').
    { intros s' Hs'. apply Hargs. now right. }
    { exact Hinv1. }
    split4.
    + exact Hinv'.
    + exists (ex1 ++ ex)%list. split.
      * rewrite Hex, Hex1, app_assoc. reflexivity.
      * cbn [flat_map]. now apply subseq_app.
    + intros a Ha. apply Hsee. cbn [flat_map] in Ha. rewrite in_app_iff in Ha.
      destruct Ha as [Ha | [Ha | Ha]]; auto.
    + intros a Ha. apply Hsee' in Ha. destruct Ha as [Ha | Ha]; auto.
Qed.

(** *** The last [consume_positionals] *)

Lemma count_dashes_args (post : list string) :
  count_dashes (map (fun _ => pA) post) = 0.
Proof. destruct post; reflexivity. Qed.

Lemma count_dashes_before (x : string * cls) (l : list (string * cls))
    (after : option (list string)) :
  count_dashes (pattern_of (x :: l) after) = 0.
Proof. cbn. destruct (is_O x); reflexivity. Qed.

(** The strings the positional matches after the last option hold the
    runner script and at most the [--]. *)
Lemma rest_args (l : list (string * cls)) (after : option (list string)) (n : nat) :
  has_option l = false ->
  (forall s c, In (s, c) l -> s <> "--") ->
  match_positional (pattern_of l after) = Some n ->
  exists r, get_values (firstn n (strings_of l after)) = VStr r
            /\ In r (strings_of l after).
Proof.
  intros Hopt Hnd. destruct l as [| [s c] l'].
  - destruct after as [post |]; [| discriminate].
    unfold match_positional, pattern_of. cbn [map app count_dashes].
    rewrite count_dashes_args. cbn [skipn].
    destruct post as [| a post']; [discriminate |].
    cbn [map]. rewrite count_dashes_args. intros [= <-].
    exists a. split; [reflexivity | cbn; auto].
  - assert (Hs : s <> "--") by (eapply Hnd; left; reflexivity).
    destruct c as [| a os e]; [| discriminate].
    unfold match_positional. rewrite count_dashes_before. cbn [skipn pattern_of map app is_O snd].
    fold (pattern_of l' after).
    destruct l' as [| x l''].
    + destruct after as [post |].
      * cbn [pattern_of map app count_dashes]. rewrite count_dashes_args.
        intros [= <-]. exists s. split; [| now left].
        unfold get_values. cbn.
        destruct (String.eqb_spec s "--"); [contradiction | reflexivity].
      * cbn. intros [= <-]. exists s. split; [| now left].
        now apply get_values_single.
    + rewrite count_dashes_before. intros [= <-]. exists s. split; [| now left].
      cbn [plus firstn strings_of map fst app]. now apply get_values_single.
Qed.

Lemma consume_rest_ok (argv : list string) (l : list (string * cls))
    (after : option (list string)) (st st' : pstate) :
  consume_rest l after st = inr st' ->
  has_option l = false ->
  (forall s c, In (s, c) l -> s <> "--") ->
  (forall s, In s (strings_of l after) -> In s argv) ->
  Inv argv st ->
  Inv argv st'
  /\ (exists ex, extras st' = (extras st ++ ex)%list
                 /\ subseq ex (strings_of l after))
  /\ (forall a, seen a st -> seen a st')
  /\ (forall a, seen a st' -> seen a st \/ a = Act_runner_script).
Proof.
  unfold consume_rest. intros H Hopt Hnd Hin Hinv.
  assert (Hsame : forall st0, st0 = add_extras (strings_of l after) st ->
            Inv argv st0
            /\ (exists ex, extras st0 = (extras st ++ ex)%list
                           /\ subseq ex (strings_of l after))
            /\ (forall a, seen a st -> seen a st0)
            /\ (forall a, seen a st0 -> seen a st \/ a = Act_runner_script)).
  { intros st0 ->. split4; auto.
    exists (strings_of l after). split; [reflexivity | apply subseq_refl]. }
  destruct (positionals st) as [| p ps] eqn:Hp.
  { injection H as <-. now apply Hsame. }
  destruct (match_positional (pattern_of l after)) as [n |] eqn:Hm.
  2: { injection H as <-. now apply Hsame. }
  destruct (take_action p (firstn n (strings_of l after)) st) as [e | st1] eqn:H1;
    [discriminate |].
  injection H as <-.
  assert (Hpr : p = Act_runner_script).
  { destruct Hinv as (_ & _ & _ & I4). apply I4. rewrite Hp. now left. }
  subst p.
  destruct (rest_args _ _ Hopt Hnd Hm) as (r & Hr & Hrin).
  pose proof (take_action_inr _ _ _ H1) as (_ & _ & _ & Hsn & Hp1 & He1).
  split4.
  - apply add_extras_inv. apply set_positionals_inv.
    + rewrite Hp1, Hp. apply incl_tl, incl_refl.
    + eapply take_action_inv; [exact H1 | | exact Hinv].
      intros _. exists r. auto.
  - exists (skipn n (strings_of l after)). cbn. rewrite He1.
    split; [reflexivity | apply subseq_skipn].
  - intros a Ha. unfold seen in *. cbn. rewrite Hsn. now right.
  - intros a Ha. unfold seen in *. cbn in Ha. rewrite Hsn in Ha.
    destruct Ha as [<- | Ha]; auto.
Qed.

(** *** A successful parse *)

Lemma actions_of_in (l : list (string * cls)) (a : action) :
  In a (actions_of l) <-> exists s os e, In (s, O (Some a) os e) l.
Proof.
  unfold actions_of. rewrite in_flat_map. split.
  - intros ([s c] & Hin & Ha). destruct c as [| [b |] os e]; cbn in Ha; try tauto.
    destruct Ha as [<- | []]. eauto.
  - intros (s & os & e & Hin). eexists. split; [exact Hin | cbn; auto].
Qed.

Lemma consistent_no_runner (l : list (string * cls)) :
  consistent l -> ~ In Act_runner_script (actions_of l).
Proof.
  intros Hc Hin. apply actions_of_in in Hin. destruct Hin as (s & os & e & Hin).
  apply Hc in Hin. apply lookup_in in Hin. cbn in Hin.
  repeat (destruct Hin as [Hin | Hin]; [discriminate |]). destruct Hin.
Qed.

Lemma parse_success (argv : list string) (ns : Namespace) (rem : list string) :
  parse_known_args argv = inr (ns, rem) ->
  exists st,
    namespace st = ns /\ extras st = rem
    /\ Inv argv st
    /\ subseq rem argv
    /\ (forall a, In a (recognized argv) -> seen a st)
    /\ (forall a, seen a st -> In a (recognized argv) \/ a = Act_runner_script)
    /\ seen Act_runner_script st.
Proof.
  unfold parse_known_args.
  destruct (classify argv) as [e | p] eqn:Hcl; [discriminate |].
  destruct (parse_loop (before p) (after p) initial) as [e | st] eqn:Hloop; [discriminate |].
  destruct (existsb (action_eqb Act_runner_script) (seen_actions st)) eqn:Hreq;
    [| discriminate].
  intros [= <- <-]. exists st.
  pose proof (classify_strings _ Hcl) as Hstr.
  pose proof (classify_no_dashes _ Hcl) as Hnd.
  pose proof (classify_actions _ Hcl) as Hact.
  pose proof (classify_consistent _ Hcl) as Hcons.
  rewrite parse_loop_plan in Hloop. unfold then_rest in Hloop.
  destruct (exec_steps (fst (plan (before p))) initial) as [e | st1] eqn:Hexec;
    [discriminate |].
  assert (Hbefore : forall s c, In (s, c) (before p) -> In s argv).
  { intros s c Hin. rewrite <- Hstr. unfold strings_of. apply in_or_app. left.
    apply in_map_iff. exists (s, c). auto. }
  destruct (@exec_steps_ok argv (actions_of (before p)) _ _ _ Hexec)
    as (Hinv1 & (ex1 & Hex1 & Hsub1) & Hsee1 & Hsee1').
  { now apply plan_shape. }
  { now apply consistent_no_runner. }
  { intros s Hs. apply plan_args in Hs. split; [eapply Hnd | eapply Hbefore]; eauto. }
  { apply inv_initial. }
  destruct (plan_tail (before p)) as [Htail1 Htail2].
  destruct (@consume_rest_ok argv _ _ _ _ Hloop Htail1)
    as (Hinv & (ex2 & Hex2 & Hsub2) & Hsee2 & Hsee2').
  { intros s c Hin. eapply Hnd. apply Htail2. exact Hin. }
  { intros s Hs. rewrite <- Hstr. unfold strings_of in *.
    apply in_app_or in Hs. apply in_or_app. destruct Hs as [Hs | Hs]; [left | now right].
    apply in_map_iff in Hs. destruct Hs as ([s' c] & <- & Hin).
    apply in_map_iff. exists (s', c). split; [reflexivity | now apply Htail2]. }
  { exact Hinv1. }
  split; [reflexivity |]. split; [reflexivity |]. split; [exact Hinv |].
  split; [| split; [| split]].
  - rewrite Hex2, Hex1. cbn [extras initial app].
    rewrite <- Hstr.
    eapply subseq_trans.
    + apply subseq_app; [exact Hsub1 | exact Hsub2].
    + unfold strings_of. rewrite app_assoc. apply subseq_app.
      * apply plan_strings.
      * apply subseq_refl.
  - intros a Ha. apply Hsee2, Hsee1. right.
    rewrite <- Hact in Ha.
    destruct (plan_complete _ (exec_steps_no_fail _ _ Hexec) _ Ha) as (args & tl & Hin).
    apply in_flat_map. eexists. split; [exact Hin | cbn; now left].
  - intros a Ha. apply Hsee2' in Ha. destruct Ha as [Ha | Ha]; [| now right].
    apply Hsee1' in Ha. destruct Ha as [[] | [Ha | Ha]]; [| now right].
    left. rewrite <- Hact. exact Ha.
  - destruct Hinv as ((_ & _ & _ & _ & _ & _ & _ & F8) & _).
    apply F8. apply existsb_action. exact Hreq.
Qed.

(** *** A parse that stops *)

Lemma take_runner_script (args : list string) (st : pstate) :
  exists st', take_action Act_runner_script args st = inr st'.
Proof. unfold take_action. cbn. eexists. reflexivity. Qed.

Lemma consume_rest_total (l : list (string * cls)) (after : option (list string))
    (st : pstate) :
  positionals_ok st -> exists st', consume_rest l after st = inr st'.
Proof.
  intros Hp. unfold consume_rest.
  destruct (positionals st) as [| p ps] eqn:E; [eexists; reflexivity |].
  destruct (match_positional (pattern_of l after)) as [n |]; [| eexists; reflexivity].
  rewrite (Hp p) by (rewrite E; now left).
  destruct (take_runner_script (firstn n (strings_of l after)) st) as (st' & ->).
  eexists. reflexivity.
Qed.

Lemma exec_steps_inl (argv : list string) (acts : list action) (steps : list step) :
  forall st e,
    exec_steps steps st = inl e ->
    Forall (step_shape acts) steps ->
    ~ In Act_runner_script acts ->
    (forall s, In (SArg s) steps -> s <> "--" /\ In s argv) ->
    Inv argv st ->
    stop_ok acts st e.
Proof.
  induction steps as [| s steps IH]; intros st e; cbn [exec_steps]; [discriminate |].
  intros H Hshape Hnr Hargs Hinv.
  inversion Hshape as [| s0 steps0 Hs Hsteps]; subst.
  destruct (exec_step s st) as [e1 | st1] eqn:H1.
  - injection H as <-.
    destruct s as [s | s | tuples | err]; cbn [exec_step] in H1.
    + destruct (positionals st) as [| p ps] eqn:Hp; [discriminate |].
      assert (Hpr : p = Act_runner_script).
      { destruct Hinv as (_ & _ & _ & I4). apply I4. rewrite Hp. now left. }
      subst p. destruct (take_runner_script [s] st) as (st' & E).
      rewrite E in H1. discriminate.
    + discriminate.
    + cbn in Hs. destruct Hs as [(a & args & -> & Hin) | (tl & -> & Hin)].
      * cbn [take_actions] in H1.
        destruct (take_action a args st) as [e | st'] eqn:H2; [| discriminate].
        injection H1 as <-. apply take_action_inl in H2.
        destruct H2 as [[-> ->] | (c & -> & Hc & Hcin)].
        -- left. auto.
        -- right. eexists. split; [reflexivity |].
           intros a' c' [= <- <-]. apply conflicts_spec in Hc.
           destruct Hc as (Ga & Gc & Hne).
           repeat split; auto.
           destruct Hcin as [<- | Hcin]; [contradiction | now left].
      * rewrite take_actions_help_first in H1. injection H1 as <-. left. auto.
    + injection H1 as <-. right. eexists. split; [reflexivity |].
      intros a c ->. cbn in Hs. discriminate.
  - assert (Hone : exec_steps [s] st = inr st1) by (cbn; now rewrite H1).
    assert (Hargs1 : forall s', In (SArg s') [s] -> s' <> "--" /\ In s' argv).
    { intros s' [E | []]. apply Hargs. left. exact E. }
    assert (Hargs2 : forall s', In (SArg s') steps -> s' <> "--" /\ In s' argv).
    { intros s' Hs'. apply Hargs. now right. }
    destruct (@exec_steps_ok argv acts [s] st st1 Hone
                (Forall_cons _ Hs (Forall_nil _)) Hnr Hargs1 Hinv)
      as (Hinv1 & _ & _ & Hsee).
    destruct (IH st1 e H Hsteps Hnr Hargs2 Hinv1) as [Hhelp | (err & -> & Herr)].
    { left. exact Hhelp. }
    right. eexists. split; [reflexivity |].
    intros a c Heq. destruct (Herr a c Heq) as (Ga & Gc & Hne & Ha & Hc).
    repeat split; auto.
    destruct Hc as [Hc | Hc]; [| now right].
    apply Hsee in Hc. destruct Hc as [Hc | [Hc | ->]]; auto. discriminate.
Qed.

Lemma gpu_options_in (argv : list string) (a : action) :
  In a (gpu_options argv) <-> In a (recognized argv) /\ in_group a = true.
Proof. unfold gpu_options. apply filter_In. Qed.

Lemma parse_failure (argv : list string) (e : exit) :
  parse_known_args argv = inl e ->
  (e = exit_help /\ In Act_help (recognized argv))
  \/ (exists err, e = exit_error err
         /\ forall a c, err = not_allowed_with a c ->
              a <> c /\ In a (gpu_options argv) /\ In c (gpu_options argv)).
Proof.
  unfold parse_known_args.
  destruct (classify argv) as [err | p] eqn:Hcl.
  { intros [= <-]. right. eexists. split; [reflexivity |].
    intros a c ->.
    assert (Hk : forall l q, classify l = inl q -> is_conflict q = false).
    { induction l as [| s l IHl]; intros q; cbn; [discriminate |].
      destruct (String.eqb s "--"); [discriminate |].
      destruct (parse_optional s); destruct (classify l); try discriminate;
        intros [= <-]; try reflexivity; now apply IHl. }
    apply Hk in Hcl. discriminate. }
  pose proof (classify_strings _ Hcl) as Hstr.
  pose proof (classify_no_dashes _ Hcl) as Hnd.
  pose proof (classify_actions _ Hcl) as Hact.
  pose proof (classify_consistent _ Hcl) as Hcons.
  rewrite parse_loop_plan. unfold then_rest.
  assert (Hbefore : forall s c, In (s, c) (before p) -> In s argv).
  { intros s c Hin. rewrite <- Hstr. unfold strings_of. apply in_or_app. left.
    apply in_map_iff. exists (s, c). auto. }
  assert (Hargs : forall s, In (SArg s) (fst (plan (before p))) -> s <> "--" /\ In s argv).
  { intros s Hs. apply plan_args in Hs. split; [eapply Hnd | eapply Hbefore]; eauto. }
  destruct (exec_steps (fst (plan (before p))) initial) as [e1 | st1] eqn:Hexec.
  - intros [= <-].
    destruct (@exec_steps_inl argv (actions_of (before p)) _ _ _ Hexec
                (plan_shape Hcons) (consistent_no_runner Hcons) Hargs (inv_initial argv))
      as [[-> Hh] | (err & -> & Herr)].
    + left. rewrite <- Hact. auto.
    + right. eexists. split; [reflexivity |].
      intros a c Heq. destruct (Herr a c Heq) as (Ga & Gc & Hne & Ha & Hc).
      destruct Hc as [[] | Hc].
      rewrite !gpu_options_in, <- Hact. auto.
  - destruct (@exec_steps_ok argv (actions_of (before p)) _ _ _ Hexec
                (plan_shape Hcons) (consistent_no_runner Hcons) Hargs (inv_initial argv))
      as ((_ & _ & _ & Hpos) & _).
    destruct (consume_rest_total (snd (plan (before p))) (after p) Hpos) as (st & ->).
    destruct (existsb _ (seen_actions st)); [discriminate |].
    intros [= <-]. right. eexists. split; [reflexivity |]. intros a c [=].
Qed.

(** *** The printed line *)

Lemma append_assoc (a b c : string) : (a ++ b) ++ c = a ++ b ++ c.
Proof. induction a as [| x a IH]; cbn; [reflexivity | now rewrite IH]. Qed.


Lemma append_nil_r (a : string) : a ++ "" = a.
Proof. induction a as [| x a IH]; cbn; [reflexivity | now rewrite IH]. Qed.

Lemma concat_empty_cons (a : string) (m : list string) :
  String.concat "" (a :: m) = a ++ String.concat "" m.
Proof. destruct m; cbn; [now rewrite append_nil_r | reflexivity]. Qed.

Lemma concat_space_cons (x : string) (l : list string) :
  String.concat " " (x :: l) = x ++ String.concat "" (map (fun s => " " ++ s) l).
Proof.
  revert x. induction l as [| y l IH]; intros x.
  - cbn. now rewrite append_nil_r.
  - change (String.concat " " (x :: y :: l)) with (x ++ " " ++ String.concat " " (y :: l)).
    rewrite IH. cbn [map]. rewrite concat_empty_cons, append_assoc. reflexivity.
Qed.

Lemma concat_output (args : Namespace) (remaining : list string) (draw : Z) :
  String.concat " " (output_args args remaining draw)
  = gpu_flag_of args ++ " -n " ++ str (job_name args draw)
    ++ " -q " ++ str (queue args)
    ++ " --cmd python " ++ str_opt (runner_script args)
    ++ String.concat "" (map (fun s => " " ++ s) remaining).
Proof.
  unfold output_args. cbn [app].
  change (String.concat " "
            (gpu_flag_of args
             :: ("-n " ++ str (job_name args draw))
             :: ("-q " ++ str (queue args))
             :: ("--cmd python " ++ str_opt (runner_script args)) :: remaining))
    with (gpu_flag_of args ++ " " ++ ("-n " ++ str (job_name args draw)) ++ " "
          ++ ("-q " ++ str (queue args)) ++ " "
          ++ String.concat " "
               (("--cmd python " ++ str_opt (runner_script args)) :: remaining)).
  rewrite concat_space_cons, !append_assoc. reflexivity.
Qed.




(** The header comment's invocation, with the queue the script adds. *)
Example example_run (draw : Z) :
  extract_args example_argv draw
  = printed "--gputype rtx_3090 -n my_name -q cnu --cmd python ./runners/autointerp.py -j 10".
Proof. reflexivity. Qed.

(** C6, as stated, at the command line [-h --3090 --a100]: two options of
    the group are given, and argparse prints the help and exits with
    status 0; no error is raised. *)
Lemma gpu_conflict_behind_help :
  gpu_options ["-h"; "--3090"; "--a100"] = [Act_3090; Act_a100]
  /\ extract_args ["-h"; "--3090"; "--a100"] 0 = exited exit_help
  /\ ~ (exists err, extract_args ["-h"; "--3090"; "--a100"] 0 = exited (exit_error err)).
Proof.
  split; [reflexivity |]. split; [reflexivity |].
  intros (err & H). cbv in H. discriminate.
Qed.

(** C6, amended.  When two different options of the GPU group are given,
    no command is printed: argparse exits, and with an error whenever no
    help option is given with them.  When the GPU options given are all
    the same one (or none), the error of the group is never raised. *)
Theorem gpu_options_exclusive (argv : list string) (draw : Z) :
  (forall a b, In a (gpu_options argv) -> In b (gpu_options argv) -> a <> b ->
     (exists e, extract_args argv draw = exited e)
     /\ (~ In Act_help (recognized argv) ->
         exists err, extract_args argv draw = exited (exit_error err)))
  /\ ((forall a b, In a (gpu_options argv) -> In b (gpu_options argv) -> a = b) ->
      forall a c, extract_args argv draw <> exited (exit_error (not_allowed_with a c))).
Proof.
  split.
  - intros a b Ha Hb Hne.
    assert (Hexit : exists e, parse_known_args argv = inl e).
    { destruct (parse_known_args argv) as [e | [args remaining]] eqn:Hp; [eauto |].
      exfalso.
      destruct (parse_success _ Hp) as (st & _ & _ & Hinv & _ & Hrec & _).
      destruct Hinv as (_ & Hone & _).
      apply gpu_options_in in Ha, Hb.
      apply Hne. apply Hone; try tauto; apply Hrec; tauto. }
    destruct Hexit as (e & Hp). unfold extract_args. rewrite Hp.
    split; [eauto |].
    intros Hnh. apply parse_failure in Hp.
    destruct Hp as [[_ Hh] | (err & -> & _)]; [contradiction | eauto].
  - intros Hsame a c H. unfold extract_args in H.
    destruct (parse_known_args argv) as [e | [args remaining]] eqn:Hp; [| discriminate].
    injection H as ->. apply parse_failure in Hp.
    destruct Hp as [[Hp _] | (err & [= <-] & Herr)]; [discriminate |].
    destruct (Herr a c eq_refl) as (Hne & Ha & Hc).
    apply Hne. now apply Hsame.
Qed.

Lemma gpu_options_exclusive_witness :
  (exists e, extract_args ["--3090"; "--a100"; "run.py"] 0 = exited e)
  /\ (exists err, extract_args ["--3090"; "--a100"; "run.py"] 0 = exited (exit_error err))
  /\ (forall a c, extract_args ["run.py"; "--3090"; "--3090"] 0
                  <> exited (exit_error (not_allowed_with a c))).
Proof.
  destruct (gpu_options_exclusive ["--3090"; "--a100"; "run.py"] 0) as [H1 _].
  destruct (gpu_options_exclusive ["run.py"; "--3090"; "--3090"] 0) as [_ H2].
  destruct (H1 Act_3090 Act_a100) as [E1 E2].
  - cbn. auto.
  - cbn. auto.
  - discriminate.
  - split; [exact E1 |]. split.
    + apply E2. cbn. intros [H | [H | []]]; discriminate.
    + apply H2. cbn. intros a b [<- | [<- | []]] [<- | [<- | []]]; reflexivity.
Defined.



(** *** Command lines without options, and after [--] *)

Lemma parse_optional_plain (s : string) :
  startswith s "-" = false -> parse_optional s = positional /\ s <> "--".
Proof.
  destruct s as [| c0 tl]; [split; [reflexivity | discriminate] |].
  unfold startswith. cbn [String.prefix].
  destruct (ascii_dec "-" c0) as [<- | Hne];
    [destruct tl; cbn [String.prefix]; discriminate |].
  intros _. split.
  - cbn [parse_optional].
    destruct (Ascii.eqb_spec c0 "-") as [-> | _]; [contradiction | reflexivity].
  - intros [= ->]. contradiction.
Qed.

Lemma classify_plain (l : list string) :
  Forall (fun s => startswith s "-" = false) l ->
  classify l = inr {| before := map (fun s => (s, A)) l; after := None |}.
Proof.
  induction 1 as [| s l Hs Hl IH]; [reflexivity |].
  destruct (parse_optional_plain s Hs) as [Hp Hd].
  cbn [classify]. apply String.eqb_neq in Hd. rewrite Hd, Hp, IH. reflexivity.
Qed.

Lemma has_option_plain (l : list string) :
  has_option (map (fun s => (s, A)) l) = false.
Proof. induction l as [| s l IH]; [reflexivity | exact IH]. Qed.

Lemma pattern_plain (l : list string) :
  pattern_of (map (fun s => (s, A)) l) None = map (fun _ => pA) l.
Proof.
  unfold pattern_of. rewrite app_nil_r, map_map. reflexivity.
Qed.

Lemma strings_plain (l : list string) :
  strings_of (map (fun s => (s, A)) l) None = l.
Proof.
  unfold strings_of. rewrite app_nil_r, map_map. apply map_id.
Qed.

Lemma parse_loop_no_option (l : list (string * cls)) (after : option (list string))
    (st : pstate) :
  has_option l = false -> parse_loop l after st = consume_rest l after st.
Proof. intros H. destruct l; cbn [parse_loop]; rewrite H; reflexivity. Qed.

(** X12.  A command line on which no argument starts with [-]: the first
    argument is the runner script, the others are handed on in their
    order, and the line printed has an empty GPU field, a drawn job name
    and the queue [cnu]. *)
Theorem plain_arguments_pass_through (r : string) (rest : list string) (draw : Z) :
  Forall (fun s => startswith s "-" = false) (r :: rest) ->
  parse_known_args (r :: rest)
  = inr ({| gputype := None; _2080 := false; _3090 := false; a100 := false;
            _80g := false; runner_script := Some (VStr r);
            name := VStr default_name; queue := VStr "cnu" |}, rest)
  /\ extract_args (r :: rest) draw
     = printed (" -n jsae" ++ str_of_Z (randint 1000 9999 draw)
                ++ " -q cnu --cmd python " ++ r
                ++ String.concat "" (map (fun s => " " ++ s) rest)).
Proof.
  intros Hplain.
  assert (Hp : parse_known_args (r :: rest)
               = inr ({| gputype := None; _2080 := false; _3090 := false; a100 := false;
                         _80g := false; runner_script := Some (VStr r);
                         name := VStr default_name; queue := VStr "cnu" |}, rest)).
  { unfold parse_known_args. rewrite (classify_plain Hplain). cbn [before after].
    rewrite parse_loop_no_option by apply has_option_plain.
    unfold consume_rest. rewrite pattern_plain, strings_plain.
    cbn [initial positionals map match_positional count_dashes skipn Nat.add].
    rewrite count_dashes_args. cbn [firstn skipn Nat.add].
    unfold take_action. cbn [action_conflicts find].
    inversion Hplain as [| r' rest' Hr Hrest]; subst.
    rewrite (get_values_single (proj2 (parse_optional_plain r Hr))).
    reflexivity. }
  split; [exact Hp |].
  unfold extract_args. rewrite Hp. rewrite concat_output. reflexivity.
Qed.

Lemma plain_arguments_pass_through_witness :
  extract_args ["train.py"; "10"] 0
  = printed " -n jsae1000 -q cnu --cmd python train.py 10".
Proof.
  destruct (@plain_arguments_pass_through "train.py" ["10"] 0) as [_ H].
  - repeat constructor.
  - exact H.
Defined.

(** X13.  A command line that starts with [--]: the argument after it is
    the runner script, and everything behind is handed on as it is, the
    option strings of the helper included; no option of the helper is set. *)
Theorem double_dash_passes_everything (r : string) (rest : list string) (draw : Z) :
  parse_known_args ("--" :: r :: rest)
  = inr ({| gputype := None; _2080 := false; _3090 := false; a100 := false;
            _80g := false; runner_script := Some (VStr r);
            name := VStr default_name; queue := VStr "cnu" |}, rest)
  /\ extract_args ("--" :: r :: rest) draw
     = printed (" -n jsae" ++ str_of_Z (randint 1000 9999 draw)
                ++ " -q cnu --cmd python " ++ r
                ++ String.concat "" (map (fun s => " " ++ s) rest)).
Proof.
  assert (Hp : parse_known_args ("--" :: r :: rest)
               = inr ({| gputype := None; _2080 := false; _3090 := false; a100 := false;
                         _80g := false; runner_script := Some (VStr r);
                         name := VStr default_name; queue := VStr "cnu" |}, rest)).
  { unfold parse_known_args. cbn [classify String.eqb Ascii.eqb Bool.eqb before after].
    cbn [parse_loop has_option existsb negb].
    unfold consume_rest, pattern_of, strings_of.
    cbn [initial positionals map app match_positional count_dashes skipn Nat.add].
    rewrite count_dashes_args. cbn [firstn skipn Nat.add].
    unfold take_action. cbn [action_conflicts find].
    unfold get_values. cbn [remove_first_dashes String.eqb Ascii.eqb Bool.eqb].
    reflexivity. }
  split; [exact Hp |].
  unfold extract_args. rewrite Hp. rewrite concat_output. reflexivity.
Qed.

(** *** An option behind plain arguments *)

Lemma classify_app_plain (pre l : list string) :
  Forall (fun s => startswith s "-" = false) pre ->
  classify (pre ++ l)
  = match classify l with
    | inl e => inl e
    | inr p => inr {| before := (map (fun s => (s, A)) pre ++ before p)%list;
                      after := after p |}
    end.
Proof.
  induction 1 as [| s pre Hs Hpre IH]; cbn [app map].
  - destruct (classify l) as [e | [b a]]; reflexivity.
  - destruct (parse_optional_plain s Hs) as [Hp Hd].
    cbn [classify]. apply String.eqb_neq in Hd. rewrite Hd, Hp, IH.
    destruct (classify l) as [e | p]; reflexivity.
Qed.

Lemma parse_optional_exact (o : string) (a : action) :
  lookup o option_string_actions = Some a ->
  parse_optional o = optional (Some a) o None /\ String.eqb o "--" = false.
Proof.
  intros H. pose proof (lookup_in _ _ H) as Hin.
  repeat (destruct Hin as [[= <- <-] | Hin]; [split; reflexivity |]).
  destruct Hin.
Qed.

Lemma has_option_behind_plain (pre : list string) (x : string * cls)
    (tail : list (string * cls)) :
  is_O x = true ->
  has_option (map (fun s => (s, A)) pre ++ x :: tail) = true.
Proof.
  intros Hx. unfold has_option. rewrite existsb_app. cbn [existsb].
  rewrite Hx. now rewrite orb_true_r.
Qed.

(** The plain arguments before the first option: the first of them goes
    to the positional, the others to the extras. *)
Lemma parse_loop_skips_plain (x : string * cls) (tail : list (string * cls))
    (after : option (list string)) (pre : list string) :
  is_O x = true ->
  forall st, positionals_ok st ->
    exists st', positionals_ok st'
      /\ parse_loop (map (fun s => (s, A)) pre ++ x :: tail) after st
         = parse_loop (x :: tail) after st'.
Proof.
  intros Hx. induction pre as [| s pre IH]; intros st Hst; [now exists st |].
  cbn [map app parse_loop].
  change (has_option ((s, A) :: map (fun s0 => (s0, A)) pre ++ x :: tail))
    with (has_option (map (fun s0 => (s0, A)) pre ++ x :: tail)).
  rewrite (@has_option_behind_plain pre x tail Hx). cbn [negb].
  destruct (positionals st) as [| p ps] eqn:Hpos.
  - apply IH. unfold positionals_ok. cbn. now rewrite Hpos.
  - assert (Hp : p = Act_runner_script) by (apply Hst; rewrite Hpos; now left).
    subst p.
    destruct (take_runner_script [s] st) as [st1 H1]. rewrite H1.
    apply IH. unfold positionals_ok. cbn. intros q Hq. apply Hst.
    rewrite Hpos. now right.
Qed.

Lemma initial_positionals_ok : positionals_ok initial.
Proof. intros p [<- | []]. reflexivity. Qed.

(** X14.  An option that takes a value ([-n], [--name], [-q], [--queue],
    [--gputype]) as the last argument, behind arguments that do not start
    with [-]: argparse exits with the error that the option expects one
    argument, and no command is printed. *)
Theorem missing_value_is_an_error (pre : list string) (o : string) (a : action)
    (draw : Z) :
  Forall (fun s => startswith s "-" = false) pre ->
  lookup o option_string_actions = Some a ->
  nargs a = 1%nat ->
  extract_args (pre ++ [o]) draw = exited (exit_error (expected_one_argument a)).
Proof.
  intros Hpre Ho Hn.
  destruct (parse_optional_exact _ Ho) as [Hp Hd].
  unfold extract_args, parse_known_args.
  rewrite (classify_app_plain _ Hpre). cbn [classify]. rewrite Hd, Hp. cbn [before after].
  destruct (@parse_loop_skips_plain (o, O (Some a) o None) [] None pre eq_refl
              initial initial_positionals_ok) as (st' & _ & ->).
  cbn [parse_loop has_option existsb is_O snd orb negb]. rewrite Hn. reflexivity.
Qed.

Lemma missing_value_is_an_error_witness :
  extract_args ["train.py"; "--name"] 0
  = exited (exit_error (expected_one_argument Act_name)).
Proof.
  apply (@missing_value_is_an_error ["train.py"] "--name" Act_name 0);
    [repeat constructor | reflexivity | reflexivity].
Defined.

Lemma classify_known (post : list string) :
  Forall (fun s => startswith s "-" = false
                   \/ exists a, lookup s option_string_actions = Some a) post ->
  exists p, classify post = inr p.
Proof.
  induction 1 as [| s post Hs Hpost [p IH]]; [eexists; reflexivity |].
  cbn [classify]. destruct (String.eqb s "--"); [eexists; reflexivity |].
  destruct Hs as [Hs | [a Ha]].
  - rewrite (proj1 (parse_optional_plain s Hs)), IH. eexists; reflexivity.
  - rewrite (proj1 (parse_optional_exact _ Ha)), IH. eexists; reflexivity.
Qed.

(** X15.  [-h] or [--help] behind arguments that do not start with [-]:
    argparse prints the help and exits with status 0 whatever plain
    arguments and options of the helper follow, conflicting GPU options
    and options without their value included; no command is printed. *)
Theorem help_stops_the_run (pre : list string) (o : string) (post : list string)
    (draw : Z) :
  Forall (fun s => startswith s "-" = false) pre ->
  lookup o option_string_actions = Some Act_help ->
  Forall (fun s => startswith s "-" = false
                   \/ exists a, lookup s option_string_actions = Some a) post ->
  extract_args (pre ++ o :: post) draw = exited exit_help.
Proof.
  intros Hpre Ho Hpost.
  destruct (parse_optional_exact _ Ho) as [Hp Hd].
  destruct (classify_known Hpost) as [p Hcl].
  unfold extract_args, parse_known_args.
  rewrite (classify_app_plain _ Hpre). cbn [classify]. rewrite Hd, Hp, Hcl.
  cbn [before after].
  destruct (@parse_loop_skips_plain (o, O (Some Act_help) o None) (before p) (after p)
              pre eq_refl initial initial_positionals_ok) as (st' & _ & ->).
  cbn [parse_loop has_option existsb is_O snd orb negb nargs app take_actions].
  rewrite take_action_help. reflexivity.
Qed.

Lemma help_stops_the_run_witness :
  extract_args ["train.py"; "-h"; "--2080"; "--3090"; "-n"] 0 = exited exit_help.
Proof.
  apply (@help_stops_the_run ["train.py"] "-h" ["--2080"; "--3090"; "-n"] 0).
  - repeat constructor.
  - reflexivity.
  - repeat (apply Forall_cons; [right; eexists; reflexivity |]). apply Forall_nil.
Defined.

(** *** An option with its value behind the runner script *)

Lemma add_extras_nil (st : pstate) : add_extras [] st = st.
Proof. destruct st. unfold add_extras. cbn. now rewrite app_nil_r. Qed.

Lemma add_extras_add (s : string) (l : list string) (st : pstate) :
  add_extras l (add_extras [s] st) = add_extras (s :: l) st.
Proof. unfold add_extras. cbn. now rewrite <- app_assoc. Qed.

(** With no positional pending, the plain arguments before an option go
    to the extras. *)
Lemma parse_loop_extras_plain (x : string * cls) (tail : list (string * cls))
    (after : option (list string)) (rest : list string) :
  is_O x = true ->
  forall st, positionals st = [] ->
    parse_loop (map (fun s => (s, A)) rest ++ x :: tail) after st
    = parse_loop (x :: tail) after (add_extras rest st).
Proof.
  intros Hx. induction rest as [| s rest IH]; intros st Hst.
  - now rewrite add_extras_nil.
  - cbn [map app parse_loop].
    change (has_option ((s, A) :: map (fun s0 => (s0, A)) rest ++ x :: tail))
      with (has_option (map (fun s0 => (s0, A)) rest ++ x :: tail)).
    rewrite (@has_option_behind_plain rest x tail Hx). cbn [negb]. rewrite Hst.
    rewrite IH by exact Hst. now rewrite add_extras_add.
Qed.

Lemma take_runner_initial (r : string) :
  r <> "--" ->
  take_action Act_runner_script [r] initial
  = inr {| namespace :=
             {| gputype := None; _2080 := false; _3090 := false; a100 := false;
                _80g := false; runner_script := Some (VStr r);
                name := VStr default_name; queue := VStr "cnu" |};
           seen_actions := [Act_runner_script];
           seen_non_default_actions := [Act_runner_script];
           positionals := [Act_runner_script];
           extras := [] |}.
Proof.
  intros Hr. unfold take_action. rewrite (get_values_single Hr). reflexivity.
Qed.

(** The state after the runner script [r] and the plain arguments [rest]. *)
Lemma parse_loop_runner_then_plain (x : string * cls) (tail : list (string * cls))
    (after : option (list string)) (r : string) (rest : list string) :
  is_O x = true -> r <> "--" ->
  parse_loop (map (fun s => (s, A)) (r :: rest) ++ x :: tail) after initial
  = parse_loop (x :: tail) after
      {| namespace :=
           {| gputype := None; _2080 := false; _3090 := false; a100 := false;
              _80g := false; runner_script := Some (VStr r);
              name := VStr default_name; queue := VStr "cnu" |};
         seen_actions := [Act_runner_script];
         seen_non_default_actions := [Act_runner_script];
         positionals := [];
         extras := rest |}.
Proof.
  intros Hx Hr.
  match goal with |- _ = ?rhs => set (R := rhs) end.
  cbn [map app parse_loop].
  change (has_option ((r, A) :: map (fun s0 => (s0, A)) rest ++ x :: tail))
    with (has_option (map (fun s0 => (s0, A)) rest ++ x :: tail)).
  rewrite (@has_option_behind_plain rest x tail Hx). cbn [negb].
  change (positionals initial) with [Act_runner_script]. cbv iota.
  rewrite (take_runner_initial Hr).
  rewrite parse_loop_extras_plain by (exact Hx || reflexivity).
  reflexivity.
Qed.

Lemma classify_option_value (r : string) (rest : list string) (o v : string) (a : action) :
  Forall (fun s => startswith s "-" = false) (r :: rest) ->
  startswith v "-" = false ->
  lookup o option_string_actions = Some a ->
  classify (r :: rest ++ [o; v])
  = inr {| before := (map (fun s => (s, A)) (r :: rest)
                      ++ [(o, O (Some a) o None); (v, A)])%list;
           after := None |}.
Proof.
  intros Hpre Hv Ho.
  destruct (parse_optional_exact _ Ho) as [Hp Hd].
  destruct (parse_optional_plain v Hv) as [Hpv Hdv]. apply String.eqb_neq in Hdv.
  change (r :: rest ++ [o; v])%list with ((r :: rest) ++ [o; v])%list.
  rewrite (classify_app_plain _ Hpre). cbn [classify].
  rewrite Hd, Hp, Hdv, Hpv. reflexivity.
Qed.

(** X19.  An option with its value behind the runner script and plain
    arguments, the value not starting with [-]: the value is the one
    printed in the field of the option ([-n] or [--name] for the job name,
    [-q] or [--queue] for the queue, [--gputype] for the GPU field), and
    neither the option nor its value is handed on to the runner. *)
Theorem option_value_is_used (r : string) (rest : list string) (o v : string)
    (draw : Z) :
  Forall (fun s => startswith s "-" = false) (r :: rest) ->
  startswith v "-" = false ->
  (lookup o option_string_actions = Some Act_name -> v <> default_name ->
     extract_args (r :: rest ++ [o; v]) draw
     = printed (" -n " ++ v ++ " -q cnu --cmd python " ++ r
                ++ String.concat "" (map (fun s => " " ++ s) rest)))
  /\ (lookup o option_string_actions = Some Act_queue ->
        extract_args (r :: rest ++ [o; v]) draw
        = printed (" -n jsae" ++ str_of_Z (randint 1000 9999 draw)
                   ++ " -q " ++ v ++ " --cmd python " ++ r
                   ++ String.concat "" (map (fun s => " " ++ s) rest)))
  /\ (lookup o option_string_actions = Some Act_gputype -> v <> "" ->
        extract_args (r :: rest ++ [o; v]) draw
        = printed ("--gputype " ++ v
                   ++ " -n jsae" ++ str_of_Z (randint 1000 9999 draw)
                   ++ " -q cnu --cmd python " ++ r
                   ++ String.concat "" (map (fun s => " " ++ s) rest))).
Proof.
  intros Hpre Hv.
  assert (Hr : r <> "--").
  { inversion Hpre as [| r' rest' Hr' _]; subst.
    exact (proj2 (parse_optional_plain r Hr')). }
  pose proof (proj2 (parse_optional_plain v Hv)) as Hvd.
  split; [| split].
  - intros Ho Hname. unfold extract_args, parse_known_args.
    rewrite (@classify_option_value r rest o v _ Hpre Hv Ho). cbn [before after].
    rewrite parse_loop_runner_then_plain by (reflexivity || exact Hr).
    cbn [parse_loop has_option existsb is_O snd orb negb nargs app take_actions].
    unfold take_action. cbn [action_conflicts in_group existsb action_eqb gpu_group
                              find orb seen_non_default_actions].
    rewrite (get_values_single Hvd).
    cbn [call namespace consume_rest positionals strings_of map app add_extras
         seen_actions existsb action_eqb orb extras].
    rewrite app_nil_r, concat_output.
    unfold job_name. cbn [name value_eqb_str].
    apply String.eqb_neq in Hname. unfold default_name in Hname. rewrite Hname.
    reflexivity.
  - intros Ho. unfold extract_args, parse_known_args.
    rewrite (@classify_option_value r rest o v _ Hpre Hv Ho). cbn [before after].
    rewrite parse_loop_runner_then_plain by (reflexivity || exact Hr).
    cbn [parse_loop has_option existsb is_O snd orb negb nargs app take_actions].
    unfold take_action. cbn [action_conflicts in_group existsb action_eqb gpu_group
                              find orb seen_non_default_actions].
    rewrite (get_values_single Hvd).
    cbn [call namespace consume_rest positionals strings_of map app add_extras
         seen_actions existsb action_eqb orb extras].
    rewrite app_nil_r, concat_output. reflexivity.
  - intros Ho Hne. unfold extract_args, parse_known_args.
    rewrite (@classify_option_value r rest o v _ Hpre Hv Ho). cbn [before after].
    rewrite parse_loop_runner_then_plain by (reflexivity || exact Hr).
    cbn [parse_loop has_option existsb is_O snd orb negb nargs app take_actions].
    unfold take_action. cbn [action_conflicts in_group existsb action_eqb gpu_group
                              find orb seen_non_default_actions filter negb].
    rewrite (get_values_single Hvd).
    cbn [call namespace consume_rest positionals strings_of map app add_extras
         seen_actions existsb action_eqb orb extras].
    rewrite app_nil_r, concat_output.
    unfold gpu_flag_of. cbn [gputype truthy].
    destruct v as [| c v']; [contradiction |]. reflexivity.
Qed.

Lemma option_value_is_used_witness :
  extract_args ["train.py"; "10"; "--queue"; "gpu"] 0
  = printed " -n jsae1000 -q gpu --cmd python train.py 10".
Proof.
  destruct (@option_value_is_used "train.py" ["10"] "--queue" "gpu" 0) as (_ & H & _).
  - repeat constructor.
  - reflexivity.
  - apply H. reflexivity.
Defined.

(** *** What the parser makes of a command line, read off the command line *)






(** **** The strings after the last option *)







(** **** The loop over the options *)




(** **** The whole parse *)








(** *** The printed command *)




(** C8, as stated, at the command line [run.py --gputype=--]: the value
    supplied is the string [--], which is not empty; argparse stores the
    empty list for it, and the GPU field is empty. *)
Example double_dash_gputype_is_dropped :
  last_supplied Act_gputype ["run.py"; "--gputype=--"] = Some "--"
  /\ exists args,
       parse_known_args ["run.py"; "--gputype=--"] = inr (args, [])
       /\ gputype args = Some (VList [])
       /\ gpu_flag_of args = ""
       /\ extract_args ["run.py"; "--gputype=--"] 0
          = printed " -n jsae1000 -q cnu --cmd python run.py".
Proof.
  split; [reflexivity |]. eexists. repeat split; reflexivity.
Qed.






End ExtractArgsProofs.

(* ================================================================== *)
(** ** The download script: what a run downloads, and where it stops *)
(* ================================================================== *)

Module DownloadProofs.
Import DownloadArtifacts.
#[local] Open Scope string_scope.

Lemma for_each_download (l : list Artifact) :
  forall s, result_of l s (for_each l (fun artifact => download artifact) s).
Proof.
  induction l as [| a l IH]; intros s.
  - cbn. split; [reflexivity |]. now rewrite !app_nil_r.
  - cbn [for_each]. unfold bind at 1. unfold download at 1.
    destruct (download_raises a) eqn:Ha.
    + split; [reflexivity |]. cbn.
      exists [], l. cbn. rewrite app_nil_r. auto.
    + specialize (IH {| attempted := (attempted s ++ [a])%list;
                        downloaded := (downloaded s ++ [a])%list;
                        stdout := stdout s |}).
      cbn [attempted downloaded stdout].
      destruct IH as [Hout IH]. split; [exact Hout |].
      destruct (snd (for_each l _ _)) as [[t | b] | []].
      * exact IH.
      * destruct IH as (pre & post & -> & Hatt & Hdl & Hpre & Hb).
        exists (a :: pre), post. cbn in *.
        rewrite Hatt, Hdl, <- !app_assoc. cbn.
        repeat split; auto.
      * destruct IH as (Hatt & Hdl & Hl). cbn in *.
        rewrite Hatt, Hdl, <- !app_assoc. cbn.
        repeat split; auto.
Qed.

(** Going on after a run that went through [l1]. *)
Lemma result_of_app (l1 l2 : list Artifact) (s s1 : state) (r : state * (exn + unit)) :
  result_of l1 s (s1, inr tt) -> result_of l2 s1 r -> result_of (l1 ++ l2) s r.
Proof.
  intros [Hout1 (Hatt1 & Hdl1 & Hok1)] [Hout2 H2]. cbn in *.
  split; [congruence |].
  destruct (snd r) as [[t | b] | []].
  - exact H2.
  - destruct H2 as (pre & post & -> & Hatt & Hdl & Hpre & Hb).
    exists (l1 ++ pre)%list, post.
    rewrite Hatt, Hdl, Hatt1, Hdl1, <- !app_assoc.
    repeat split; auto. apply Forall_app; auto.
  - destruct H2 as (Hatt & Hdl & Hok).
    rewrite Hatt, Hdl, Hatt1, Hdl1, <- !app_assoc.
    repeat split; auto. apply Forall_app; auto.
Qed.

(** Stopping in a run that went through part of [l1]. *)
Lemma result_of_stop (l1 l2 : list Artifact) (s s1 : state) (e : exn) :
  result_of l1 s (s1, inl e) -> result_of (l1 ++ l2) s (s1, inl e).
Proof.
  intros [Hout H]. split; [exact Hout |]. cbn in *.
  destruct e as [t | b]; [exact H |].
  destruct H as (pre & post & -> & Hatt & Hdl & Hpre & Hb).
  exists pre, (post ++ l2)%list. rewrite <- app_assoc. cbn. auto.
Qed.

Lemma for_each_collections (colls : list Collection) :
  forall s,
    result_of (concat colls) s
      (for_each colls (fun coll => for_each coll (fun artifact => download artifact)) s).
Proof.
  induction colls as [| c colls IH]; intros s.
  - cbn. split; [reflexivity |]. now rewrite !app_nil_r.
  - cbn [for_each concat]. unfold bind at 1.
    pose proof (for_each_download c s) as Hc.
    destruct (for_each c _ s) as [s1 [e | []]].
    + now apply result_of_stop.
    + eapply result_of_app; [exact Hc | apply IH].
Qed.

Lemma order_cons (p : Project) (t : string) (ts : list string) :
  order p (t :: ts)
  = (match lookup_type t p with
     | Some colls => concat colls
     | None => []
     end ++ order p ts)%list.
Proof. reflexivity. Qed.

Lemma bind_inr {A B : Type} (m : M A) (f : A -> M B) (s s' : state) (a : A) :
  m s = (s', inr a) -> bind m f s = f a s'.
Proof. intros H. unfold bind. now rewrite H. Qed.

Lemma bind_inl {A B : Type} (m : M A) (f : A -> M B) (s s' : state) (e : exn) :
  m s = (s', inl e) -> bind m f s = (s', inl e).
Proof. intros H. unfold bind. now rewrite H. Qed.

Lemma loop_cons (p : Project) (t : string) (ts : list string) (s : state) :
  loop p (t :: ts) s =
  match lookup_type t p with
  | None => (s, inl (artifact_type_not_found t))
  | Some colls =>
      match for_each colls (fun coll => for_each coll (fun artifact => download artifact)) s with
      | (s', inl e) => (s', inl e)
      | (s', inr _) => loop p ts s'
      end
  end.
Proof.
  unfold loop. cbn [for_each]. unfold collections.
  destruct (lookup_type t p) as [colls |]; reflexivity.
Qed.

Lemma loop_spec (p : Project) (ts : list string) :
  forall s, loop_result p ts s (loop p ts s).
Proof.
  induction ts as [| t ts IH]; intros s.
  - cbn. split; [reflexivity |]. now rewrite !app_nil_r.
  - rewrite loop_cons. unfold loop_result. rewrite order_cons.
    destruct (lookup_type t p) as [colls |] eqn:Hl.
    + pose proof (for_each_collections colls s) as Hc.
      destruct (for_each colls _ s) as [s1 [e | []]].
      * cbn [snd].
        destruct e as [t' | b]; cbv beta iota.
        -- destruct Hc as [_ []].
        -- now apply result_of_stop.
      * specialize (IH s1). unfold loop_result in IH.
        destruct (loop p ts s1) as [s2 [[t' | b] | []]]; cbn [snd] in *;
          cbv beta iota in *.
        -- destruct IH as [Hin Hno]. split; [now right | exact Hno].
        -- eapply result_of_app; eauto.
        -- eapply result_of_app; eauto.
    + cbn. split; [now left | exact Hl].
Qed.

Lemma main_unfold (p : Project) (s : state) :
  main p s =
  match loop p type_names s with
  | (s', inl e) => (s', inl e)
  | (s', inr _) => print "Downloaded all artifacts" s'
  end.
Proof. reflexivity. Qed.

(** A run that ends without an exception has downloaded every artifact of
    the three types of [type_names], and printed the final message. *)
Lemma main_success (p : Project) (s' : state) :
  main p empty = (s', inr tt) ->
  downloaded s' = iteration_order p
  /\ stdout s' = ["Downloaded all artifacts"].
Proof.
  rewrite main_unfold. intros H.
  pose proof (loop_spec p type_names empty) as Hloop.
  destruct (loop p type_names empty) as [s1 [e | []]]; [discriminate |].
  unfold loop_result, result_of in Hloop. cbn in Hloop.
  destruct Hloop as (Hout & _ & Hdl & _).
  unfold print in H. injection H as <-. cbn.
  rewrite Hout. split; [exact Hdl | reflexivity].
Qed.

(** C4 (at a project that stores an artifact of a fourth type).  The run
    ends without an exception and prints its final message; the artifact
    of type [dataset] is stored in the project and has not been
    downloaded. *)
Theorem download_skips_other_types :
  snd (main project_with_dataset empty) = inr tt
  /\ stdout (fst (main project_with_dataset empty)) = ["Downloaded all artifacts"]
  /\ In tokens_v0 (stored project_with_dataset)
  /\ ~ In tokens_v0 (downloaded (fst (main project_with_dataset empty))).
Proof.
  repeat split.
  - cbn. right; right; right; left; reflexivity.
  - cbn. intros [H | [H | [H | []]]]; discriminate.
Qed.

(** C7.  When a run ends with the exception of a download, the artifact
    that raised it splits the iteration order in two: the artifacts before
    it have been downloaded, and they are all that has been downloaded;
    [download] has been called on them and once on the failing artifact,
    and on no artifact after it; and nothing has been printed. *)
Theorem download_stops_at_first_error (p : Project) (a : Artifact)
    (H : snd (main p empty) = inl (download_error a)) :
  exists pre post,
    iteration_order p = (pre ++ a :: post)%list
    /\ attempted (fst (main p empty)) = (pre ++ [a])%list
    /\ downloaded (fst (main p empty)) = pre
    /\ Forall ok pre
    /\ download_raises a = true
    /\ stdout (fst (main p empty)) = [].
Proof.
  rewrite main_unfold in *.
  pose proof (loop_spec p type_names empty) as Hloop.
  destruct (loop p type_names empty) as [s1 [e | []]].
  - cbn in H. injection H as ->.
    unfold loop_result, result_of in Hloop. cbn in Hloop.
    destruct Hloop as (Hout & pre & post & Hord & Hatt & Hdl & Hpre & Ha).
    exists pre, post. cbn. auto 10.
  - discriminate.
Qed.

Lemma download_stops_at_first_error_witness :
  exists pre post,
    iteration_order project_with_failure = (pre ++ broken_v1 :: post)%list
    /\ attempted (fst (main project_with_failure empty)) = (pre ++ [broken_v1])%list
    /\ downloaded (fst (main project_with_failure empty)) = pre
    /\ Forall ok pre
    /\ download_raises broken_v1 = true
    /\ stdout (fst (main project_with_failure empty)) = [].
Proof.
  apply (@download_stops_at_first_error project_with_failure broken_v1).
  reflexivity.
Defined.

(** *** Runs that end well, and runs that miss a type *)

Lemma order_app (p : Project) (ts1 ts2 : list string) :
  order p (ts1 ++ ts2) = (order p ts1 ++ order p ts2)%list.
Proof. unfold order. apply flat_map_app. Qed.

Lemma loop_types_exist (p : Project) (ts : list string) :
  forall s s', loop p ts s = (s', inr tt) ->
    forall t, In t ts -> lookup_type t p <> None.
Proof.
  induction ts as [| t0 ts IH]; intros s s' H t Ht; [destruct Ht |].
  rewrite loop_cons in H.
  destruct (lookup_type t0 p) as [colls |] eqn:Hl; [| discriminate].
  destruct (for_each colls _ s) as [s1 [e | []]]; [discriminate |].
  destruct Ht as [<- | Ht]; [now rewrite Hl |].
  eapply IH; eauto.
Qed.

Lemma loop_not_found (p : Project) (ts : list string) :
  forall s s' t, loop p ts s = (s', inl (artifact_type_not_found t)) ->
    exists pre post,
      ts = (pre ++ t :: post)%list
      /\ lookup_type t p = None
      /\ (forall t', In t' pre -> lookup_type t' p <> None)
      /\ stdout s' = stdout s
      /\ attempted s' = (attempted s ++ order p pre)%list
      /\ downloaded s' = (downloaded s ++ order p pre)%list.
Proof.
  induction ts as [| t0 ts IH]; intros s s' t H; [discriminate |].
  rewrite loop_cons in H.
  destruct (lookup_type t0 p) as [colls |] eqn:Hl.
  - pose proof (for_each_collections colls s) as Hc.
    destruct (for_each colls _ s) as [s1 [e | []]].
    + injection H as <- ->. destruct Hc as [_ []].
    + destruct Hc as [Hout (Hatt & Hdl & _)]. cbn [fst snd] in *.
      destruct (IH _ _ _ H) as (pre & post & -> & Hnone & Hpre & Hout' & Hatt' & Hdl').
      exists (t0 :: pre), post. rewrite order_cons, Hl.
      rewrite Hout', Hatt', Hdl', Hout, Hatt, Hdl, <- !app_assoc.
      repeat split; auto.
      intros t' [<- | Ht']; [now rewrite Hl | now apply Hpre].
  - injection H as <- <-. exists [], ts. cbn. rewrite !app_nil_r.
    assert (Hnil : forall t' : string, False -> lookup_type t' p <> None) by (intros t' []).
    repeat split; auto.
Qed.

(** X16.  The script ends without an exception exactly when the project
    has each of the three artifact types it names and no download among
    their artifacts raises; it has then called [download] once for each
    of these artifacts, in the order of the types, of the collections and
    of the artifacts in them, and printed its message once. *)
Theorem run_succeeds_iff_types_exist_and_downloads_work (p : Project) :
  (snd (main p empty) = inr tt
   <-> (forall t, In t type_names -> lookup_type t p <> None)
       /\ Forall ok (iteration_order p))
  /\ (snd (main p empty) = inr tt ->
      attempted (fst (main p empty)) = iteration_order p
      /\ downloaded (fst (main p empty)) = iteration_order p
      /\ stdout (fst (main p empty)) = ["Downloaded all artifacts"]).
Proof.
  rewrite main_unfold.
  pose proof (loop_spec p type_names empty) as Hspec.
  pose proof (@loop_types_exist p type_names empty) as Hex.
  pose proof (@loop_not_found p type_names empty) as Hnf.
  destruct (loop p type_names empty) as [s1 [e | []]].
  - split; [| discriminate]. split; [discriminate |].
    intros [Htypes Hok]. exfalso. destruct e as [t | a].
    + destruct (Hnf s1 t eq_refl) as (pre & post & Hts & Hnone & _).
      apply (Htypes t); [| exact Hnone]. rewrite Hts. apply in_elt.
    + unfold loop_result, result_of in Hspec. cbn [fst snd] in Hspec.
      destruct Hspec as (_ & pre & post & Hord & _ & _ & _ & Hraises).
      unfold iteration_order in Hok. rewrite Hord in Hok.
      apply Forall_elt in Hok. unfold ok in Hok. congruence.
  - unfold loop_result, result_of in Hspec. cbn [fst snd] in Hspec.
    destruct Hspec as (Hout & Hatt & Hdl & Hok).
    split.
    + split; [| reflexivity]. intros _. split; [| exact Hok].
      intros t Ht. eapply Hex; eauto.
    + intros _. unfold print. cbn [fst attempted downloaded stdout].
      rewrite Hatt, Hdl, Hout. auto.
Qed.

(** X17.  When the project lacks one of the types the script names, the
    script stops at the first such type with the error of the service:
    the artifacts of the types before it have been downloaded, in order,
    no artifact of a later type has been attempted, and the final message
    is not printed. *)
Theorem missing_type_stops_the_run (p : Project) (t : string)
    (H : snd (main p empty) = inl (artifact_type_not_found t)) :
  exists pre post,
    type_names = (pre ++ t :: post)%list
    /\ lookup_type t p = None
    /\ (forall t', In t' pre -> lookup_type t' p <> None)
    /\ attempted (fst (main p empty)) = order p pre
    /\ downloaded (fst (main p empty)) = order p pre
    /\ stdout (fst (main p empty)) = [].
Proof.
  rewrite main_unfold in *.
  pose proof (@loop_not_found p type_names empty) as Hnf.
  destruct (loop p type_names empty) as [s1 [e | []]].
  - cbn [snd] in H. injection H as ->.
    destruct (Hnf s1 t eq_refl) as (pre & post & Hts & Hnone & Hpre & Hout & Hatt & Hdl).
    exists pre, post. cbn [fst]. cbn in Hout, Hatt, Hdl.
    split; [exact Hts |]. split; [exact Hnone |]. split; [exact Hpre |]. auto.
  - discriminate H.
Qed.

Lemma missing_type_stops_the_run_witness :
  exists pre post,
    type_names = (pre ++ "wandb-history" :: post)%list
    /\ lookup_type "wandb-history" project_without_history = None
    /\ (forall t', In t' pre -> lookup_type t' project_without_history <> None)
    /\ attempted (fst (main project_without_history empty))
       = order project_without_history pre
    /\ downloaded (fst (main project_without_history empty))
       = order project_without_history pre
    /\ stdout (fst (main project_without_history empty)) = [].
Proof.
  apply (@missing_type_stops_the_run project_without_history "wandb-history").
  reflexivity.
Defined.

(** X18.  Whatever the project holds and however the run ends, the calls of
    [download] made are, in their order, a prefix of the iteration order
    of the three named types: none is made out of order, twice for one
    place of that order, or for an artifact outside it; and every artifact
    attempted is in local storage, except the last one when its download
    raised. *)
Theorem downloads_follow_the_iteration_order (p : Project) :
  (exists rest, iteration_order p = (attempted (fst (main p empty)) ++ rest)%list)
  /\ (downloaded (fst (main p empty)) = attempted (fst (main p empty))
      \/ exists a, download_raises a = true
                   /\ snd (main p empty) = inl (download_error a)
                   /\ attempted (fst (main p empty))
                      = (downloaded (fst (main p empty)) ++ [a])%list).
Proof.
  rewrite main_unfold.
  pose proof (loop_spec p type_names empty) as Hspec.
  pose proof (@loop_not_found p type_names empty) as Hnf.
  destruct (loop p type_names empty) as [s1 [e | []]].
  - cbn [fst snd]. destruct e as [t | a].
    + destruct (Hnf s1 t eq_refl) as (pre & post & Hts & _ & _ & _ & Hatt & Hdl).
      cbn in Hatt, Hdl. split; [| left; congruence].
      exists (order p (t :: post)). unfold iteration_order.
      rewrite Hts, order_app, Hatt. reflexivity.
    + unfold loop_result, result_of in Hspec. cbn [fst snd] in Hspec.
      destruct Hspec as (_ & pre & post & Hord & Hatt & Hdl & _ & Hraises).
      cbn in Hatt, Hdl. split.
      * exists post. unfold iteration_order. rewrite Hord, Hatt, <- app_assoc.
        reflexivity.
      * right. exists a. rewrite Hatt, Hdl. auto.
  - unfold loop_result, result_of in Hspec. cbn [fst snd] in Hspec.
    destruct Hspec as (_ & Hatt & Hdl & _). cbn in Hatt, Hdl.
    unfold print. cbn [fst attempted downloaded]. split.
    + exists []. rewrite app_nil_r. now rewrite Hatt.
    + left. congruence.
Qed.

End DownloadProofs.

(* ================================================================== *)
(** ** The sync script: the confirmation prompt *)
(* ================================================================== *)

Module SyncScriptProofs.
Import SyncScript.
#[local] Open Scope string_scope.

Lemma refused_response (response : string) :
  response <> "y" -> response <> "" ->
  negb (String.eqb response "y") && negb (String.eqb response "") = true.
Proof.
  intros Hy He.
  apply String.eqb_neq in Hy.
  apply String.eqb_neq in He.
  now rewrite Hy, He.
Qed.

Lemma accepted_response (response : string) :
  response = "y" \/ response = "" ->
  negb (String.eqb response "y") && negb (String.eqb response "") = false.
Proof.
  intros [-> | ->]; reflexivity.
Qed.

(** C5.  A response other than [y] and the empty string ends the script
    with status 1 and no [rsync] has run; on [y] or the empty string the
    script runs one [rsync], whose sources are the directories
    [hpc_utils], [jacobian_saes] and [runners] of the parent directory,
    whose excludes are [*.pyc] and [.DS_Store], and whose destination is
    the remote host. *)
Theorem sync_asks_before_rsync (response parent_dir : string) (rsync_status : nat) :
  (response <> "y" /\ response <> "" ->
     status (sync response parent_dir rsync_status) = 1
     /\ rsyncs (sync response parent_dir rsync_status) = []
     /\ forallb (fun e => negb (is_rsync e))
          (events (sync response parent_dir rsync_status)) = true)
  /\
  (response = "y" \/ response = "" ->
     rsyncs (sync response parent_dir rsync_status)
     = [ {| flags := ["-av"];
            exclude := ["*.pyc"; ".DS_Store"];
            sources := [ parent_dir ++ "/hpc_utils";
                         parent_dir ++ "/jacobian_saes";
                         parent_dir ++ "/runners" ];
            destination := "bp:~/work/jacobian_saes" |} ]
     /\ status (sync response parent_dir rsync_status) = rsync_status).
Proof.
  split.
  - intros [Hy He]. unfold sync.
    rewrite (refused_response Hy He). cbn. auto.
  - intros H. unfold sync.
    rewrite (accepted_response H). cbn. auto.
Qed.

Lemma sync_asks_before_rsync_witness :
  (status (sync "n" "/home/u/jsae" 0) = 1
   /\ rsyncs (sync "n" "/home/u/jsae" 0) = [])
  /\ (rsyncs (sync "y" "/home/u/jsae" 0)
      = [ {| flags := ["-av"];
             exclude := ["*.pyc"; ".DS_Store"];
             sources := [ "/home/u/jsae/hpc_utils";
                          "/home/u/jsae/jacobian_saes";
                          "/home/u/jsae/runners" ];
             destination := "bp:~/work/jacobian_saes" |} ]).
Proof.
  split.
  - destruct (sync_asks_before_rsync "n" "/home/u/jsae" 0) as [H _].
    destruct H as (H1 & H2 & _).
    + split; discriminate.
    + split; assumption.
  - destruct (sync_asks_before_rsync "y" "/home/u/jsae" 0) as [_ H].
    destruct H as (H1 & _).
    + left; reflexivity.
    + exact H1.
Defined.

End SyncScriptProofs.
